(** * regolt: keyed cache engine, event dispatch bus and event-stream client

    A shallow embedding of [cache.go], [events.go] and the frame processor
    and read loop of [socket.go], followed by the properties of the
    specification that concern them.  The caches of a socket, [Open], the
    pinger and the [commands] package follow, with further properties of
    the code.

    Conventions of the embedding.
    - Go's [int] counters ([len], [total], [MaxSize]) are integers of [Z].
      The counters only count live map entries, which are bounded by the
      address space, so their 64-bit wrap-around cannot be reached and is
      not written out; the subscription counter [id], which grows with
      every [Listen], wraps explicitly.
    - A Go map is a [gmap]; entities are stored by value.  [PartiallyUpdate]
      writes the mutated entity back under the same key, which is what the
      in-place mutation through the stored pointer amounts to.
    - Go leaves the iteration order of a map unspecified.  Every [range]
      loop takes the order chosen by the runtime as an explicit argument. *)

From Stdlib Require Import ZArith Lia.
From stdpp Require Import base gmap sets list strings.

Abbreviation ULID := string.

(** [len(m)] of a Go map. *)
Definition len `{Countable K} {V : Type} (m : gmap K V) : Z := Z.of_nat (size m).

(** The first key produced by [for k := range m].  The runtime may pick any
    key of the map; it picks none only when the map is empty. *)
Record RangeOracle := mkRangeOracle {
  first_key : gset ULID → option ULID;
  first_key_elem : ∀ X k, first_key X = Some k → k ∈ X;
  first_key_none : ∀ X, first_key X = None → X = ∅
}.

Definition range_first {V : Type} (o : RangeOracle) (m : gmap ULID V) : option ULID :=
  first_key o (dom m).

(** One admissible runtime: the least key in the order of [elements]. *)
Program Definition first_listed : RangeOracle :=
  {| first_key := λ X, head (elements X) |}.
Next Obligation.
  intros X k Hk. apply elem_of_elements. apply head_Some_elem_of. exact Hk.
Qed.
Next Obligation.
  intros X HX. apply leibniz_equiv, elements_empty_inv.
  apply head_None in HX. rewrite HX. reflexivity.
Qed.

(** Another admissible runtime: the last key in the order of [elements]. *)
Program Definition last_listed : RangeOracle :=
  {| first_key := λ X, last (elements X) |}.
Next Obligation.
  intros X k Hk. apply elem_of_elements. apply last_Some_elem_of. exact Hk.
Qed.
Next Obligation.
  intros X HX. apply leibniz_equiv, elements_empty_inv.
  apply last_None in HX. rewrite HX. reflexivity.
Qed.

(** [type Cacheable interface { GetKey() ULID }] *)
Class Cacheable (T : Type) := GetKey : T → ULID.

(** ** cache.go: the single-keyed cache *)
Module Cache1.
Section Defs.
Context {T : Type} `{Cacheable T}.

(** What a checker can read through [Cache1CheckContext]: the fields of
    the cache it is handed and the candidate entity. *)
Record CheckContext := mkCheckContext {
  CtxDontInsertIfOverflow : bool;
  CtxMaxSize : Z;
  CtxCache : gmap ULID T;
  Entity : T
}.

Record t := mk {
  Checker : option (CheckContext → bool);
  DontInsertIfOverflow : bool;
  MaxSize : Z;
  Cache : gmap ULID T
}.

Definition with_Cache (f : gmap ULID T → gmap ULID T) (c : t) : t :=
  {| Checker := Checker c; DontInsertIfOverflow := DontInsertIfOverflow c;
     MaxSize := MaxSize c; Cache := f (Cache c) |}.

(** [c.Checker != nil && !c.Checker.CanCache1(ctx)] *)
Definition vetoed (c : t) (e : T) : bool :=
  match Checker c with
  | Some can =>
      negb (can {| CtxDontInsertIfOverflow := DontInsertIfOverflow c;
                   CtxMaxSize := MaxSize c; CtxCache := Cache c; Entity := e |})
  | None => false
  end.

(** [for k := range c.Cache { delete(c.Cache, k); break }] *)
Definition evict_one (o : RangeOracle) (c : t) : t :=
  match range_first o (Cache c) with
  | Some k => with_Cache (delete k) c
  | None => c
  end.

(** [c.Cache[e.GetKey()] = e] *)
Definition store (e : T) (c : t) : t := with_Cache (<[GetKey e := e]>) c.

Definition resize (o : RangeOracle) (c : t) (e : T) : bool * t :=
  if (MaxSize c =? 0)%Z then (false, c)
  else if (0 <? MaxSize c)%Z then
    if vetoed c e then (false, c)
    else if (MaxSize c <=? len (Cache c))%Z then
      if DontInsertIfOverflow c then (false, c)
      else (true, store e (evict_one o c))
    else (true, store e c)
  else (true, c).

Definition Get (c : t) (id : ULID) : option T := Cache c !! id.

Definition Del (c : t) (id : ULID) : t := with_Cache (delete id) c.

(** The updater is a closure: besides the entity it may touch any state
    [W] it captured, which is how an invocation can be observed. *)
Definition PartiallyUpdate {W : Type} (c : t) (id : ULID)
    (updater : T → W → T * W) (w : W) : t * W :=
  match Cache c !! id with
  | None => (c, w)
  | Some x => let '(x', w') := updater x w in (with_Cache (<[id := x']>) c, w')
  end.

Definition Set_ (o : RangeOracle) (c : t) (v : T) : t :=
  let '(ok, c') := resize o c v in
  if ok then store v c' else c'.

Definition Size (c : t) : Z := len (Cache c).

(** [init]: a cache starts with an empty, non-nil map. *)
Definition init (checker : option (CheckContext → bool)) (dont : bool) (maxSize : Z) : t :=
  {| Checker := checker; DontInsertIfOverflow := dont; MaxSize := maxSize; Cache := ∅ |}.

(** A run of [Set] calls, each with the choice the runtime makes in it. *)
Definition run_sets (c : t) (calls : list (RangeOracle * T)) : t :=
  foldl (λ c' call, Set_ call.1 c' call.2) c calls.
End Defs.
Arguments t T : clear implicits.
Arguments CheckContext T : clear implicits.
End Cache1.

(** ** cache.go: the parent-scoped cache *)
Module Cache2.
Section Defs.
Context {T : Type} `{Cacheable T}.

Record CheckContext := mkCheckContext {
  CtxMaxSize1 : Z;
  CtxMaxSize2 : Z;
  CtxTotalMaxSize : Z;
  CtxTotal : Z;
  CtxDontInsertIfOverflow : bool;
  CtxCache : gmap ULID (gmap ULID T);
  Parent : ULID;
  Entity : T
}.

Record t := mk {
  Checker : option (CheckContext → bool);
  MaxSize1 : Z;
  MaxSize2 : Z;
  TotalMaxSize : Z;
  total : Z;
  DontInsertIfOverflow : bool;
  Cache : gmap ULID (gmap ULID T)
}.

Definition with_Cache (f : gmap ULID (gmap ULID T) → gmap ULID (gmap ULID T)) (c : t) : t :=
  {| Checker := Checker c; MaxSize1 := MaxSize1 c; MaxSize2 := MaxSize2 c;
     TotalMaxSize := TotalMaxSize c; total := total c;
     DontInsertIfOverflow := DontInsertIfOverflow c; Cache := f (Cache c) |}.

Definition with_total (f : Z → Z) (c : t) : t :=
  {| Checker := Checker c; MaxSize1 := MaxSize1 c; MaxSize2 := MaxSize2 c;
     TotalMaxSize := TotalMaxSize c; total := f (total c);
     DontInsertIfOverflow := DontInsertIfOverflow c; Cache := Cache c |}.

(** [del]: with an absent parent, [p] is the nil map, on which the lookup
    misses and [delete] does nothing. *)
Definition del (c : t) (parent id : ULID) : t :=
  match Cache c !! parent with
  | None => c
  | Some p =>
      let j := bool_decide (is_Some (p !! id)) in
      let c' := with_Cache (<[parent := delete id p]>) c in
      if j then with_total Z.pred c' else c'
  end.

Definition ins (c : t) (parent : ULID) (e : T) : t :=
  match Cache c !! parent with
  | None => with_total Z.succ (with_Cache (<[parent := {[GetKey e := e]}]>) c)
  | Some m =>
      let i := GetKey e in
      let ok := bool_decide (is_Some (m !! i)) in
      let c' := with_Cache (<[parent := <[i := e]> m]>) c in
      if negb ok then with_total Z.succ c' else c'
  end.

Definition vetoed (c : t) (parent : ULID) (e : T) : bool :=
  match Checker c with
  | Some can =>
      negb (can {| CtxMaxSize1 := MaxSize1 c; CtxMaxSize2 := MaxSize2 c;
                   CtxTotalMaxSize := TotalMaxSize c; CtxTotal := total c;
                   CtxDontInsertIfOverflow := DontInsertIfOverflow c;
                   CtxCache := Cache c; Parent := parent; Entity := e |})
  | None => false
  end.

(** What the runtime chooses in the [range] loops of one [resize]:
    the order in which the loop over all groups reaches them, the group a
    loop over the groups produces first, and for each group the entry a loop
    over its entries produces first. *)
Record Ranges := mkRanges {
  groups_order : list ULID;
  first_group : RangeOracle;
  first_entry : ULID → RangeOracle
}.

(** [for k1, v1 := range c.Cache { for k2 := range v1 { c.del(k1, k2); break } }]:
    the [break] leaves the inner loop only, so every group that is reached
    loses one entry. *)
Definition evict_in_each_group (rt : Ranges) (c : t) : t :=
  foldl (λ c' k1,
           match Cache c' !! k1 with
           | Some v1 =>
               match range_first (first_entry rt k1) v1 with
               | Some k2 => del c' k1 k2
               | None => c'
               end
           | None => c'
           end) c (groups_order rt).

(** [c.total -= len(c.Cache[k]); delete(c.Cache, k)] *)
Definition drop_group (c : t) (k : ULID) : t :=
  with_Cache (delete k) (with_total (λ n, n - len (default ∅ (Cache c !! k)))%Z c).

Definition resize (rt : Ranges) (c : t) (parent : ULID) (e : T) : bool * t :=
  if (MaxSize1 c =? 0)%Z && (MaxSize2 c =? 0)%Z && (TotalMaxSize c =? 0)%Z then (false, c)
  else if (TotalMaxSize c <? 0)%Z || (0 <? MaxSize1 c)%Z then
    if vetoed c parent e then (false, c)
    else
      let at_total :=
        (MaxSize1 c =? 0)%Z && (MaxSize2 c =? 0)%Z && (total c =? TotalMaxSize c)%Z in
      if at_total && DontInsertIfOverflow c then (false, c)
      else
        let c1 := if at_total then evict_in_each_group rt c else c in
        let o := Cache c1 !! parent in
        let k := bool_decide (is_Some o) in
        let in_group :=
          if k && negb (MaxSize2 c1 =? 0)%Z && (MaxSize2 c1 <=? len (default ∅ o))%Z
          then range_first (first_entry rt parent) (default ∅ o) else None in
        match in_group with
        | Some k2 => (true, del c1 parent k2)
        | None =>
            let a_group :=
              if negb (MaxSize1 c1 =? 0)%Z && (MaxSize1 c1 <=? len (Cache c1))%Z && negb k
              then range_first (first_group rt) (Cache c1) else None in
            match a_group with
            | Some k1 => (true, drop_group c1 k1)
            | None => (true, c1)
            end
        end
  else (true, c).

Definition Get (c : t) (parent id : ULID) : option T :=
  match Cache c !! parent with
  | Some m => m !! id
  | None => None
  end.

Definition Del (c : t) (parent id : ULID) : t := del c parent id.

Definition DelGroup (c : t) (parent : ULID) : t :=
  match Cache c !! parent with
  | Some m => with_Cache (delete parent) (with_total (λ n, n - len m)%Z c)
  | None => c
  end.

Definition GroupsCount (c : t) : Z := len (Cache c).

Definition Size (c : t) : Z := total c.

Definition PartiallyUpdate {W : Type} (c : t) (parent id : ULID)
    (updater : T → W → T * W) (w : W) : t * W :=
  match Cache c !! parent with
  | None => (c, w)
  | Some x =>
      match x !! id with
      | Some y =>
          let '(y', w') := updater y w in
          (with_Cache (<[parent := <[id := y']> x]>) c, w')
      | None => (c, w)
      end
  end.

Definition Set_ (rt : Ranges) (c : t) (parent : ULID) (v : T) : t :=
  let '(ok, c') := resize rt c parent v in
  if ok then ins c' parent v else c'.

Definition init (checker : option (CheckContext → bool))
    (maxSize1 maxSize2 totalMaxSize : Z) (dont : bool) : t :=
  {| Checker := checker; MaxSize1 := maxSize1; MaxSize2 := maxSize2;
     TotalMaxSize := totalMaxSize; total := 0; DontInsertIfOverflow := dont;
     Cache := ∅ |}.

(** The calls a client of the cache can make. *)
Inductive op :=
| OpSet (rt : Ranges) (parent : ULID) (v : T)
| OpDel (parent id : ULID)
| OpDelGroup (parent : ULID)
| OpPartiallyUpdate (parent id : ULID) (updater : T → T).

Definition apply_op (c : t) (o : op) : t :=
  match o with
  | OpSet rt parent v => Set_ rt c parent v
  | OpDel parent id => Del c parent id
  | OpDelGroup parent => DelGroup c parent
  | OpPartiallyUpdate parent id updater =>
      (PartiallyUpdate c parent id (λ y (_ : unit), (updater y, tt)) tt).1
  end.

Definition run_ops (c : t) (ops : list op) : t := foldl apply_op c ops.

(** The entries one can reach through the groups. *)
Definition entries (m : gmap ULID (gmap ULID T)) : Z :=
  map_fold (λ _ g n, len g + n)%Z 0%Z m.

(** The maintained count agrees with the entries present. *)
Definition counted (c : t) : Prop := total c = entries (Cache c).
End Defs.
Arguments t T : clear implicits.
Arguments op T : clear implicits.
Arguments CheckContext T : clear implicits.

(** One admissible runtime. *)
Definition listed (order : list ULID) : Ranges :=
  {| groups_order := order; first_group := first_listed;
     first_entry := λ _, last_listed |}.
End Cache2.

(** ** events.go: the dispatch bus *)

(** Go's [int] is 64 bits wide on the platforms the client runs on. *)
Definition int_wrap (z : Z) : Z := ((z + 2 ^ 63) mod 2 ^ 64 - 2 ^ 63)%Z.

Section EventController.
(** [F] stands for the closures handed to [Listen]: a value of [F] is one
    such closure, and running it is left to the [call] of section [Emit]. *)
Context {F : Type}.

Record EventController := mkEventController {
  ls : gmap Z F;
  id : Z
}.

Definition inc (ec : EventController) : Z * EventController :=
  let i := int_wrap (id ec + 1) in (i, {| ls := ls ec; id := i |}).

(** A handle is used on the controller it was obtained from, so its
    [Controller] pointer is the controller passed along with it. *)
Record Subscription := mkSubscription { ID : Z }.

Definition Delete (s : Subscription) (ec : EventController) : EventController :=
  {| ls := delete (ID s) (ls ec); id := id ec |}.

Definition Listen (f : F) (ec : EventController) : Subscription * EventController :=
  let '(i, ec') := inc ec in
  ({| ID := i |}, {| ls := <[i := f]> (ls ec'); id := id ec' |}).

Definition Override (f : F) (ec : EventController) : Subscription * EventController :=
  Listen f {| ls := ∅; id := id ec |}.

Definition NewEventController : EventController := {| ls := ∅; id := 0 |}.
End EventController.
Arguments EventController F : clear implicits.

Section Emit.
(** [T] is the published value, [W] the program state a callback runs in;
    [controller] finds the controller in that state, so that a callback
    which removes or adds subscriptions is seen by the running loop. *)
Context {T F W : Type}.
Variable call : F → T → W → W.
Variable controller : W → EventController F.

(** [for _, g := range ec.ls { g(t) }] over the live map.  [order] is the
    sequence in which the runtime's iterator reaches keys.  An entry removed
    before it is reached is not produced; an entry added during the loop is
    produced if [order] lists it.  Besides the final state, the loop reports
    each call it made: the key and the state the callback was entered in. *)
Fixpoint Emit_from (order : list Z) (t : T) (w : W) : list (Z * W) * W :=
  match order with
  | [] => ([], w)
  | k :: rest =>
      match ls (controller w) !! k with
      | Some g =>
          let r := Emit_from rest t (call g t w) in ((k, w) :: r.1, r.2)
      | None => Emit_from rest t w
      end
  end.

Definition Emit (order : list Z) (t : T) (w : W) : W := (Emit_from order t w).2.

Definition Emit_calls (order : list Z) (t : T) (w : W) : list (Z * W) :=
  (Emit_from order t w).1.

(** An iterator visits no key twice and misses no key present at the start. *)
Definition iteration_order (order : list Z) (w : W) : Prop :=
  NoDup order ∧ ∀ k, is_Some (ls (controller w) !! k) → k ∈ order.

(** A callback leaves the registrations alone or removes its own. *)
Definition removes_at_most_itself (registered : gmap Z F) (t : T) : Prop :=
  ∀ k g w, registered !! k = Some g →
    ls (controller (call g t w)) = ls (controller w) ∨
    ls (controller (call g t w)) = delete k (ls (controller w)).

(** [go ec.Emit(t)]: the spawned goroutine, if any, as a state transformer
    to be run whenever the scheduler gets to it. *)
Definition EmitInGoroutines (order : list Z) (t : T) (w : W) : option (W → W) :=
  if (len (ls (controller w)) =? 0)%Z then None
  else Some (Emit order t).

(** The state right after the call returns, and the goroutine it spawned. *)
Definition EmitAndCall (order : list Z) (t : T) (f : T → W → W) (w : W)
    : W * option (W → W) :=
  if (len (ls (controller w)) =? 0)%Z then (f t w, None)
  else (w, Some (λ w', f t (Emit order t w'))).
End Emit.

(** ** socket.go: the "MessageUpdate" handler *)

Module PartialMessage.
Record t {Embed : Type} := mk {
  Content : option string;
  Embeds : option (list Embed)
}.
Arguments t Embed : clear implicits.
End PartialMessage.

Module MessageUpdate.
Record t {Embed : Type} := mk {
  MessageID : ULID;
  Channel : ULID;
  Data : option (PartialMessage.t Embed)
}.
Arguments t Embed : clear implicits.
End MessageUpdate.

(** The struct is declared outside the files at hand; these are the fields
    the handlers use. *)
Module OptimizedMessage.
Record t {OptimizedEmbed : Type} := mk {
  ID : ULID;
  Content : string;
  Embeds : list OptimizedEmbed
}.
Arguments t OptimizedEmbed : clear implicits.
End OptimizedMessage.

#[global] Instance OptimizedMessage_Cacheable {OE : Type} : Cacheable (OptimizedMessage.t OE) :=
  OptimizedMessage.ID.

Section MessageUpdateHandler.
Context {Embed OptimizedEmbed : Type}.
(** [Embed.ToOptimized], declared outside the files at hand. *)
Variable Embed_ToOptimized : Embed → OptimizedEmbed.
(** The closures subscribed to "MessageUpdate" and the state they captured. *)
Context {F U : Type}.

(** The reach of a "MessageUpdate" frame inside [Socket]: the controller of
    the event, the message cache, what the subscribed closures own, and
    whether some goroutine has panicked. *)
Record Client := mkClient {
  Events_MessageUpdate : EventController F;
  Cache_Messages : Cache2.t (OptimizedMessage.t OptimizedEmbed);
  captured : U;
  panicked : bool
}.

(** The function literal handed to [PartiallyUpdate]; [None] is the nil
    dereference of [r.Data]. *)
Definition MessageUpdate_patch (r : MessageUpdate.t Embed)
    (m : OptimizedMessage.t OptimizedEmbed) : option (OptimizedMessage.t OptimizedEmbed) :=
  match MessageUpdate.Data r with
  | None => None
  | Some d =>
      let m1 :=
        match PartialMessage.Content d with
        | Some content =>
            {| OptimizedMessage.ID := OptimizedMessage.ID m;
               OptimizedMessage.Content := content;
               OptimizedMessage.Embeds := OptimizedMessage.Embeds m |}
        | None => m
        end in
      Some match PartialMessage.Embeds d with
           | Some embeds =>
               {| OptimizedMessage.ID := OptimizedMessage.ID m1;
                  OptimizedMessage.Content := OptimizedMessage.Content m1;
                  OptimizedMessage.Embeds := map Embed_ToOptimized embeds |}
           | None => m1
           end
  end.

(** The follow-up of the "MessageUpdate" case:
    [socket.Cache.Messages.PartiallyUpdate(r.Channel, r.MessageID, ...)]. *)
Definition MessageUpdate_followUp (r : MessageUpdate.t Embed) (s : Client) : Client :=
  let '(cache, crashed) :=
    Cache2.PartiallyUpdate (Cache_Messages s)
      (MessageUpdate.Channel r) (MessageUpdate.MessageID r)
      (λ m crashed,
         match MessageUpdate_patch r m with
         | Some m' => (m', crashed)
         | None => (m, true)
         end)
      (panicked s) in
  {| Events_MessageUpdate := Events_MessageUpdate s; Cache_Messages := cache;
     captured := captured s; panicked := crashed |}.

(** The "MessageUpdate" case once the frame has been decoded into [t]:
    [socket.Events.MessageUpdate.EmitAndCall(t, followUp)]. *)
Definition on_MessageUpdate (call : F → MessageUpdate.t Embed → Client → Client)
    (order : list Z) (t : MessageUpdate.t Embed) (s : Client)
    : Client * option (Client → Client) :=
  EmitAndCall call Events_MessageUpdate order t MessageUpdate_followUp s.

(** Subscribers that read the message cache and do not write it. *)
Definition readers_only (call : F → MessageUpdate.t Embed → Client → Client) : Prop :=
  ∀ g t w, Cache_Messages (call g t w) = Cache_Messages w.

(** The frame once every goroutine it spawned has run to its end. *)
Definition settle (r : Client * option (Client → Client)) : Client :=
  match r.2 with
  | Some goroutine => goroutine r.1
  | None => r.1
  end.
End MessageUpdateHandler.
Arguments Client OptimizedEmbed F U : clear implicits.

(** ** Sample subscribers

    Closures a user of the library could register on "MessageUpdate", with a
    list of notes as the state they share. *)
Inductive Closure :=
| Note (tag : string)
    (** [func(r *MessageUpdate) { notes = append(notes, tag) }] *)
| Unlisten (k : Z) (tag : string)
    (** as [Note], after [sub.Delete()] on the subscription numbered [k] *)
| Peek (channel message : ULID).
    (** notes the content [socket.Cache.Messages.Get(channel, message)] has *)

Definition Closure_call {Embed OE : Type} (g : Closure) (_ : MessageUpdate.t Embed)
    (s : Client OE Closure (list string)) : Client OE Closure (list string) :=
  match g with
  | Note tag =>
      {| Events_MessageUpdate := Events_MessageUpdate s;
         Cache_Messages := Cache_Messages s;
         captured := captured s ++ [tag]; panicked := panicked s |}
  | Unlisten k tag =>
      {| Events_MessageUpdate := Delete {| ID := k |} (Events_MessageUpdate s);
         Cache_Messages := Cache_Messages s;
         captured := captured s ++ [tag]; panicked := panicked s |}
  | Peek channel message =>
      {| Events_MessageUpdate := Events_MessageUpdate s;
         Cache_Messages := Cache_Messages s;
         captured :=
           captured s ++
             [match Cache2.Get (Cache_Messages s) channel message with
              | Some m => OptimizedMessage.Content m
              | None => "<nil>"
              end];
         panicked := panicked s |}
  end.

(** Three subscribers, the second of which unsubscribes itself. *)
Definition three_listeners : Client unit Closure (list string) :=
  let ec0 := NewEventController in
  let ec1 := (Listen (Note "A") ec0).2 in
  let ec2 := (Listen (Unlisten 2 "B") ec1).2 in
  let ec3 := (Listen (Note "C") ec2).2 in
  {| Events_MessageUpdate := ec3;
     Cache_Messages := Cache2.init None 0 0 0 false;
     captured := []; panicked := false |}.

(** A message "hi" cached under channel "c1", and one subscriber that looks
    the message up in the cache when the update is published. *)
Definition message_m1 : OptimizedMessage.t unit :=
  {| OptimizedMessage.ID := "m1"; OptimizedMessage.Content := "hi";
     OptimizedMessage.Embeds := [] |}.

Definition one_reader : Client unit Closure (list string) :=
  {| Events_MessageUpdate := (Listen (Peek "c1" "m1") NewEventController).2;
     Cache_Messages :=
       Cache2.Set_ (Cache2.listed [])
         (Cache2.init None 16 0 0 false) "c1" message_m1;
     captured := []; panicked := false |}.

(** [MessageUpdate{id: "m1", channel: "c1", data: {content: "bye"}}] *)
Definition update_m1 : MessageUpdate.t unit :=
  {| MessageUpdate.MessageID := "m1"; MessageUpdate.Channel := "c1";
     MessageUpdate.Data :=
       Some {| PartialMessage.Content := Some "bye"; PartialMessage.Embeds := None |} |}.

(** ** socket.go: the "ChannelUpdate" and "UserUpdate" handlers *)


(** The handlers use types, conversions and constants declared outside the
    files at hand.  They are left open here: the types are arbitrary, the
    conversions arbitrary functions, the flag constants arbitrary values of
    the flags' integer type, unsigned and [flag_width] bits wide. *)
Class External := {
  File : Type;
  OptimizedFile : Type;
  File_ToOptimized : File → option OptimizedFile;
  PermissionOverride : Type;
  RolePermissions : Type;
  Relation : Type;
  RelationshipStatus : Type;
  OptimizedRelationship : Type;
  RelationshipStatus_ToOptimized : RelationshipStatus → OptimizedRelationship;
  OptimizedPresence : Type;
  Presence_ToOptimized : string → OptimizedPresence;
  OptimizedPresence_zero : OptimizedPresence;
  OptimizedPresenceInvisible : OptimizedPresence;
  flag_width : Z;
  OptimizedChannelFlagActive : Z;
  OptimizedChannelFlagNSFW : Z;
  OptimizedUserFlagsOnline : Z;
  (** where [updateBadges] and [updateFlags] keep their field, see below *)
  badges_shift : Z;
  badges_mask : Z;
  flags_shift : Z;
  flags_mask : Z
}.











Module PartialChannel.
Record t `{External} := mk {
  Name : string;
  Description : option string;
  Active : option bool;
  NSFW : option bool;
  DefaultPermissions : option PermissionOverride;
  RolePermissions_ : option RolePermissions;
  Owner : ULID
}.
End PartialChannel.

Module ChannelUpdate.
Record t `{External} := mk {
  ChannelID : ULID;
  Data : option PartialChannel.t;
  Clear : list string
}.
End ChannelUpdate.

(** The struct is declared outside the files at hand; these are the fields
    the handler uses. *)
Module OptimizedChannel.
Record t `{External} := mk {
  ID : ULID;
  Name : string;
  Description : string;
  Flags : Z;
  DefaultPermissions : option PermissionOverride;
  RolePermissions_ : RolePermissions;
  Owner : ULID;
  Icon : option OptimizedFile
}.
End OptimizedChannel.

#[global] Instance OptimizedChannel_Cacheable `{External} : Cacheable OptimizedChannel.t :=
  OptimizedChannel.ID.


Module UserStatus.
Record t := mk { Presence : string; Text : string }.
End UserStatus.

Module UserProfile.
Record t `{External} := mk { Background : option File }.
End UserProfile.

Module PartialUser.
Record t `{External} := mk {
  Badges : option Z;
  Flags : option Z;
  Online : option bool;
  Username : option string;
  Status : option UserStatus.t;
  Profile : option UserProfile.t;
  Relations : option (list Relation);
  Relationship : option RelationshipStatus
}.
End PartialUser.

Module UserUpdate.
Record t `{External} := mk {
  UserID : ULID;
  Data : option PartialUser.t;
  Clear : list string;
  EventID : ULID
}.
End UserUpdate.

Module OptimizedUserStatus.
Record t `{External} := mk { Presence : OptimizedPresence; Text : string }.
End OptimizedUserStatus.

Module OptimizedUserProfile.
Record t `{External} := mk { Content : string; Background : option OptimizedFile }.
End OptimizedUserProfile.

(** The struct is declared outside the files at hand; these are the fields
    the handler uses. *)
Module OptimizedUser.
Record t `{External} := mk {
  ID : ULID;
  Flags : Z;
  Username : string;
  DisplayName : string;
  Status : option OptimizedUserStatus.t;
  Profile : option OptimizedUserProfile.t;
  Relations : list Relation;
  Relationship : OptimizedRelationship;
  Avatar : option OptimizedFile
}.
End OptimizedUser.

#[global] Instance OptimizedUser_Cacheable `{External} : Cacheable OptimizedUser.t :=
  OptimizedUser.ID.






(** ** socket.go: the frame processor and the read loop *)

Abbreviation bytes := (list Byte.byte).

(** What [encoding/json] stores in an [any]. *)
#[warnings="-register-all"]
Inductive any {float64 : Type} :=
| AnyNil
| AnyBool (b : bool)
| AnyFloat64 (x : float64)
| AnyString (s : string)
| AnySlice (l : list any)
| AnyMap (m : list (string * any)).
Arguments any float64 : clear implicits.

Section Wire.
Context {float64 error : Type}.

(** A value handed to an event controller. *)
Inductive Payload :=
| PRaw (a : gmap string (any float64))
| PError (err : error)
| PRevoltError (errorID : string)
| PDecoded (typ : string) (s : bytes).
    (** the struct of case [typ], decoded from [s] *)

(** What the client does that can be seen from outside: the calls on the
    event controllers, named by their field in [Events], and the calls that
    concern the connection. *)
Inductive Effect :=
| Emitted (channel : string) (p : Payload)
| EmittedInGoroutines (channel : string) (p : Payload)
| EmittedAndCalled (channel : string) (p : Payload)
| PongReceived
| WarnedUnknown (typ : string)
| Reopened (closed_by_user : bool).
    (** [socket.Open()] on a reconnect path, and whether the user had
        called [Close] before *)

Inductive Outcome := Returned | Panicked | OutOfFuel.

(** [socket.logError(...); socket.Events.Error.EmitInGoroutines(err)] *)
Definition emitError (err : error) : Effect := EmittedInGoroutines "Error" (PError err).

(** The cases of [process] that decode the frame into their struct and
    publish it, with [true] where publishing goes through [EmitAndCall] and
    [false] where it goes through [EmitInGoroutines]. *)
Definition decoded_cases : list (string * bool) :=
  [ ("Ready", true); ("Message", true); ("MessageUpdate", true);
    ("MessageAppend", true); ("MessageDelete", true); ("MessageReact", false);
    ("MessageUnreact", false); ("MessageRemoveReaction", false);
    ("BulkDeleteMessage", true); ("ChannelCreate", true); ("ChannelUpdate", true);
    ("ChannelDelete", true); ("ChannelGroupJoin", false); ("ChannelGroupLeave", false);
    ("ChannelStartTyping", false); ("ChannelStopTyping", false); ("ChannelAck", false);
    ("ServerCreate", true); ("ServerUpdate", true); ("ServerDelete", true);
    ("ServerMemberUpdate", false); ("ServerMemberJoin", true);
    ("ServerMemberLeave", false); ("ServerRoleUpdate", true);
    ("ServerRoleDelete", true); ("UserUpdate", true); ("UserRelationship", true);
    ("UserSettingsUpdate", false); ("UserPlatformWipe", false);
    ("EmojiCreate", true); ("EmojiDelete", true); ("WebhookCreate", true);
    ("WebhookUpdate", true); ("WebhookDelete", true); ("ReportCreate", false);
    ("Auth", false) ].

Definition decoded_case (typ : string) : option bool :=
  (list_to_map decoded_cases : gmap string bool) !! typ.

(** The decoders belong to [encoding/json] and to the configured
    [Arshaler]; they are left open. *)
Variable json_Unmarshal_map : bytes → error + gmap string (any float64).
    (** [json.Unmarshal(s, &a)] with [a] a [map[string]any] *)
Variable unmarshal : string → bytes → option error.
    (** [socket.unmarshal(s, &t)] with [t] the struct of the named case;
        [None] is a nil error *)
Variable unmarshal_Bulk : bytes → error + list bytes.
    (** the same for the struct of "Bulk", giving its field [V] *)

(** What [process] meets once a struct has been decoded is left open as
    well, as far as its own course depends on it. *)
Variable ServerRoleUpdate_Data_nil : bytes → bool.
    (** the decoded "ServerRoleUpdate" has a nil [Data], which the case
        dereferences before it publishes the struct *)
Variable follow_up_panics : string → bytes → bool.
    (** nobody is subscribed to the event of the named case, so that
        [EmitAndCall] runs the follow-up at once, inside [process], and the
        follow-up panics (on a nil [Data], on a nil cache) *)

(** [for _, u := range t.V { socket.process(u) }]: a panic ends the loop. *)
Fixpoint process_each (process : bytes → list Effect * Outcome) (frames : list bytes)
    : list Effect * Outcome :=
  match frames with
  | [] => ([], Returned)
  | u :: rest =>
      let '(effects, outcome) := process u in
      match outcome with
      | Returned =>
          let '(effects', outcome') := process_each process rest in
          (effects ++ effects', outcome')
      | _ => (effects, outcome)
      end
  end.

(** The cases of [switch typ] other than "Bulk". *)
Definition process_case (typ : string) (a : gmap string (any float64)) (s : bytes)
    : list Effect * Outcome :=
  if decide (typ = "Error") then
    match a !! "error" with
    | Some (AnyString errorID) => ([Emitted "RevoltError" (PRevoltError errorID)], Returned)
    | _ => ([], Panicked)
    end
  else if decide (typ = "NotFound") then
    ([Emitted "RevoltError" (PRevoltError "InvalidSession")], Returned)
  else if decide (typ = "Authenticated") then
    ([EmittedInGoroutines "Authenticated" (PDecoded typ [])], Returned)
  else if decide (typ = "Pong") then
    match unmarshal typ s with
    | Some err => ([emitError err], Returned)
    | None => ([PongReceived], Returned)
    end
  else
    match decoded_case typ with
    | Some follow_up =>
        match unmarshal typ s with
        | Some err => ([emitError err], Returned)
        | None =>
            if follow_up then
              if bool_decide (typ = "ServerRoleUpdate") && ServerRoleUpdate_Data_nil s
              then ([], Panicked)
              else ([EmittedAndCalled typ (PDecoded typ s)],
                    if follow_up_panics typ s then Panicked else Returned)
            else ([EmittedInGoroutines typ (PDecoded typ s)], Returned)
        end
    | None => ([WarnedUnknown typ], Returned)
    end.

(** [process]; the fuel bounds the nesting of "Bulk" frames. *)
Fixpoint process (fuel : nat) (s : bytes) : list Effect * Outcome :=
  match fuel with
  | O => ([], OutOfFuel)
  | S fuel' =>
      match json_Unmarshal_map s with
      | inl _ => ([], Returned)
      | inr a =>
          let raw := EmittedInGoroutines "Raw" (PRaw a) in
          match a !! "type" with
          | Some (AnyString typ) =>
              let '(effects, outcome) :=
                if decide (typ = "Bulk") then
                  match unmarshal_Bulk s with
                  | inl err => ([emitError err], Returned)
                  | inr frames => process_each (process fuel') frames
                  end
                else process_case typ a s in
              (raw :: effects, outcome)
          | _ => ([raw], Panicked)
          end
      end
  end.

(** The fields of [Socket] the read loop and the closing paths act on, the
    effects so far, whether the user has called [Close], and whether a
    panic has ended the program. *)
Record Socket := mkSocket {
  closed : bool;
  closed_by_user : bool;
  journal : list Effect;
  died : bool
}.

Definition record (e : list Effect) (s : Socket) : Socket :=
  {| closed := closed s; closed_by_user := closed_by_user s;
     journal := journal s ++ e; died := died s |}.

(** [socket.close()]: [socket.closed = true], then the heartbeat is told to
    stop. *)
Definition close (s : Socket) : Socket :=
  {| closed := true; closed_by_user := closed_by_user s;
     journal := journal s; died := died s |}.

(** [Close()], called by the user: [CloseWithCode] runs [close] and writes
    the close frame. *)
Definition Close (s : Socket) : Socket :=
  {| closed := true; closed_by_user := true; journal := journal s; died := died s |}.

(** [socket.Open()] on a reconnect path. *)
Definition reopen (s : Socket) : Socket :=
  record [Reopened (closed_by_user s)] s.

(** The handler [Connect] installs with [SetCloseHandler]. *)
Definition close_handler (s : Socket) : Socket :=
  if closed s then s
  else reopen (close s).

(** What can happen while the read loop is blocked in [ReadMessage]: the
    user closes the client from another goroutine, or a close frame arrives
    and the transport runs the close handler. *)
Inductive Meanwhile :=
| UserCloses
| CloseFrameArrives.

Definition meanwhile (s : Socket) (m : Meanwhile) : Socket :=
  match m with
  | UserCloses => Close s
  | CloseFrameArrives => close_handler s
  end.

(** What [ReadMessage] returns. *)
Inductive Read :=
| ReadFailed (err : error) (open_err : option error)
    (** an error, and what the [Open] that follows will return *)
| ReadMessage (messageType : Z) (p : bytes).

(** [websocket.TextMessage] *)
Definition TextMessage : Z := 1.

(** [listener].  Each turn of the loop blocks in [ReadMessage]; the script
    says, turn by turn, what happens meanwhile and what the read returns.
    When the script ends the loop stays blocked. *)
Fixpoint listener (fuel : nat) (script : list (list Meanwhile * Read)) (s : Socket)
    : Socket :=
  if closed s then s
  else
    match script with
    | [] => s
    | (during, read) :: rest =>
        let s1 := foldl meanwhile s during in
        match read with
        | ReadFailed err open_err =>
            let s2 := record [Emitted "Error" (PError err)] s1 in
            let s3 := reopen s2 in
            match open_err with
            | Some err' => record [Emitted "Error" (PError err')] s3
            | None => s3
            end
        | ReadMessage m p =>
            if negb (m =? TextMessage)%Z then listener fuel rest s1
            else
              let '(effects, outcome) := process fuel p in
              let s2 := record effects s1 in
              match outcome with
              | Returned => listener fuel rest s2
              | _ =>
                  {| closed := closed s2; closed_by_user := closed_by_user s2;
                     journal := journal s2; died := true |}
              end
        end
    end.
End Wire.
Arguments Payload float64 error : clear implicits.
Arguments Effect float64 error : clear implicits.
Arguments Socket float64 error : clear implicits.
Arguments Read error : clear implicits.

(** ** Sample frames

    A decoder that knows three frames and answers on them as
    [encoding/json] does; every other frame is malformed to it. *)
Definition frame (s : string) : bytes := String.list_byte_of_string s.

(** A JSON string literal. *)
Definition quoted (s : string) : string :=
  String (Ascii.ascii_of_nat 34) (s +:+ String (Ascii.ascii_of_nat 34) EmptyString).

Definition frame_empty_object : bytes := frame "{}".
Definition frame_type_number : bytes := frame ("{" +:+ quoted "type" +:+ ":7}").
Definition frame_pong : bytes :=
  frame ("{" +:+ quoted "type" +:+ ":" +:+ quoted "Pong" +:+ "," +:+ quoted "data" +:+ ":0}").
Definition frame_garbage : bytes := frame "not json".

Definition sample_json (s : bytes) : string + gmap string (any Z) :=
  let text := String.string_of_list_byte s in
  if decide (text = String.string_of_list_byte frame_empty_object) then inr ∅
  else if decide (text = String.string_of_list_byte frame_type_number) then
    inr {["type" := AnyFloat64 7%Z]}
  else if decide (text = String.string_of_list_byte frame_pong) then
    inr (<["type" := AnyString "Pong"]> {["data" := AnyFloat64 0%Z]})
  else inl "invalid character".

(** The struct decoders of the sample: they accept what they are given. *)
Definition sample_unmarshal (typ : string) (s : bytes) : option string := None.
Definition sample_unmarshal_Bulk (s : bytes) : string + list bytes := inr [].

(** The structs of the sample carry their data, and no follow-up panics. *)
Definition sample_Data_nil (s : bytes) : bool := false.
Definition sample_follow_up_panics (typ : string) (s : bytes) : bool := false.

(** ** Sample cache contents *)
Definition message (id content : string) : OptimizedMessage.t unit :=
  {| OptimizedMessage.ID := id; OptimizedMessage.Content := content;
     OptimizedMessage.Embeds := [] |}.

(** A cache whose only limit is a total of one entry, and one that limits
    the number of groups as well. *)
Definition total_of_one : Cache2.t (OptimizedMessage.t unit) :=
  Cache2.init None 0 0 1 false.
Definition total_of_one_in_five_groups : Cache2.t (OptimizedMessage.t unit) :=
  Cache2.init None 5 0 1 false.

(** [c.Set("c1", m1); c.Set("c1", m2)] *)
Definition set_two (c : Cache2.t (OptimizedMessage.t unit)) : Cache2.t (OptimizedMessage.t unit) :=
  Cache2.Set_ (Cache2.listed ["c1"])
    (Cache2.Set_ (Cache2.listed []) c "c1" (message "m1" "hi"))
    "c1" (message "m2" "there").

(** A fresh socket, and a read loop that is handed the user's [Close] while
    it waits, then the error of the closed connection. *)
Definition fresh_socket : Socket Z string :=
  {| closed := false; closed_by_user := false; journal := []; died := false |}.

Definition close_while_reading : list (list Meanwhile * Read string) :=
  [ ([UserCloses], ReadFailed "use of closed network connection" None) ].

(** A read loop that receives an object without "type", then a "Pong". *)
Definition untyped_then_pong : list (list Meanwhile * Read string) :=
  [ ([], ReadMessage TextMessage frame_empty_object);
    ([], ReadMessage TextMessage frame_pong) ].

(** Three [Set] calls on a single-keyed cache, with the entry the runtime
    would evict in each. *)
Definition three_sets : list (RangeOracle * OptimizedMessage.t unit) :=
  [ (first_listed, message "m1" "one"); (last_listed, message "m2" "two");
    (first_listed, message "m3" "three") ].

(** An updater that counts its invocations. *)
Definition counting_updater (m : OptimizedMessage.t unit) (calls : nat)
    : OptimizedMessage.t unit * nat :=
  (message (OptimizedMessage.ID m) "touched", S calls).










(** ** cache.go: what a client of the caches can do and observe *)

Section CacheClients.
Context {T : Type} `{Cacheable T}.

(** When [Cache1.Set] leaves the cache as it is: the cache is unconfigured,
    or it is bounded and the checker vetoes or the cache is full under
    [DontInsertIfOverflow]. *)
Definition Cache1_refuses (c : Cache1.t T) (v : T) : bool :=
  (Cache1.MaxSize c =? 0)%Z
  || (0 <? Cache1.MaxSize c)%Z
     && (Cache1.vetoed c v
         || (Cache1.MaxSize c <=? Cache1.Size c)%Z && Cache1.DontInsertIfOverflow c).

(** The calls a client of the single-keyed cache can make. *)
Inductive Cache1_op :=
| Op1Set (o : RangeOracle) (v : T)
| Op1Del (id : ULID)
| Op1PartiallyUpdate (id : ULID) (updater : T → T).

Definition Cache1_apply_op (c : Cache1.t T) (o : Cache1_op) : Cache1.t T :=
  match o with
  | Op1Set o v => Cache1.Set_ o c v
  | Op1Del id => Cache1.Del c id
  | Op1PartiallyUpdate id updater =>
      (Cache1.PartiallyUpdate c id (λ x (_ : unit), (updater x, tt)) tt).1
  end.

Definition Cache1_run_ops (c : Cache1.t T) (ops : list Cache1_op) : Cache1.t T :=
  foldl Cache1_apply_op c ops.

(** The updaters of a run leave the key of the entity alone. *)
Definition Cache1_op_keeps_key (o : Cache1_op) : Prop :=
  match o with
  | Op1PartiallyUpdate _ updater => ∀ x, GetKey (updater x) = GetKey x
  | _ => True
  end.

Definition Cache2_op_keeps_key (o : Cache2.op T) : Prop :=
  match o with
  | Cache2.OpPartiallyUpdate _ _ updater => ∀ x, GetKey (updater x) = GetKey x
  | _ => True
  end.

(** Every entity sits under its own key. *)
Definition Cache1_keyed (c : Cache1.t T) : Prop :=
  ∀ k v, Cache1.Get c k = Some v → GetKey v = k.

Definition Cache2_keyed (c : Cache2.t T) : Prop :=
  ∀ parent k v, Cache2.Get c parent k = Some v → GetKey v = k.

(** When [Cache2.Set] leaves the cache as it is: no limit is configured, or
    [resize] reaches its second case and there the checker vetoes or the
    count sits at the total cap under [DontInsertIfOverflow]. *)
Definition Cache2_refuses (c : Cache2.t T) (parent : ULID) (v : T) : bool :=
  (Cache2.MaxSize1 c =? 0)%Z && (Cache2.MaxSize2 c =? 0)%Z && (Cache2.TotalMaxSize c =? 0)%Z
  || ((Cache2.TotalMaxSize c <? 0)%Z || (0 <? Cache2.MaxSize1 c)%Z)
     && (Cache2.vetoed c parent v
         || (Cache2.MaxSize1 c =? 0)%Z && (Cache2.MaxSize2 c =? 0)%Z
            && (Cache2.total c =? Cache2.TotalMaxSize c)%Z
            && Cache2.DontInsertIfOverflow c).

(** No group holds more than [n] entries. *)
Definition Cache2_groups_within (n : Z) (c : Cache2.t T) : Prop :=
  ∀ parent g, Cache2.Cache c !! parent = Some g → (len g ≤ n)%Z.
End CacheClients.
Arguments Cache1_op T : clear implicits.

(** The limits of a parent-scoped cache are those of another. *)
Definition Cache2_same_limits {T : Type} (c c' : Cache2.t T) : Prop :=
  Cache2.MaxSize1 c' = Cache2.MaxSize1 c ∧
  Cache2.MaxSize2 c' = Cache2.MaxSize2 c ∧
  Cache2.TotalMaxSize c' = Cache2.TotalMaxSize c.

(** What can be read from the first cache can be read from the second. *)
Definition Cache2_within {T : Type} (c' c : Cache2.t T) : Prop :=
  ∀ p k v, Cache2.Get c' p k = Some v → Cache2.Get c p k = Some v.

(** ** cache.go and socket.go: the caches of a socket *)

Section GenericCache.
(** The cached entities; their structs are declared outside the files at
    hand and play no part here. *)
Context {Channel CustomEmoji Message Member Role Server User Webhook : Type}.

(** [GenericCache] holds its caches by pointer: [None] is nil.  A cache
    whose map is nil reads as an empty one, and [init] gives it an empty
    map, so the map of a cache that is there is always a [gmap]. *)
Record GenericCache := mkGenericCache {
  Channels : option (Cache1.t Channel);
  Emojis : option (Cache1.t CustomEmoji);
  Messages : option (Cache2.t Message);
  Members : option (Cache2.t Member);
  Roles : option (Cache2.t Role);
  Servers : option (Cache1.t Server);
  Users : option (Cache1.t User);
  Webhooks : option (Cache1.t Webhook)
}.

(** [&Cache1[T]{}] and [&Cache2[T]{}] after their [init]. *)
Definition Cache1_zero {T : Type} : Cache1.t T := Cache1.init None false 0.
Definition Cache2_zero {T : Type} : Cache2.t T := Cache2.init None 0 0 0 false.

(** [(gc *GenericCache).init]: seven of the eight caches are created when
    missing and initialised; [Webhooks] is not mentioned. *)
Definition GenericCache_init (gc : GenericCache) : GenericCache :=
  {| Channels := Some (default Cache1_zero (Channels gc));
     Emojis := Some (default Cache1_zero (Emojis gc));
     Messages := Some (default Cache2_zero (Messages gc));
     Members := Some (default Cache2_zero (Members gc));
     Roles := Some (default Cache2_zero (Roles gc));
     Servers := Some (default Cache1_zero (Servers gc));
     Users := Some (default Cache1_zero (Users gc));
     Webhooks := Webhooks gc |}.

(** [NewSocket] with no [Cache] in its configuration:
    [cache = &GenericCache{}], then [socket.init()]. *)
Definition default_GenericCache : GenericCache :=
  GenericCache_init
    {| Channels := None; Emojis := None; Messages := None; Members := None;
       Roles := None; Servers := None; Users := None; Webhooks := None |}.

(** The follow-ups of the frames that delete; [None] is the dereference of
    a nil cache. *)

(** "ChannelDelete": [socket.Cache.Channels.Del(r.ChannelID)] *)
Definition ChannelDelete_followUp (ChannelID : ULID) (gc : GenericCache)
    : option GenericCache :=
  match Channels gc with
  | None => None
  | Some c =>
      Some {| Channels := Some (Cache1.Del c ChannelID); Emojis := Emojis gc;
              Messages := Messages gc; Members := Members gc; Roles := Roles gc;
              Servers := Servers gc; Users := Users gc; Webhooks := Webhooks gc |}
  end.

(** "WebhookDelete": [socket.Cache.Webhooks.Del(r.ID)] *)
Definition WebhookDelete_followUp (ID : ULID) (gc : GenericCache)
    : option GenericCache :=
  match Webhooks gc with
  | None => None
  | Some c =>
      Some {| Channels := Channels gc; Emojis := Emojis gc;
              Messages := Messages gc; Members := Members gc; Roles := Roles gc;
              Servers := Servers gc; Users := Users gc;
              Webhooks := Some (Cache1.Del c ID) |}
  end.

(** "EmojiDelete": [socket.Cache.Emojis.Del(r.EmojiID)] *)
Definition EmojiDelete_followUp (EmojiID : ULID) (gc : GenericCache)
    : option GenericCache :=
  match Emojis gc with
  | None => None
  | Some c =>
      Some {| Channels := Channels gc; Emojis := Some (Cache1.Del c EmojiID);
              Messages := Messages gc; Members := Members gc; Roles := Roles gc;
              Servers := Servers gc; Users := Users gc; Webhooks := Webhooks gc |}
  end.

(** "MessageDelete": [socket.Cache.Messages.Del(r.Channel, r.MessageID)] *)
Definition MessageDelete_followUp (Channel_ MessageID : ULID) (gc : GenericCache)
    : option GenericCache :=
  match Messages gc with
  | None => None
  | Some c =>
      Some {| Channels := Channels gc; Emojis := Emojis gc;
              Messages := Some (Cache2.Del c Channel_ MessageID);
              Members := Members gc; Roles := Roles gc;
              Servers := Servers gc; Users := Users gc; Webhooks := Webhooks gc |}
  end.

(** "BulkDeleteMessage":
    [for _, i := range r.IDs { socket.Cache.Messages.Del(r.ChannelID, i) }];
    with no id listed the cache is not touched at all. *)
Definition BulkDeleteMessage_followUp (ChannelID : ULID) (IDs : list ULID)
    (gc : GenericCache) : option GenericCache :=
  match IDs with
  | [] => Some gc
  | _ :: _ =>
      match Messages gc with
      | None => None
      | Some c =>
          Some {| Channels := Channels gc; Emojis := Emojis gc;
                  Messages := Some (foldl (λ c' i, Cache2.Del c' ChannelID i) c IDs);
                  Members := Members gc; Roles := Roles gc;
                  Servers := Servers gc; Users := Users gc; Webhooks := Webhooks gc |}
      end
  end.

(** "ServerRoleDelete": [socket.Cache.Roles.Del(r.ServerID, r.RoleID)] *)
Definition ServerRoleDelete_followUp (ServerID RoleID : ULID) (gc : GenericCache)
    : option GenericCache :=
  match Roles gc with
  | None => None
  | Some c =>
      Some {| Channels := Channels gc; Emojis := Emojis gc;
              Messages := Messages gc; Members := Members gc;
              Roles := Some (Cache2.Del c ServerID RoleID);
              Servers := Servers gc; Users := Users gc; Webhooks := Webhooks gc |}
  end.

(** "ServerDelete":
    [socket.Cache.Roles.DelGroup(r.ServerID); socket.Cache.Servers.Del(r.ServerID)] *)
Definition ServerDelete_followUp (ServerID : ULID) (gc : GenericCache)
    : option GenericCache :=
  match Roles gc with
  | None => None
  | Some roles =>
      match Servers gc with
      | None => None
      | Some servers =>
          Some {| Channels := Channels gc; Emojis := Emojis gc;
                  Messages := Messages gc; Members := Members gc;
                  Roles := Some (Cache2.DelGroup roles ServerID);
                  Servers := Some (Cache1.Del servers ServerID);
                  Users := Users gc; Webhooks := Webhooks gc |}
      end
  end.
End GenericCache.
Arguments GenericCache Channel CustomEmoji Message Member Role Server User Webhook
  : clear implicits.

(** ** events.go: what a client of a controller can do *)

Section EventController_clients.
Context {F : Type}.

Inductive EC_op :=
| EcListen (f : F)
| EcDelete (s : Subscription)
| EcOverride (f : F).

Definition EC_apply (ec : EventController F) (o : EC_op) : EventController F :=
  match o with
  | EcListen f => (Listen f ec).2
  | EcDelete s => Delete s ec
  | EcOverride f => (Override f ec).2
  end.

Definition EC_run (ec : EventController F) (ops : list EC_op) : EventController F :=
  foldl EC_apply ec ops.

(** Every registration carries a number the counter has already passed. *)
Definition issued (ec : EventController F) : Prop :=
  (0 ≤ id ec)%Z ∧ ∀ k, is_Some (ls ec !! k) → (0 < k ≤ id ec)%Z.

(** The counter of a controller that has seen no more calls than [n]. *)
Definition counted_to (n : Z) (ec : EventController F) : Prop :=
  issued ec ∧ (id ec ≤ n)%Z.

(** The callback an operation registers, if it registers one. *)
Definition EC_registers (o : EC_op) : option F :=
  match o with
  | EcListen f | EcOverride f => Some f
  | EcDelete _ => None
  end.
End EventController_clients.
Arguments EC_op F : clear implicits.

(** ** socket.go: [Open] and the subscriptions it makes *)

(** A channel, by the identity [make] gave it. *)
Abbreviation chan := Z (only parsing).

Section Open.
Context {error : Type}.
(** The closures of the user, besides the three [Open] registers. *)
Context {UserClosure : Type}.

(** A callback of one of the three controllers [Open] subscribes to; the
    closures of [Open] capture the channels of the call that made them. *)
Inductive OpenClosure :=
| SignalReady (readyEvent : chan)
    (** [func(_ *Ready) { readyEvent <- struct{}{} }] *)
| SignalRevoltError (errorEvent : chan)
    (** [func(errorID string) { errorEvent <- &SocketError{ErrorID: errorID} }] *)
| SignalError (errorEvent : chan)
    (** [func(err error) { errorEvent <- err }] *)
| ByUser (f : UserClosure).

(** The controllers [Open] subscribes to. *)
Record OpenEvents := mkOpenEvents {
  Events_Ready : EventController OpenClosure;
  Events_RevoltError : EventController OpenClosure;
  Events_Error : EventController OpenClosure
}.

(** What one call of [Open] meets: the results of [Connect] and
    [Authenticate], the two channels it makes, what the [select] receives
    first (an error or the ready signal), and what the other goroutines (the
    read loop started by [Listen], the callbacks it runs, the user) do to
    each controller between the subscription of [Open] and its deferred
    [Delete]. *)
Record OpenRun := mkOpenRun {
  connect_err : option error;
  readyEvent : chan;
  errorEvent : chan;
  authenticate_err : option error;
  raced : option error;
  meanwhile_Ready : list (EC_op OpenClosure);
  meanwhile_RevoltError : list (EC_op OpenClosure);
  meanwhile_Error : list (EC_op OpenClosure)
}.

(** [Open]: the error it returns and the controllers it leaves.  The three
    deferred [Delete] calls run on every return after they were deferred. *)
Definition Open (run : OpenRun) (e : OpenEvents) : option error * OpenEvents :=
  match connect_err run with
  | Some err => (Some err, e)
  | None =>
      let '(sub1, ready) := Listen (SignalReady (readyEvent run)) (Events_Ready e) in
      let '(sub2, revoltError) :=
        Listen (SignalRevoltError (errorEvent run)) (Events_RevoltError e) in
      let '(sub3, error_) := Listen (SignalError (errorEvent run)) (Events_Error e) in
      let leave :=
        {| Events_Ready := Delete sub1 (EC_run ready (meanwhile_Ready run));
           Events_RevoltError :=
             Delete sub2 (EC_run revoltError (meanwhile_RevoltError run));
           Events_Error := Delete sub3 (EC_run error_ (meanwhile_Error run)) |} in
      match authenticate_err run with
      | Some err => (Some err, leave)
      | None => (raced run, leave)
      end
  end.

(** The callback sends on one of the channels of this call of [Open]. *)
Definition sends_on (run : OpenRun) (g : OpenClosure) : bool :=
  match g with
  | SignalReady ch => bool_decide (ch = readyEvent run)
  | SignalRevoltError ch | SignalError ch => bool_decide (ch = errorEvent run)
  | ByUser _ => false
  end.

(** No callback of the controller sends on a channel of this call. *)
Definition silent (run : OpenRun) (ec : EventController OpenClosure) : Prop :=
  ∀ k g, ls ec !! k = Some g → sends_on run g = false.

(** The operation registers no callback over a channel of this call. *)
Definition foreign (run : OpenRun) (o : EC_op OpenClosure) : Prop :=
  ∀ g, EC_registers o = Some g → sends_on run g = false.

(** While others act on a controller, the callback [Open] registered under
    [i] stays the only one over its channels. *)
Definition only_at (run : OpenRun) (i : Z) (ec : EventController OpenClosure) : Prop :=
  ∀ k g, ls ec !! k = Some g → sends_on run g = true → k = i.
End Open.
Arguments OpenClosure UserClosure : clear implicits.
Arguments OpenEvents UserClosure : clear implicits.
Arguments OpenRun error UserClosure : clear implicits.

(** ** socket.go: the pinger, [Ping], the "Pong" case and [close]

    The life of one pinger goroutine, from the [Listen] that starts it to
    the next one.  The pinger, the read loop and the user's goroutine run
    side by side; each event below is one of them taking a turn. *)

Module Pinger.
Section Pinger.
Context {error : Type}.

(** A [time.Time], in ticks of the clock since the zero [Time]. *)
Abbreviation Time := Z (only parsing).

Record t := mk {
  lastPingReq : Time;
  lastPingRes : Time;
  closed : bool;
  pinging : bool;
    (** the pinger has not returned *)
  pings : nat;
    (** "Ping" frames written to the connection *)
  reported : list error;
    (** [socket.Events.Error.Emit(err)] of the pinger *)
  close_blocked : bool
    (** a [close] waits at [socket.closeEvent <- struct{}{}], the channel
        being unbuffered and the pinger its only receiver *)
}.

Inductive Event :=
| Tick (d : bool) (now : Time) (write : option error)
    (** the ticker fires and the pinger receives [_, d]; should the turn
        reach [Ping], [time.Now()] reads [now] and [Write] returns [write] *)
| PongFrame (now : Time)
    (** the read loop decodes a "Pong" frame; [time.Now()] reads [now] *)
| CloseCalled.
    (** [close], from [Close] or from the close handler *)

(** The pinger returns. *)
Definition returned (s : t) : t :=
  {| lastPingReq := lastPingReq s; lastPingRes := lastPingRes s; closed := closed s;
     pinging := false; pings := pings s; reported := reported s;
     close_blocked := close_blocked s |}.

(** [Ping]: [socket.lastPingReq = time.Now()], then the write. *)
Definition Ping (now : Time) (write : option error) (s : t) : option error * t :=
  (write,
   {| lastPingReq := now; lastPingRes := lastPingRes s; closed := closed s;
      pinging := pinging s;
      pings := match write with None => S (pings s) | Some _ => pings s end;
      reported := reported s; close_blocked := close_blocked s |}).

(** One turn of the loop of [pinger] that received from the ticker. *)
Definition pinger_tick (d : bool) (now : Time) (write : option error) (s : t) : t :=
  if negb d then returned s
  else if (lastPingRes s <? lastPingReq s)%Z then returned s
  else
    match Ping now write s with
    | (Some err, s') =>
        returned
          {| lastPingReq := lastPingReq s'; lastPingRes := lastPingRes s';
             closed := closed s'; pinging := pinging s'; pings := pings s';
             reported := reported s' ++ [err]; close_blocked := close_blocked s' |}
    | (None, s') => s'
    end.

(** The "Pong" case of [process]: [socket.lastPingRes = time.Now()]. *)
Definition on_Pong (now : Time) (s : t) : t :=
  {| lastPingReq := lastPingReq s; lastPingRes := now; closed := closed s;
     pinging := pinging s; pings := pings s; reported := reported s;
     close_blocked := close_blocked s |}.

(** [close]: [socket.closed = true], then the send on [closeEvent], which
    the pinger receives in its [select] and returns; with no pinger left
    the send has no receiver. *)
Definition close (s : t) : t :=
  {| lastPingReq := lastPingReq s; lastPingRes := lastPingRes s; closed := true;
     pinging := false; pings := pings s; reported := reported s;
     close_blocked := close_blocked s || negb (pinging s) |}.

Definition step (s : t) (e : Event) : t :=
  match e with
  | Tick d now write => if pinging s then pinger_tick d now write s else s
  | PongFrame now => on_Pong now s
  | CloseCalled => close s
  end.

Definition run (s : t) (events : list Event) : t := foldl step s events.

(** What [time.Now()] read in the event, and the "Pong" frames of a run. *)
Definition stamp (e : Event) : option Time :=
  match e with
  | Tick _ now _ | PongFrame now => Some now
  | CloseCalled => None
  end.

Definition is_Pong (e : Event) : bool :=
  match e with PongFrame _ => true | _ => false end.

Definition pongs (events : list Event) : nat := length (filter is_Pong events).

(** A ping may go out when the last one was answered. *)
Definition allowance (s : t) : nat :=
  if (lastPingRes s <? lastPingReq s)%Z then 0 else 1.

(** The clock moves on between two events that read it. *)
Fixpoint timed (after : Time) (events : list Event) : Prop :=
  match events with
  | [] => True
  | e :: rest =>
      match stamp e with
      | Some now => (after < now)%Z ∧ timed now rest
      | None => timed after rest
      end
  end.

(** A socket as [NewSocket] and the first [Listen] leave it. *)
Definition started : t :=
  {| lastPingReq := 0; lastPingRes := 0; closed := false; pinging := true;
     pings := 0; reported := []; close_blocked := false |}.
End Pinger.
Arguments t error : clear implicits.
Arguments Event error : clear implicits.
End Pinger.

(** ** The [commands] package and [Emoji]

    Here a Go string is the sequence of its bytes, which is what indexing,
    slicing and [len] act on. *)

Abbreviation byte := Ascii.ascii (only parsing).
Abbreviation gostring := (list Ascii.ascii) (only parsing).

(** [strings.HasPrefix], [strings.Contains] and [strings.IndexRune] for a
    rune below [utf8.RuneSelf], which is the index of the first such byte
    or -1. *)
Definition strings_HasPrefix (s prefix : gostring) : bool :=
  bool_decide (prefix `prefix_of` s).

Fixpoint strings_Contains (s substr : gostring) : bool :=
  strings_HasPrefix s substr
  || match s with
     | [] => false
     | _ :: s' => strings_Contains s' substr
     end.

Fixpoint strings_IndexRune (s : gostring) (r : byte) : Z :=
  match s with
  | [] => -1
  | b :: s' =>
      if bool_decide (b = r) then 0
      else let i := strings_IndexRune s' r in if (i =? -1)%Z then -1 else (i + 1)%Z
  end.

(** [s[i:]], [s[:j]] and [s[i]]; [None] is the panic of the runtime when
    the bounds are outside the string. *)
Definition slice_from (s : gostring) (i : Z) : option gostring :=
  if (0 <=? i)%Z && (i <=? Z.of_nat (length s))%Z then Some (drop (Z.to_nat i) s) else None.

Definition slice_to (s : gostring) (j : Z) : option gostring :=
  if (0 <=? j)%Z && (j <=? Z.of_nat (length s))%Z then Some (take (Z.to_nat j) s) else None.

Definition byte_at (s : gostring) (i : Z) : option byte :=
  if (0 <=? i)%Z then s !! Z.to_nat i else None.

Definition space : byte := Ascii.ascii_of_nat 32.
Definition backslash : byte := Ascii.ascii_of_nat 92.
Definition newline : byte := Ascii.ascii_of_nat 10.
Definition double_quote : byte := Ascii.ascii_of_nat 34.
Definition single_quote : byte := Ascii.ascii_of_nat 39.

Module Emoji.
Record t := mk { ID : gostring; Emoji : gostring }.

Definition alphabet : gostring :=
  String.list_ascii_of_string "0123456789ABCDEFGHIJKLMNOPQRSTUVWXYZ".

(** The branch shared by [Emoji.UnmarshalJSON] and [LightContext.ReactWith]:
    [strings.Contains(s[:1], "0123456789ABCDEFGHIJKLMNOPQRSTUVWXYZ")]. *)
Definition is_custom (s : gostring) : option bool :=
  match slice_to s 1 with
  | Some first => Some (strings_Contains first alphabet)
  | None => None
  end.

(** [UnmarshalJSON] once [json.Unmarshal] has answered with an error or the
    string [s]; the outer [None] is the panic. *)
Definition UnmarshalJSON {error : Type} (decoded : error + gostring) (e : t)
    : option (option error * t) :=
  match decoded with
  | inl err => Some (Some err, e)
  | inr s =>
      match is_custom s with
      | None => None
      | Some true => Some (None, {| ID := s; Emoji := Emoji e |})
      | Some false => Some (None, {| ID := ID e; Emoji := s |})
      end
  end.

(** The emoji [ReactWith] hands to [AddReactionToMessage]. *)
Definition ReactWith (s : gostring) : option t :=
  match is_custom s with
  | None => None
  | Some true => Some {| ID := s; Emoji := [] |}
  | Some false => Some {| ID := []; Emoji := s |}
  end.
End Emoji.

Module commands.

(** How a call ends: with a value, in a panic, or not within the fuel. *)
Inductive Run (A : Type) :=
| Value (a : A)
| Panics
| NoFuel.
Arguments Value {A} a.
Arguments Panics {A}.
Arguments NoFuel {A}.

Record Scanner := mkScanner {
  Position : Z;
  Target : gostring
}.

Definition Back (s : Scanner) : Scanner :=
  if (Position s =? 0)%Z then s
  else {| Position := Position s - 1; Target := Target s |}.

(** [GetByte]; [None] is the panic of an index outside the target. *)
Definition GetByte (s : Scanner) : option ((byte * bool) * Scanner) :=
  if (Z.of_nat (length (Target s)) =? Position s)%Z then Some ((Ascii.zero, false), s)
  else
    match byte_at (Target s) (Position s) with
    | Some r => Some ((r, true), {| Position := Position s + 1; Target := Target s |})
    | None => None
    end.

(** [Transaction]: [f] acts on the scanner it is given. *)
Definition Transaction (f : Scanner → bool * Scanner) (s : Scanner) : Scanner :=
  let p := Position s in
  let '(ok, s') := f s in
  if ok then s' else {| Position := p; Target := Target s' |}.

(** The position lies inside the target or at its end. *)
Definition in_range (s : Scanner) : Prop :=
  (0 ≤ Position s ≤ Z.of_nat (length (Target s)))%Z.

(** What is left to read. *)
Definition rest (s : Scanner) : gostring := drop (Z.to_nat (Position s)) (Target s).

(** The values the options at hand produce, and the integers of the other
    kinds [Context.Integer] accepts. *)
Inductive IntKind :=
| Kuint | Kuint8 | Kuint16 | Kuint32 | Kuint64 | Kint | Kint8 | Kint16 | Kint32 | Kint64.

#[warnings="-register-all"]
Inductive any :=
| OfInteger (kind : IntKind) (v : Z)
| OfString (s : gostring)
| OfSlice (a : list any)
| OfOther.

Section Parse.
(** The errors of [strconv]. *)
Context {NumError : Type}.
(** [strconv.ParseInt] and [strconv.ParseUint]: [(s, base, bitSize)] to
    [(i, err)]. *)
Variable strconv_ParseInt : gostring → Z → Z → Z * option NumError.
Variable strconv_ParseUint : gostring → Z → Z → Z * option NumError.

Inductive error :=
| OptionRequired (Name : gostring)
| DisallowedEscape (Which : string)
| OfStrconv (err : NumError).

(** The loop of [SignedIntOption.Parse] and [UnsignedIntOption.Parse]:
    [for { b, ok := ctx.Scanner.GetByte(); if !ok || b == ' ' { break };
    r = append(r, b) }]. *)
Fixpoint read_word (fuel : nat) (s : Scanner) (r : gostring) : Run (gostring * Scanner) :=
  match fuel with
  | O => NoFuel
  | S fuel' =>
      match GetByte s with
      | None => Panics
      | Some ((b, ok), s') =>
          if negb ok || bool_decide (b = space) then Value (r, s')
          else read_word fuel' s' (r ++ [b])
      end
  end.

Record SignedIntOption := mkSignedIntOption {
  sio_Name : gostring;
  sio_Description : gostring;
  sio_Base : Z;
  sio_BitSize : Z;
  sio_Required : bool
}.

Record UnsignedIntOption := mkUnsignedIntOption {
  uio_Name : gostring;
  uio_Description : gostring;
  uio_Base : Z;
  uio_BitSize : Z;
  uio_Required : bool
}.

Record StringOption := mkStringOption {
  so_Name : gostring;
  so_Description : gostring;
  DisallowNewlines : bool;
  Raw : bool;
  so_Required : bool
}.

(** What [Parse] returns, and the scanner it leaves. *)
Definition Parsed : Type := (any * option error) * Scanner.

Definition SignedIntOption_Parse (fuel : nat) (sio : SignedIntOption) (s : Scanner)
    : Run Parsed :=
  match read_word fuel s [] with
  | Value (r, s') =>
      if bool_decide (r = []) && sio_Required sio
      then Value ((OfString [], Some (OptionRequired (sio_Name sio))), s')
      else
        let base := if (sio_Base sio =? 0)%Z then 10%Z else sio_Base sio in
        let bitSize := if (sio_BitSize sio =? 0)%Z then 64%Z else sio_BitSize sio in
        let '(i, err) := strconv_ParseInt r base bitSize in
        Value ((OfInteger Kint64 i, OfStrconv <$> err), s')
  | Panics => Panics
  | NoFuel => NoFuel
  end.

Definition UnsignedIntOption_Parse (fuel : nat) (uio : UnsignedIntOption) (s : Scanner)
    : Run Parsed :=
  match read_word fuel s [] with
  | Value (r, s') =>
      if bool_decide (r = []) && uio_Required uio
      then Value ((OfString [], Some (OptionRequired (uio_Name uio))), s')
      else
        let base := if (uio_Base uio =? 0)%Z then 10%Z else uio_Base uio in
        let bitSize := if (uio_BitSize uio =? 0)%Z then 64%Z else uio_BitSize uio in
        let '(i, err) := strconv_ParseUint r base bitSize in
        Value ((OfInteger Kuint64 i, OfStrconv <$> err), s')
  | Panics => Panics
  | NoFuel => NoFuel
  end.

(** The loop of the raw case of [StringOption.Parse]. *)
Fixpoint read_raw (fuel : nat) (s : Scanner) (r : gostring) : Run (gostring * Scanner) :=
  match fuel with
  | O => NoFuel
  | S fuel' =>
      match GetByte s with
      | None => Panics
      | Some ((b, ok), s') =>
          if negb ok then Value (r, s') else read_raw fuel' s' (r ++ [b])
      end
  end.

(** The loop labelled [process] of [StringOption.Parse]; it ends with the
    bytes read or with the error it returns. *)
Fixpoint read_quoted (fuel : nat) (so : StringOption) (s : Scanner) (quoted : bool)
    (r : gostring) : Run ((gostring + error) * Scanner) :=
  match fuel with
  | O => NoFuel
  | S fuel' =>
      match GetByte s with
      | None => Panics
      | Some ((b, ok), s1) =>
          if negb ok then Value (inl r, s1)
          else if bool_decide (b = backslash) && quoted then
            match GetByte s1 with
            | None => Panics
            | Some ((b', ok'), s2) =>
                if negb ok' then Value (inl r, s2)
                else if bool_decide (b' = newline) && DisallowNewlines so
                then Value (inr (DisallowedEscape "newlines"), s2)
                else read_quoted fuel' so s2 quoted (r ++ [b'])
            end
          else if bool_decide (b = space) && negb quoted then Value (inl r, s1)
          else if bool_decide (b = double_quote) || bool_decide (b = single_quote)
          then read_quoted fuel' so s1 (negb quoted) r
          else read_quoted fuel' so s1 quoted (r ++ [b])
      end
  end.

Definition StringOption_Parse (fuel : nat) (so : StringOption) (s : Scanner) : Run Parsed :=
  let finish (r : gostring) (s' : Scanner) : Parsed :=
    if bool_decide (r = []) && so_Required so
    then ((OfString [], Some (OptionRequired (so_Name so))), s')
    else ((OfString r, None), s') in
  if Raw so then
    match read_raw fuel s [] with
    | Value (r, s') => Value (finish r s')
    | Panics => Panics
    | NoFuel => NoFuel
    end
  else
    match read_quoted fuel so s false [] with
    | Value (inl r, s') => Value (finish r s')
    | Value (inr err, s') => Value ((OfString [], Some err), s')
    | Panics => Panics
    | NoFuel => NoFuel
    end.

(** The loop of [Greedy.Parse] around the [Parse] of its option. *)
Fixpoint Greedy_loop (parse : Scanner → Run Parsed) (fuel : nat) (s : Scanner)
    (a : list any) : Run Parsed :=
  match fuel with
  | O => NoFuel
  | S fuel' =>
      match parse s with
      | Value ((b, None), s') => Greedy_loop parse fuel' s' (a ++ [b])
      | Value ((_, Some _), s') => Value ((OfSlice a, None), s')
      | Panics => Panics
      | NoFuel => NoFuel
      end
  end.

(** The implementations of [Option] in the package. *)
Inductive Option_ :=
| OfSignedIntOption (o : SignedIntOption)
| OfUnsignedIntOption (o : UnsignedIntOption)
| OfStringOption (o : StringOption)
| OfGreedy (Option : Option_).

Fixpoint GetName (o : Option_) : gostring :=
  match o with
  | OfSignedIntOption o => sio_Name o
  | OfUnsignedIntOption o => uio_Name o
  | OfStringOption o => so_Name o
  | OfGreedy g => GetName g
  end.

Fixpoint Parse (fuel : nat) (o : Option_) (s : Scanner) : Run Parsed :=
  match o with
  | OfSignedIntOption o => SignedIntOption_Parse fuel o s
  | OfUnsignedIntOption o => UnsignedIntOption_Parse fuel o s
  | OfStringOption o => StringOption_Parse fuel o s
  | OfGreedy g => Greedy_loop (Parse fuel g) fuel s []
  end.

(** A command; [Callback] is the code of its closure. *)
Record Command {F : Type} := mkCommand {
  Name : gostring;
  Aliases : list gostring;
  Description : gostring;
  Options : list Option_;
  Callback : F
}.
Arguments Command F : clear implicits.

(** [for _, a := range d.Aliases { if a == ctx.Label { co = d; break } }] *)
Fixpoint by_alias {F} (d : Command F) (aliases : list gostring) (Label : gostring)
    (co : option (Command F)) : option (Command F) :=
  match aliases with
  | [] => co
  | a :: aliases' =>
      if bool_decide (a = Label) then Some d else by_alias d aliases' Label co
  end.

(** The loop of [Handle] over [c.Commands]: a match by name leaves the
    loop, a match by alias leaves the loop over the aliases only. *)
Fixpoint find_command {F} (cs : list (Command F)) (Label : gostring)
    (co : option (Command F)) : option (Command F) :=
  match cs with
  | [] => co
  | d :: cs' =>
      if bool_decide (Name d = Label) then Some d
      else find_command cs' Label (by_alias d (Aliases d) Label co)
  end.

(** The context as [handle] makes it and [Handle] fills it in. *)
Record Context {F : Type} := mkContext {
  ctx_Command : option (Command F);
  Prefix : gostring;
  ctx_Scanner : Scanner;
  Label : gostring;
  ctx_Options : gmap gostring any
}.
Arguments Context F : clear implicits.

(** The loop of [Handle] over the options of the command: [None] when an
    option returned an error. *)
Fixpoint parse_options {F} (fuel : nat) (os : list Option_) (ctx : Context F)
    : Run (option (Context F)) :=
  match os with
  | [] => Value (Some ctx)
  | o :: os' =>
      let name := GetName o in
      match Parse fuel o (ctx_Scanner ctx) with
      | Value ((r, err), s') =>
          let ctx1 :=
            {| ctx_Command := ctx_Command ctx; Prefix := Prefix ctx; ctx_Scanner := s';
               Label := Label ctx; ctx_Options := ctx_Options ctx |} in
          match err with
          | Some _ => Value None
          | None =>
              parse_options fuel os'
                {| ctx_Command := ctx_Command ctx1; Prefix := Prefix ctx1;
                   ctx_Scanner := ctx_Scanner ctx1; Label := Label ctx1;
                   ctx_Options := <[name := r]> (ctx_Options ctx1) |}
          end
      | Panics => Panics
      | NoFuel => NoFuel
      end
  end.

(** The options [os] parse one after the other without an error, from the
    scanner [s] and the values [m], each value stored under the name of its
    option, and leave the scanner [s'] and the values [m']. *)
Fixpoint parsed_in_turn (fuel : nat) (os : list Option_) (s : Scanner)
    (m : gmap gostring any) (s' : Scanner) (m' : gmap gostring any) : Prop :=
  match os with
  | [] => s' = s ∧ m' = m
  | o :: os' =>
      ∃ r s1, Parse fuel o s = Value ((r, None), s1) ∧
              parsed_in_turn fuel os' s1 (<[GetName o := r]> m) s' m'
  end.

(** [Handle]: the context the callback of the command found is called
    with, or [None] when no callback is called. *)
Definition Handle {F} (fuel : nat) (cs : list (Command F)) (ctx : Context F)
    : Run (option (Command F * Context F)) :=
  match find_command cs (Label ctx) None with
  | None => Value None
  | Some co =>
      match parse_options fuel (Options co)
              {| ctx_Command := Some co; Prefix := Prefix ctx;
                 ctx_Scanner := ctx_Scanner ctx; Label := Label ctx;
                 ctx_Options := ctx_Options ctx |} with
      | Value (Some ctx') => Value (Some (co, ctx'))
      | Value None => Value None
      | Panics => Panics
      | NoFuel => NoFuel
      end
  end.

(** The loop of [handle] over the prefixes: [(name, args, prefix)]. *)
Fixpoint split_content (prefixes : list gostring) (Content : gostring)
    : gostring * gostring * gostring :=
  match prefixes with
  | [] => ([], [], [])
  | p :: prefixes' =>
      if strings_HasPrefix Content p then
        let pl := length p in
        let name := drop pl Content in
        let i := strings_IndexRune name space in
        if negb (i =? -1)%Z
        then (take (Z.to_nat i) name, drop (Z.to_nat (i + 1)) name, p)
        else (name, [], p)
      else split_content prefixes' Content
  end.

(** [handle] up to the dispatch: the context handed to the handler or to
    [Handle], or [None] when the message is let go.  [Prefix] is the list
    the prefix getter answers, [None] when there is no getter;
    [GlobalCheck] is the answer of the global check, [None] when there is
    none. *)
Definition handle {F} (Prefix_ : option (list gostring)) (GlobalCheck : option bool)
    (Content : gostring) : option (Context F) :=
  match Prefix_ with
  | None => None
  | Some prefixes =>
      if bool_decide (GlobalCheck = Some false) then None
      else
        let '(name, args, prefix) := split_content prefixes Content in
        if (Z.of_nat (length name) =? 0)%Z then None
        else Some {| ctx_Command := None; Prefix := prefix;
                     ctx_Scanner := {| Position := 0; Target := args |};
                     Label := name; ctx_Options := ∅ |}
  end.
End Parse.
Arguments error NumError : clear implicits.
Arguments Command F : clear implicits.
Arguments Context F : clear implicits.
End commands.

(** ** Sample runs of the caches and of the controllers *)

(** An updater that rewrites the content and keeps the id. *)
Definition retouch (m : OptimizedMessage.t unit) : OptimizedMessage.t unit :=
  message (OptimizedMessage.ID m) "touched".

Definition cache1_run : list (Cache1_op (OptimizedMessage.t unit)) :=
  [ Op1Set first_listed (message "m1" "one");
    Op1Set last_listed (message "m2" "two");
    Op1PartiallyUpdate "m1" retouch;
    Op1Del "m2" ].

Definition cache2_run : list (Cache2.op (OptimizedMessage.t unit)) :=
  [ Cache2.OpSet (Cache2.listed []) "c1" (message "m1" "one");
    Cache2.OpSet (Cache2.listed ["c1"]) "c1" (message "m2" "two");
    Cache2.OpSet (Cache2.listed ["c1"]) "c2" (message "m3" "three");
    Cache2.OpPartiallyUpdate "c1" "m2" retouch;
    Cache2.OpSet (Cache2.listed ["c2"; "c1"]) "c3" (message "m4" "four");
    Cache2.OpDel "c3" "m4" ].

(** The caches of a socket with two servers and their roles, and two
    messages in channel "c1"; entities other than messages are kept by
    name. *)
Definition sample_GenericCache
    : GenericCache string string (OptimizedMessage.t unit) string string string string string :=
  {| Channels := Some Cache1_zero;
     Emojis := Some Cache1_zero;
     Messages := Some (set_two (Cache2.init None 16 0 0 false));
     Members := Some Cache2_zero;
     Roles :=
       Some {| Cache2.Checker := None; Cache2.MaxSize1 := 16; Cache2.MaxSize2 := 0;
               Cache2.TotalMaxSize := 0; Cache2.total := 3;
               Cache2.DontInsertIfOverflow := false;
               Cache2.Cache :=
                 <["s1" := <["r1" := "admin"]> (<["r2" := "guest"]> ∅)]>
                   (<["s2" := <["r3" := "admin"]> ∅]> ∅) |};
     Servers :=
       Some {| Cache1.Checker := None; Cache1.DontInsertIfOverflow := false;
               Cache1.MaxSize := 16;
               Cache1.Cache := <["s1" := "one"]> (<["s2" := "two"]> ∅) |};
     Users := Some Cache1_zero;
     Webhooks := None |}.

(** The caches after the follow-ups of "ServerDelete" for "s1" and of
    "BulkDeleteMessage" for "m1" and "m9" of "c1", with the nil case folded
    away. *)
Definition after_ServerDelete :=
  default sample_GenericCache (ServerDelete_followUp "s1" sample_GenericCache).

Definition after_BulkDeleteMessage :=
  default sample_GenericCache
    (BulkDeleteMessage_followUp "c1" ["m1"; "m9"] sample_GenericCache).

(** A controller's life so far: a subscription, its removal, an override. *)
Definition controller_run : list (EC_op Closure) :=
  [ EcListen (Note "A"); EcDelete {| ID := 1 |}; EcOverride (Note "B") ].

(** A client whose "MessageUpdate" controller was overridden with one
    callback after three had subscribed. *)
Definition overridden : Client unit Closure (list string) :=
  {| Events_MessageUpdate :=
       (Override (Note "Z") (Events_MessageUpdate three_listeners)).2;
     Cache_Messages := Cache_Messages three_listeners;
     captured := []; panicked := false |}.

(** A call of [Open] that connects and authenticates and receives the
    error "InvalidSession", while a user callback subscribes to "Ready" and
    an earlier call's callback is removed from "Error". *)
Definition open_run : OpenRun string string :=
  {| connect_err := None; readyEvent := 7; errorEvent := 8;
     authenticate_err := None; raced := Some "InvalidSession";
     meanwhile_Ready := [EcListen (ByUser "greet")];
     meanwhile_RevoltError := [];
     meanwhile_Error := [EcDelete {| ID := 1 |}; EcListen (SignalError 5)] |}.

Definition open_events : OpenEvents string :=
  {| Events_Ready := EC_run NewEventController [EcListen (ByUser "hello")];
     Events_RevoltError := NewEventController;
     Events_Error := EC_run NewEventController [EcListen (SignalError 5)] |}.

(** A pinger's life: a ping, its answer, a second ping that stays
    unanswered, and the ticks after it. *)
Definition ping_pong_silence : list (Pinger.Event string) :=
  [ Pinger.Tick true 10 None; Pinger.PongFrame 12; Pinger.Tick true 40 None;
    Pinger.Tick true 70 None; Pinger.Tick true 100 None ].

(** The socket after its first ping, and what follows the tick that finds
    that ping unanswered. *)
Definition pinged_once : Pinger.t string :=
  Pinger.run Pinger.started [Pinger.Tick true 10 None].

Definition after_the_silence : list (Pinger.Event string) :=
  [ Pinger.PongFrame 45; Pinger.Tick true 70 None; Pinger.CloseCalled ].

(** ** Sample commands *)

Definition text (s : string) : list Ascii.ascii := String.list_ascii_of_string s.

(** A stand-in for [strconv.ParseInt] and [strconv.ParseUint] that reads
    decimal digits, whatever the base and the size asked for. *)
Definition digit (b : Ascii.ascii) : option Z :=
  let n := Z.of_nat (Ascii.nat_of_ascii b) in
  if (48 <=? n)%Z && (n <=? 57)%Z then Some (n - 48)%Z else None.

Definition sample_Parse (s : list Ascii.ascii) (base bitSize : Z) : Z * option string :=
  match s with
  | [] => (0%Z, Some "invalid syntax")
  | _ =>
      match foldl (λ acc b, n ← acc; d ← digit b; Some (10 * n + d)%Z) (Some 0%Z) s with
      | Some n => (n, None)
      | None => (0%Z, Some "invalid syntax")
      end
  end.

Definition count_option : commands.SignedIntOption :=
  {| commands.sio_Name := text "count"; commands.sio_Description := [];
     commands.sio_Base := 0; commands.sio_BitSize := 0; commands.sio_Required := true |}.

Definition size_option : commands.UnsignedIntOption :=
  {| commands.uio_Name := text "size"; commands.uio_Description := [];
     commands.uio_Base := 0; commands.uio_BitSize := 0; commands.uio_Required := false |}.

Definition raw_option : commands.StringOption :=
  {| commands.so_Name := text "text"; commands.so_Description := [];
     commands.DisallowNewlines := false; commands.Raw := true;
     commands.so_Required := false |}.

Definition word_option (required : bool) : commands.StringOption :=
  {| commands.so_Name := text "word"; commands.so_Description := [];
     commands.DisallowNewlines := false; commands.Raw := false;
     commands.so_Required := required |}.

(** A scanner at the start of the arguments [12 ab]. *)
Definition arguments : commands.Scanner :=
  {| commands.Position := 0; commands.Target := text "12 ab" |}.

(** Two commands, the callbacks by name, and the message [!!roll 12 ab]
    under the prefixes [!] and [!!]. *)
Definition sample_commands : list (commands.Command string) :=
  [ {| commands.Name := text "ping"; commands.Aliases := [text "!roll"];
       commands.Description := []; commands.Options := [];
       commands.Callback := "pong" |};
    {| commands.Name := text "!roll"; commands.Aliases := [text "r"];
       commands.Description := [];
       commands.Options :=
         [commands.OfSignedIntOption count_option;
          commands.OfStringOption (word_option true)];
       commands.Callback := "roll" |} ].

Definition empty_context : commands.Context string :=
  {| commands.ctx_Command := None; commands.Prefix := []; commands.Label := [];
     commands.ctx_Scanner := {| commands.Position := 0; commands.Target := [] |};
     commands.ctx_Options := ∅ |}.

Definition dispatched : commands.Context string :=
  default empty_context
    (commands.handle (Some [text "!"; text "!!"]) None (text "!!roll 12 ab")).

Definition called_back : commands.Command string * commands.Context string :=
  match commands.Handle sample_Parse sample_Parse 8 sample_commands dispatched with
  | commands.Value (Some called) => called
  | _ => ({| commands.Name := []; commands.Aliases := []; commands.Description := [];
             commands.Options := []; commands.Callback := "" |}, empty_context)
  end.

(** The command [!roll], and the context its callback is to receive for
    the message above. *)
Definition roll_command : commands.Command string :=
  {| commands.Name := text "!roll"; commands.Aliases := [text "r"];
     commands.Description := [];
     commands.Options :=
       [commands.OfSignedIntOption count_option;
        commands.OfStringOption (word_option true)];
     commands.Callback := "roll" |}.

Definition rolled : commands.Context string :=
  {| commands.ctx_Command := Some roll_command; commands.Prefix := text "!";
     commands.ctx_Scanner := {| commands.Position := 5; commands.Target := text "12 ab" |};
     commands.Label := text "!roll";
     commands.ctx_Options :=
       <[text "word" := commands.OfString (text "ab")]>
         (<[text "count" := commands.OfInteger commands.Kint64 12]> ∅) |}.

(** * Properties *)

(** ** Lengths of maps and the runtime's choice *)
Section Len.
Context `{Countable K} {V : Type}.
Implicit Types (m : gmap K V).

Lemma len_nonneg m : (0 ≤ len m)%Z.
Proof. unfold len. lia. Qed.

Lemma len_empty : len (∅ : gmap K V) = 0%Z.
Proof. unfold len. rewrite map_size_empty. reflexivity. Qed.

Lemma len_insert_None m k v : m !! k = None → len (<[k:=v]> m) = (len m + 1)%Z.
Proof. intros Hk. unfold len. rewrite map_size_insert_None by exact Hk. lia. Qed.

Lemma len_insert_Some m k v : is_Some (m !! k) → len (<[k:=v]> m) = len m.
Proof. intros Hk. unfold len. rewrite map_size_insert_Some by exact Hk. reflexivity. Qed.

Lemma len_insert_le m k v : (len (<[k:=v]> m) ≤ len m + 1)%Z.
Proof.
  destruct (m !! k) as [x|] eqn:Hk.
  - rewrite len_insert_Some by eauto. lia.
  - rewrite len_insert_None by exact Hk. lia.
Qed.

Lemma len_delete_Some m k : is_Some (m !! k) → len (delete k m) = (len m - 1)%Z.
Proof.
  intros Hk. unfold len. rewrite map_size_delete_Some by exact Hk.
  assert (size m ≠ 0) by (apply map_size_ne_0_lookup; eauto). lia.
Qed.

Lemma len_delete_None m k : m !! k = None → len (delete k m) = len m.
Proof. intros Hk. rewrite delete_id by exact Hk. reflexivity. Qed.

Lemma len_singleton k (v : V) : len ({[k := v]} : gmap K V) = 1%Z.
Proof. unfold len. rewrite map_size_singleton. reflexivity. Qed.

End Len.

Section Range.
Context {V : Type}.
Implicit Types (m : gmap ULID V) (o : RangeOracle).

Lemma range_first_lookup o m k : range_first o m = Some k → is_Some (m !! k).
Proof. intros Hk. apply elem_of_dom. exact (first_key_elem o _ _ Hk). Qed.

Lemma range_first_nonempty o m : (0 < len m)%Z → ∃ k, range_first o m = Some k.
Proof.
  intros Hm. destruct (range_first o m) as [k|] eqn:Hk; [eauto|].
  apply first_key_none, dom_empty_inv_L in Hk. subst m.
  unfold len in Hm. rewrite map_size_empty in Hm. lia.
Qed.
End Range.

(** ** The single-keyed cache *)
Section Cache1_facts.
Context {T : Type} `{Cacheable T}.
Implicit Types (c : Cache1.t T) (o : RangeOracle) (v : T).

Lemma Cache1_evict_one_full o c :
  (0 < Cache1.Size c)%Z →
  ∃ k, is_Some (Cache1.Cache c !! k) ∧ Cache1.evict_one o c = Cache1.with_Cache (delete k) c.
Proof.
  intros Hc. destruct (range_first_nonempty o (Cache1.Cache c) Hc) as [k Hk].
  exists k. split; [exact (range_first_lookup _ _ _ Hk)|].
  unfold Cache1.evict_one. rewrite Hk. reflexivity.
Qed.

Lemma Cache1_store_store v c : Cache1.store v (Cache1.store v c) = Cache1.store v c.
Proof. unfold Cache1.store, Cache1.with_Cache. simpl. rewrite insert_insert_eq. reflexivity. Qed.

(** What an unchecked [Set] does to a bounded cache. *)
Lemma Cache1_Set_bounded o c v :
  Cache1.Checker c = None → (0 < Cache1.MaxSize c)%Z →
  Cache1.Set_ o c v =
    if (Cache1.MaxSize c <=? Cache1.Size c)%Z then
      if Cache1.DontInsertIfOverflow c then c
      else Cache1.store v (Cache1.evict_one o c)
    else Cache1.store v c.
Proof.
  intros Hchk Hmax. unfold Cache1.Set_, Cache1.resize, Cache1.vetoed, Cache1.Size.
  rewrite Hchk.
  destruct (Cache1.MaxSize c =? 0)%Z eqn:E0; [lia|].
  destruct (0 <? Cache1.MaxSize c)%Z eqn:E1; [|lia].
  destruct (Cache1.MaxSize c <=? len (Cache1.Cache c))%Z;
    [destruct (Cache1.DontInsertIfOverflow c)|]; try reflexivity;
    apply Cache1_store_store.
Qed.

Lemma Cache1_Set_keeps_config o c v :
  Cache1.Checker (Cache1.Set_ o c v) = Cache1.Checker c ∧
  Cache1.MaxSize (Cache1.Set_ o c v) = Cache1.MaxSize c ∧
  Cache1.DontInsertIfOverflow (Cache1.Set_ o c v) = Cache1.DontInsertIfOverflow c.
Proof.
  unfold Cache1.Set_, Cache1.resize, Cache1.evict_one.
  repeat (case_match; simplify_eq; simpl); auto.
Qed.

Lemma Cache1_Set_size o c v :
  Cache1.Checker c = None → (0 < Cache1.MaxSize c)%Z →
  (Cache1.Size c ≤ Cache1.MaxSize c)%Z →
  (Cache1.Size (Cache1.Set_ o c v) ≤ Cache1.MaxSize c)%Z.
Proof.
  intros Hchk Hmax Hsz. rewrite Cache1_Set_bounded by assumption.
  destruct (Cache1.MaxSize c <=? Cache1.Size c)%Z eqn:Hfull.
  - destruct (Cache1.DontInsertIfOverflow c); [exact Hsz|].
    destruct (Cache1_evict_one_full o c) as (k & Hk & ->); [lia|].
    unfold Cache1.Size, Cache1.store, Cache1.with_Cache in *. simpl.
    pose proof (len_insert_le (delete k (Cache1.Cache c)) (GetKey v) v).
    rewrite len_delete_Some in * by exact Hk. lia.
  - unfold Cache1.Size, Cache1.store, Cache1.with_Cache in *. simpl.
    pose proof (len_insert_le (Cache1.Cache c) (GetKey v) v). lia.
Qed.

Lemma Cache1_run_sets_size calls : ∀ c,
  Cache1.Checker c = None → (0 < Cache1.MaxSize c)%Z →
  (Cache1.Size c ≤ Cache1.MaxSize c)%Z →
  let c' := Cache1.run_sets c calls in
  Cache1.Checker c' = None ∧ Cache1.MaxSize c' = Cache1.MaxSize c ∧
  Cache1.DontInsertIfOverflow c' = Cache1.DontInsertIfOverflow c ∧
  (Cache1.Size c' ≤ Cache1.MaxSize c)%Z.
Proof.
  induction calls as [|[o v] calls IH]; intros c Hchk Hmax Hsz; simpl.
  - auto.
  - destruct (Cache1_Set_keeps_config o c v) as (Hc & Hm & Hd).
    pose proof (Cache1_Set_size o c v Hchk Hmax Hsz) as Hsz'.
    destruct (IH (Cache1.Set_ o c v)) as (IH1 & IH2 & IH3 & IH4).
    + congruence.
    + lia.
    + lia.
    + unfold Cache1.run_sets in *. simpl in *.
      rewrite IH1, IH2, IH3, Hm, Hd. rewrite Hm in IH4. auto.
Qed.

(** C5. A single-keyed cache with capacity [N > 0] and no admission
    predicate never holds more than [N] entries, whatever [Set] calls it
    receives and whatever entries the runtime picks for eviction.  A [Set]
    on a full cache is a no-op under [DontInsertIfOverflow]; otherwise it
    evicts one existing entry and then inserts. *)
Theorem Cache1_eviction_bound (N : Z) (dont : bool) (calls : list (RangeOracle * T)) :
  (0 < N)%Z →
  let c := Cache1.run_sets (Cache1.init None dont N) calls in
  (Cache1.Size c ≤ N)%Z ∧
  ∀ o v, (N ≤ Cache1.Size c)%Z →
    if dont then Cache1.Set_ o c v = c
    else ∃ k, is_Some (Cache1.Get c k) ∧
              Cache1.Cache (Cache1.Set_ o c v) = <[GetKey v := v]> (delete k (Cache1.Cache c)).
Proof.
  intros HN c.
  destruct (Cache1_run_sets_size calls (Cache1.init None dont N))
    as (Hchk & Hmax & Hdont & Hsz).
  - reflexivity.
  - exact HN.
  - unfold Cache1.Size. simpl. rewrite len_empty. lia.
  - fold c in Hchk, Hmax, Hdont, Hsz. simpl in *. split; [exact Hsz|].
    intros o v Hfull. rewrite Cache1_Set_bounded by (rewrite ?Hmax; assumption || lia).
    rewrite Hmax, Hdont. destruct (N <=? Cache1.Size c)%Z eqn:E; [|lia].
    destruct dont; [reflexivity|].
    destruct (Cache1_evict_one_full o c) as (k & Hk & ->); [lia|].
    exists k. split; [exact Hk|reflexivity].
Qed.
End Cache1_facts.

(** ** The parent-scoped cache *)
Section Cache2_facts.
Context {T : Type} `{Cacheable T}.
Implicit Types (c : Cache2.t T) (m : gmap ULID (gmap ULID T)) (g : gmap ULID T).

Lemma entries_empty : Cache2.entries (∅ : gmap ULID (gmap ULID T)) = 0%Z.
Proof. unfold Cache2.entries. apply map_fold_empty. Qed.

Lemma entries_insert_None m k g :
  m !! k = None → Cache2.entries (<[k:=g]> m) = (len g + Cache2.entries m)%Z.
Proof.
  intros Hk. unfold Cache2.entries.
  rewrite map_fold_insert_L; [reflexivity| |exact Hk].
  intros. lia.
Qed.

Lemma entries_delete m k g :
  m !! k = Some g → Cache2.entries m = (len g + Cache2.entries (delete k m))%Z.
Proof.
  intros Hk. rewrite <- (insert_delete_id m k g Hk) at 1.
  apply entries_insert_None, lookup_delete_eq.
Qed.

Lemma entries_insert m k g :
  Cache2.entries (<[k:=g]> m) = (len g + Cache2.entries (delete k m))%Z.
Proof.
  rewrite <- insert_delete_eq. apply entries_insert_None, lookup_delete_eq.
Qed.

Lemma entries_nonneg m : (0 ≤ Cache2.entries m)%Z.
Proof.
  unfold Cache2.entries.
  apply (map_fold_weak_ind (λ n _, (0 ≤ n)%Z)); [lia|].
  intros k g m' n _ Hn. pose proof (len_nonneg g). lia.
Qed.

Lemma counted_del c parent id : Cache2.counted c → Cache2.counted (Cache2.del c parent id).
Proof.
  unfold Cache2.counted, Cache2.del. intros Hc.
  destruct (Cache2.Cache c !! parent) as [p|] eqn:Hp; [|exact Hc].
  rewrite (entries_delete _ _ _ Hp) in Hc.
  case_bool_decide as Hid; simpl; rewrite entries_insert.
  - rewrite len_delete_Some by exact Hid. lia.
  - rewrite len_delete_None; [lia|].
    destruct (p !! id) eqn:E; [exfalso; eauto|reflexivity].
Qed.

Lemma counted_ins c parent e : Cache2.counted c → Cache2.counted (Cache2.ins c parent e).
Proof.
  unfold Cache2.counted, Cache2.ins. intros Hc.
  destruct (Cache2.Cache c !! parent) as [p|] eqn:Hp.
  - rewrite (entries_delete _ _ _ Hp) in Hc.
    case_bool_decide as Hid; simpl; rewrite entries_insert.
    + rewrite len_insert_Some by exact Hid. lia.
    + rewrite len_insert_None; [lia|].
      destruct (p !! GetKey e) eqn:E; [exfalso; eauto|reflexivity].
  - simpl. rewrite entries_insert_None by exact Hp. rewrite len_singleton. lia.
Qed.

Lemma counted_drop_group c k : Cache2.counted c → Cache2.counted (Cache2.drop_group c k).
Proof.
  unfold Cache2.counted, Cache2.drop_group. simpl. intros Hc.
  destruct (Cache2.Cache c !! k) as [g|] eqn:Hk; simpl.
  - rewrite (entries_delete _ _ _ Hk) in Hc. lia.
  - rewrite delete_id by exact Hk. rewrite len_empty. lia.
Qed.

Lemma counted_evict_in_each_group rt c :
  Cache2.counted c → Cache2.counted (Cache2.evict_in_each_group rt c).
Proof.
  unfold Cache2.evict_in_each_group. generalize (Cache2.groups_order rt).
  intros order. revert c. induction order as [|k1 order IH]; intros c Hc; simpl.
  - exact Hc.
  - apply IH. destruct (Cache2.Cache c !! k1) as [v1|]; [|exact Hc].
    destruct (range_first (Cache2.first_entry rt k1) v1); [|exact Hc].
    apply counted_del, Hc.
Qed.

Lemma counted_resize rt c parent e :
  Cache2.counted c → Cache2.counted (Cache2.resize rt c parent e).2.
Proof.
  intros Hc. unfold Cache2.resize.
  repeat (case_match; simpl; try assumption);
    auto using counted_del, counted_drop_group, counted_evict_in_each_group.
Qed.

Lemma counted_Set rt c parent v :
  Cache2.counted c → Cache2.counted (Cache2.Set_ rt c parent v).
Proof.
  intros Hc. unfold Cache2.Set_.
  pose proof (counted_resize rt c parent v Hc) as Hr.
  destruct (Cache2.resize rt c parent v) as [[] c']; simpl in *;
    auto using counted_ins.
Qed.

Lemma counted_DelGroup c parent : Cache2.counted c → Cache2.counted (Cache2.DelGroup c parent).
Proof.
  unfold Cache2.counted, Cache2.DelGroup. intros Hc.
  destruct (Cache2.Cache c !! parent) as [g|] eqn:Hp; [|exact Hc].
  simpl. rewrite (entries_delete _ _ _ Hp) in Hc. lia.
Qed.

Lemma counted_PartiallyUpdate {W} c parent id (updater : T → W → T * W) w :
  Cache2.counted c → Cache2.counted (Cache2.PartiallyUpdate c parent id updater w).1.
Proof.
  unfold Cache2.counted, Cache2.PartiallyUpdate. intros Hc.
  destruct (Cache2.Cache c !! parent) as [x|] eqn:Hp; [|exact Hc].
  destruct (x !! id) as [y|] eqn:Hid; [|exact Hc].
  destruct (updater y w) as [y' w']. simpl.
  rewrite entries_insert, len_insert_Some by eauto.
  rewrite (entries_delete _ _ _ Hp) in Hc. exact Hc.
Qed.

Lemma counted_apply_op c o : Cache2.counted c → Cache2.counted (Cache2.apply_op c o).
Proof.
  destruct o; simpl;
    auto using counted_Set, counted_del, counted_DelGroup, counted_PartiallyUpdate.
Qed.

Lemma counted_run_ops ops : ∀ c, Cache2.counted c → Cache2.counted (Cache2.run_ops c ops).
Proof.
  induction ops as [|o ops IH]; intros c Hc; simpl; [exact Hc|].
  apply IH, counted_apply_op, Hc.
Qed.

(** C6. In every state a parent-scoped cache reaches from its empty start
    through [Set], [Del], [DelGroup] and [PartiallyUpdate], [Size] is the
    number of entries found across the groups; [DelGroup] of a present
    parent removes that one group, lowering [GroupsCount] by one and [Size]
    by the members the group had; [Del] of an absent key keeps [Size]. *)
Theorem Cache2_Size_counts_entries
    (checker : option (Cache2.CheckContext T → bool))
    (maxSize1 maxSize2 totalMaxSize : Z) (dont : bool) (ops : list (Cache2.op T)) :
  let c := Cache2.run_ops (Cache2.init checker maxSize1 maxSize2 totalMaxSize dont) ops in
  Cache2.Size c = Cache2.entries (Cache2.Cache c) ∧
  (∀ parent g, Cache2.Cache c !! parent = Some g →
     Cache2.Cache (Cache2.DelGroup c parent) = delete parent (Cache2.Cache c) ∧
     Cache2.GroupsCount (Cache2.DelGroup c parent) = (Cache2.GroupsCount c - 1)%Z ∧
     Cache2.Size (Cache2.DelGroup c parent) = (Cache2.Size c - len g)%Z ∧
     Cache2.Size (Cache2.DelGroup c parent) =
       Cache2.entries (Cache2.Cache (Cache2.DelGroup c parent))) ∧
  (∀ parent id, Cache2.Get c parent id = None →
     Cache2.Size (Cache2.Del c parent id) = Cache2.Size c).
Proof.
  intros c.
  assert (Hc : Cache2.counted c).
  { apply counted_run_ops. unfold Cache2.counted. simpl. rewrite entries_empty. reflexivity. }
  split; [exact Hc|]. split.
  - intros parent g Hp.
    pose proof (counted_DelGroup c parent Hc) as Hd.
    unfold Cache2.DelGroup, Cache2.GroupsCount, Cache2.Size in *.
    rewrite Hp in *. simpl in *.
    split; [reflexivity|]. split; [apply len_delete_Some; eauto|].
    split; [reflexivity|exact Hd].
  - intros parent id Hget.
    unfold Cache2.Get, Cache2.Del, Cache2.del, Cache2.Size in *.
    destruct (Cache2.Cache c !! parent) as [p|]; [|reflexivity].
    rewrite Hget. rewrite bool_decide_eq_false_2; [reflexivity|].
    intros [? ?]. discriminate.
Qed.

(** C9. [PartiallyUpdate] on a key that is not present returns the cache as
    it was and leaves the state captured by the updater as it was: the
    updater is not run and no entry appears.  This holds for both caches,
    every updater and every state the updater could touch. *)
Theorem PartiallyUpdate_absent_noop {W : Type}
    (c1 : Cache1.t T) (c2 : Cache2.t T) (parent id : ULID)
    (updater : T → W → T * W) (w : W) :
  Cache1.Get c1 id = None →
  Cache2.Get c2 parent id = None →
  Cache1.PartiallyUpdate c1 id updater w = (c1, w) ∧
  Cache2.PartiallyUpdate c2 parent id updater w = (c2, w).
Proof.
  unfold Cache1.Get, Cache2.Get, Cache1.PartiallyUpdate, Cache2.PartiallyUpdate.
  intros H1 H2. rewrite H1. split; [reflexivity|].
  destruct (Cache2.Cache c2 !! parent) as [x|]; [|reflexivity].
  rewrite H2. reflexivity.
Qed.
End Cache2_facts.

(** ** The dispatch bus *)
Section Emit_facts.
Context {T F W : Type}.
Variable call : F → T → W → W.
Variable controller : W → EventController F.

Lemma Emit_from_called registered t order : ∀ w,
  removes_at_most_itself call controller registered t →
  NoDup order →
  (∀ k, k ∈ order → ls (controller w) !! k = registered !! k) →
  (Emit_from call controller order t w).1.*1
    = filter (λ k, is_Some (registered !! k)) order.
Proof.
  induction order as [|k rest IH]; intros w Htame Hnd Hagree; [reflexivity|].
  apply NoDup_cons in Hnd as [Hk Hnd]. simpl.
  pose proof (Hagree k ltac:(left)) as Hlk.
  destruct (registered !! k) as [g|] eqn:Hreg.
  - rewrite Hlk. simpl. rewrite filter_cons_True by (rewrite Hreg; eauto).
    f_equal. apply IH; [exact Htame|exact Hnd|].
    intros k' Hk'. rewrite <- (Hagree k') by (right; exact Hk').
    destruct (Htame k g w Hreg) as [-> | ->]; [reflexivity|].
    apply lookup_delete_ne. intros ->. contradiction.
  - rewrite Hlk. rewrite filter_cons_False by (rewrite Hreg; intros [? ?]; discriminate).
    apply IH; [exact Htame|exact Hnd|].
    intros k' Hk'. apply Hagree. right. exact Hk'.
Qed.


(** What the callbacks do not write stays as it is throughout the loop. *)
Lemma Emit_from_keeps {V : Type} (view : W → V) order t : ∀ w,
  (∀ g t' w', view (call g t' w') = view w') →
  view (Emit_from call controller order t w).2 = view w ∧
  ∀ k w', (k, w') ∈ (Emit_from call controller order t w).1 → view w' = view w.
Proof.
  induction order as [|k rest IH]; intros w Hkeep; simpl.
  - split; [reflexivity|]. intros k w' Hin. apply elem_of_nil in Hin. contradiction.
  - destruct (ls (controller w) !! k) as [g|]; [|apply IH, Hkeep].
    destruct (IH (call g t w) Hkeep) as [IH1 IH2]. simpl. rewrite Hkeep in IH1, IH2.
    split; [exact IH1|].
    intros k' w' [Heq | Hin]%elem_of_cons; [congruence|].
    exact (IH2 k' w' Hin).
Qed.

(** [EmitAndCall] with a subscriber registered: the call changes nothing
    and spawns a goroutine that runs the callbacks and then the follow-up
    [f], so that no callback sees what [f] writes. *)
Lemma EmitAndCall_subscribers_first {V : Type} (view : W → V) (f : T → W → W)
    order t w :
  (∀ g t' w', view (call g t' w') = view w') →
  ls (controller w) ≠ ∅ →
  let res := EmitAndCall call controller order t f w in
  res.1 = w ∧
  res.2 = Some (λ w', f t (Emit call controller order t w')) ∧
  ∀ k w', (k, w') ∈ Emit_calls call controller order t w → view w' = view w.
Proof.
  intros Hkeep Hls res. unfold res, EmitAndCall.
  destruct (len (ls (controller w)) =? 0)%Z eqn:E.
  - exfalso. apply Hls. apply map_size_empty_iff. unfold len in E. lia.
  - simpl. split; [reflexivity|]. split; [reflexivity|].
    apply (Emit_from_keeps view order t w Hkeep).
Qed.
End Emit_facts.

(** ** Cache consistency of a "MessageUpdate" frame *)
Section MessageUpdate_facts.
Context {Embed OptimizedEmbed F U : Type}.
Variable Embed_ToOptimized : Embed → OptimizedEmbed.
Variable call : F → MessageUpdate.t Embed → Client OptimizedEmbed F U → Client OptimizedEmbed F U.

Lemma MessageUpdate_followUp_cache r (s s' : Client OptimizedEmbed F U) :
  Cache_Messages s' = Cache_Messages s →
  Cache_Messages (MessageUpdate_followUp Embed_ToOptimized r s')
    = Cache_Messages (MessageUpdate_followUp Embed_ToOptimized r s).
Proof.
  intros Heq. unfold MessageUpdate_followUp, Cache2.PartiallyUpdate. rewrite Heq.
  destruct (Cache2.Cache (Cache_Messages s) !! MessageUpdate.Channel r) as [x|];
    [|reflexivity].
  destruct (x !! MessageUpdate.MessageID r) as [y|]; [|reflexivity].
  destruct (MessageUpdate_patch Embed_ToOptimized r y); reflexivity.
Qed.

(** C1, as the code has it.  With a subscriber registered, the handler
    returns at once having changed nothing and leaves a goroutine behind;
    in that goroutine every subscriber runs first and, when subscribers
    only read the message cache, each of them finds the cache as it was
    before the frame; the patch is applied after the last of them.  With
    no subscriber the patch is applied before the handler returns. *)
Theorem MessageUpdate_published_before_patched
    (order : list Z) (r : MessageUpdate.t Embed) (s : Client OptimizedEmbed F U) :
  readers_only call →
  let res := on_MessageUpdate Embed_ToOptimized call order r s in
  (ls (Events_MessageUpdate s) = ∅ →
     res = (MessageUpdate_followUp Embed_ToOptimized r s, None)) ∧
  (ls (Events_MessageUpdate s) ≠ ∅ →
     res.1 = s ∧
     (∀ k w, (k, w) ∈ Emit_calls call Events_MessageUpdate order r s →
        Cache_Messages w = Cache_Messages s) ∧
     settle res =
       MessageUpdate_followUp Embed_ToOptimized r (Emit call Events_MessageUpdate order r s) ∧
     Cache_Messages (settle res)
       = Cache_Messages (MessageUpdate_followUp Embed_ToOptimized r s)).
Proof.
  intros Hro res. split; intros Hls.
  - unfold res, on_MessageUpdate, EmitAndCall. rewrite Hls, len_empty. reflexivity.
  - destruct (EmitAndCall_subscribers_first call Events_MessageUpdate Cache_Messages
                (MessageUpdate_followUp Embed_ToOptimized) order r s Hro Hls)
      as (Hnow & Hgo & Hcalls).
    subst res. unfold on_MessageUpdate, settle. rewrite Hgo, Hnow.
    split; [reflexivity|]. split; [exact Hcalls|]. split; [reflexivity|].
    apply MessageUpdate_followUp_cache.
    apply (Emit_from_keeps call Events_MessageUpdate Cache_Messages order r s Hro).
Qed.
End MessageUpdate_facts.

Lemma Closure_call_readers_only {Embed OE : Type} :
  readers_only (@Closure_call Embed OE).
Proof. intros [] t w; reflexivity. Qed.

(** C1, as the specification states it, fails: the subscriber of
    [one_reader] looks up message "m1" while the frame that changes its
    content from "hi" to "bye" is published, and it reads "hi". *)
Lemma MessageUpdate_subscriber_reads_unpatched :
  let s := settle (on_MessageUpdate (λ e : unit, e) Closure_call [1%Z] update_m1 one_reader) in
  captured s = ["hi"] ∧ captured s ≠ ["bye"] ∧
  OptimizedMessage.Content <$> Cache2.Get (Cache_Messages s) "c1" "m1" = Some "bye".
Proof. vm_compute. split; [reflexivity|]. split; [discriminate|reflexivity]. Qed.

(** ** Flag bits under patches *)












Section Flag_facts.
Context `{External}.

End Flag_facts.

(** ** The frame processor and the read loop *)
Section Wire_facts.
Context {float64 error : Type}.
Variable json_Unmarshal_map : bytes → error + gmap string (any float64).
Variable unmarshal : string → bytes → option error.
Variable unmarshal_Bulk : bytes → error + list bytes.
Variable ServerRoleUpdate_Data_nil : bytes → bool.
Variable follow_up_panics : string → bytes → bool.

(** C10. A frame that decodes to an object whose "type" is missing or is
    not a string makes [process] panic, after the object went to the "Raw"
    controller and with nothing sent to "Error"; a frame that does not
    decode makes [process] return without any effect. *)
Theorem process_untyped_panics (fuel : nat) (s : bytes) :
  (∀ a, json_Unmarshal_map s = inr a →
        (∀ typ, a !! "type" ≠ Some (AnyString typ)) →
        process json_Unmarshal_map unmarshal unmarshal_Bulk ServerRoleUpdate_Data_nil
          follow_up_panics (S fuel) s
          = ([EmittedInGoroutines "Raw" (PRaw a)], Panicked)) ∧
  (∀ err, json_Unmarshal_map s = inl err →
        process json_Unmarshal_map unmarshal unmarshal_Bulk ServerRoleUpdate_Data_nil
          follow_up_panics (S fuel) s = ([], Returned)).
Proof.
  split.
  - intros a Ha Htype. simpl. rewrite Ha.
    destruct (a !! "type") as [[]|] eqn:E; try reflexivity.
    exfalso. eapply Htype. reflexivity.
  - intros err Herr. simpl. rewrite Herr. reflexivity.
Qed.

(** A frame of a decoded case whose struct does not decode is reported on
    "Error" and dropped. *)
Lemma process_reports_struct_errors (fuel : nat) (s : bytes) a typ follow_up err :
  json_Unmarshal_map s = inr a →
  a !! "type" = Some (AnyString typ) →
  decoded_case typ = Some follow_up →
  unmarshal typ s = Some err →
  process json_Unmarshal_map unmarshal unmarshal_Bulk ServerRoleUpdate_Data_nil
          follow_up_panics (S fuel) s
    = ([EmittedInGoroutines "Raw" (PRaw a); emitError err], Returned).
Proof.
  intros Ha Htyp Hcase Herr. simpl. rewrite Ha, Htyp.
  unfold process_case.
  repeat (destruct (decide _) as [->|_]; [vm_compute in Hcase; discriminate|]).
  rewrite Hcase, Herr. reflexivity.
Qed.

(** A frame of a decoded case whose struct decodes is published, and
    [process] returns, unless the case dereferences a nil [Data] before it
    publishes ("ServerRoleUpdate") or the follow-up runs at once and
    panics. *)
Lemma process_after_decode (fuel : nat) (s : bytes) a typ follow_up :
  json_Unmarshal_map s = inr a →
  a !! "type" = Some (AnyString typ) →
  decoded_case typ = Some follow_up →
  unmarshal typ s = None →
  process json_Unmarshal_map unmarshal unmarshal_Bulk ServerRoleUpdate_Data_nil
          follow_up_panics (S fuel) s
    = if follow_up then
        if bool_decide (typ = "ServerRoleUpdate") && ServerRoleUpdate_Data_nil s
        then ([EmittedInGoroutines "Raw" (PRaw a)], Panicked)
        else ([EmittedInGoroutines "Raw" (PRaw a); EmittedAndCalled typ (PDecoded typ s)],
              if follow_up_panics typ s then Panicked else Returned)
      else ([EmittedInGoroutines "Raw" (PRaw a); EmittedInGoroutines typ (PDecoded typ s)],
            Returned).
Proof.
  intros Ha Htyp Hcase Hdec. simpl. rewrite Ha, Htyp.
  unfold process_case.
  repeat (destruct (decide _) as [->|_]; [vm_compute in Hcase; discriminate|]).
  rewrite Hcase, Hdec. destruct follow_up; [|reflexivity].
  destruct (bool_decide (typ = "ServerRoleUpdate") && ServerRoleUpdate_Data_nil s);
    reflexivity.
Qed.

(** The close handler looks at [closed] before anything else. *)
Lemma close_handler_closed (s : Socket float64 error) :
  closed s = true → close_handler s = s.
Proof. intros Hc. unfold close_handler. rewrite Hc. reflexivity. Qed.

(** The read loop looks at [closed] when a turn starts, and not again
    between the failed read and the [Open] that follows it. *)
Lemma listener_reopens_whenever_read_fails
    (fuel : nat) during err open_err rest (s : Socket float64 error) :
  closed s = false →
  Reopened (closed_by_user (foldl meanwhile s during))
    ∈ journal (listener json_Unmarshal_map unmarshal unmarshal_Bulk
                 ServerRoleUpdate_Data_nil follow_up_panics fuel
                 ((during, ReadFailed err open_err) :: rest) s).
Proof.
  intros Hc. destruct fuel; simpl; rewrite Hc;
    destruct open_err; simpl; set_solver.
Qed.
End Wire_facts.

(** C2, evaluated.  The user calls [Close] while the read loop waits in
    [ReadMessage]; the read then fails, and the loop reports the error and
    calls [Open], although the client had been closed by its user. *)
Theorem listener_reopens_after_Close :
  let s := listener sample_json sample_unmarshal sample_unmarshal_Bulk sample_Data_nil
             sample_follow_up_panics 1
             close_while_reading fresh_socket in
  closed s = true ∧ closed_by_user s = true ∧
  journal s = [ Emitted "Error" (PError "use of closed network connection");
                Reopened true ].
Proof. vm_compute. repeat split. Qed.

(** C4, evaluated.  A frame that is not JSON is dropped with nothing sent
    to "Error"; an object without "type" ends the program, so that the
    "Pong" behind it is never processed. *)
Theorem malformed_frames_not_reported :
  process sample_json sample_unmarshal sample_unmarshal_Bulk sample_Data_nil
      sample_follow_up_panics 1 frame_garbage
    = ([], Returned) ∧
  let s := listener sample_json sample_unmarshal sample_unmarshal_Bulk sample_Data_nil
             sample_follow_up_panics 1
             untyped_then_pong fresh_socket in
  died s = true ∧ journal s = [EmittedInGoroutines "Raw" (PRaw ∅)].
Proof. vm_compute. repeat split. Qed.

(** C3, evaluated.  With a total cap of one entry, two [Set] calls leave
    two entries in the cache, whether or not the number of groups is
    limited as well. *)
Theorem Cache2_total_cap_exceeded :
  Cache2.TotalMaxSize (set_two total_of_one) = 1%Z ∧
  Cache2.Size (set_two total_of_one) = 2%Z ∧
  Cache2.TotalMaxSize (set_two total_of_one_in_five_groups) = 1%Z ∧
  Cache2.Size (set_two total_of_one_in_five_groups) = 2%Z.
Proof. vm_compute. repeat split. Qed.

(** Without a limit on groups, a positive total cap makes [Set] a plain
    insertion: nothing is looked at, nothing is evicted. *)
Lemma Cache2_Set_ignores_total_cap {T : Type} `{Cacheable T}
    rt (c : Cache2.t T) (parent : ULID) (v : T) :
  (0 < Cache2.TotalMaxSize c)%Z → Cache2.MaxSize1 c = 0%Z →
  Cache2.Set_ rt c parent v = Cache2.ins c parent v.
Proof.
  intros Ht Hm. unfold Cache2.Set_, Cache2.resize. rewrite Hm.
  destruct (Cache2.TotalMaxSize c =? 0)%Z eqn:E0; [lia|].
  destruct (Cache2.TotalMaxSize c <? 0)%Z eqn:E1; [lia|].
  rewrite andb_false_r. reflexivity.
Qed.

(** In a state whose count agrees with its entries, [resize] never finds
    the count at the total cap: the test is reached only with a negative
    [TotalMaxSize], which a count cannot equal. *)
Lemma Cache2_total_cap_never_met {T : Type} `{Cacheable T} (c : Cache2.t T) :
  Cache2.counted c →
  (Cache2.TotalMaxSize c <? 0)%Z || (0 <? Cache2.MaxSize1 c)%Z = true →
  (Cache2.MaxSize1 c =? 0)%Z && (Cache2.MaxSize2 c =? 0)%Z
    && (Cache2.total c =? Cache2.TotalMaxSize c)%Z = false.
Proof.
  intros Hc Hcase. unfold Cache2.counted in Hc.
  pose proof (entries_nonneg (Cache2.Cache c)) as Hpos.
  destruct (Cache2.MaxSize1 c =? 0)%Z eqn:E1; [|reflexivity].
  destruct (Cache2.MaxSize2 c =? 0)%Z; [|reflexivity].
  destruct (Cache2.total c =? Cache2.TotalMaxSize c)%Z eqn:E2; [|reflexivity].
  apply orb_true_iff in Hcase as [Hneg|Hgroups]; lia.
Qed.

(** ** The properties at sample inputs *)

Lemma Cache1_eviction_bound_witness :
  (Cache1.Size (Cache1.run_sets (Cache1.init None false 2) three_sets) ≤ 2)%Z.
Proof.
  exact (proj1 (Cache1_eviction_bound 2 false three_sets ltac:(lia))).
Defined.

Lemma PartiallyUpdate_absent_noop_witness :
  Cache1.PartiallyUpdate (Cache1.run_sets (Cache1.init None false 2) three_sets)
      "m9" counting_updater 0
    = (Cache1.run_sets (Cache1.init None false 2) three_sets, 0) ∧
  Cache2.PartiallyUpdate (set_two total_of_one) "c1" "m9" counting_updater 0
    = (set_two total_of_one, 0).
Proof.
  apply PartiallyUpdate_absent_noop; vm_compute; reflexivity.
Defined.





(** In either order the runtime may take, A and C have run once each after
    B removed itself, and B is gone from the registrations. *)
Example Emit_three_listeners :
  captured (Emit (@Closure_call unit unit) Events_MessageUpdate
              [3%Z; 1%Z; 2%Z] update_m1 three_listeners) = ["C"; "A"; "B"] ∧
  captured (Emit (@Closure_call unit unit) Events_MessageUpdate
              [2%Z; 3%Z; 1%Z] update_m1 three_listeners) = ["B"; "C"; "A"] ∧
  dom (ls (Events_MessageUpdate
             (Emit (@Closure_call unit unit) Events_MessageUpdate
                [2%Z; 3%Z; 1%Z] update_m1 three_listeners))) = {[1%Z; 3%Z]}.
Proof. vm_compute. repeat split. Qed.

Lemma one_reader_listens : ls (Events_MessageUpdate one_reader) ≠ ∅.
Proof.
  intros Hls. apply (f_equal (λ m, m !! 1%Z)) in Hls. vm_compute in Hls. discriminate.
Qed.

Lemma MessageUpdate_published_before_patched_witness :
  Cache_Messages
    (settle (on_MessageUpdate (λ e : unit, e) Closure_call [1%Z] update_m1 one_reader))
  = Cache_Messages (MessageUpdate_followUp (λ e : unit, e) update_m1 one_reader).
Proof.
  exact (proj2 (proj2 (proj2
           (proj2 (MessageUpdate_published_before_patched (λ e : unit, e) Closure_call
                     [1%Z] update_m1 one_reader Closure_call_readers_only)
              one_reader_listens)))).
Defined.





(** * Further properties of the caches *)
Section Cache1_more.
Context {T : Type} `{Cacheable T}.
Implicit Types (c : Cache1.t T) (o : RangeOracle) (v : T).

Lemma Cache1_Set_cases o c v :
  Cache1.Set_ o c v =
    if Cache1_refuses c v then c
    else if (0 <? Cache1.MaxSize c)%Z && (Cache1.MaxSize c <=? Cache1.Size c)%Z
         then Cache1.store v (Cache1.evict_one o c)
         else Cache1.store v c.
Proof.
  unfold Cache1.Set_, Cache1.resize, Cache1_refuses, Cache1.Size.
  destruct (Cache1.MaxSize c =? 0)%Z; [reflexivity|].
  destruct (0 <? Cache1.MaxSize c)%Z; [|reflexivity]. simpl.
  destruct (Cache1.vetoed c v); [reflexivity|]. simpl.
  destruct (Cache1.MaxSize c <=? len (Cache1.Cache c))%Z; [|apply Cache1_store_store].
  destruct (Cache1.DontInsertIfOverflow c); [reflexivity|apply Cache1_store_store].
Qed.

Lemma Cache1_Get_store v c k :
  Cache1.Get (Cache1.store v c) k =
    if decide (GetKey v = k) then Some v else Cache1.Get c k.
Proof. unfold Cache1.Get, Cache1.store. simpl. apply lookup_insert. Qed.

(** X2. [Set] on a single-keyed cache is all or nothing: when the cache is
    unconfigured, or bounded and the checker vetoes, or full under
    [DontInsertIfOverflow], the cache is left as it is; in every other
    case the entity can be read back under its key at once.  An unbounded
    cache never asks its checker. *)
Theorem Cache1_Set_then_Get o c v :
  (if Cache1_refuses c v then Cache1.Set_ o c v = c
   else Cache1.Get (Cache1.Set_ o c v) (GetKey v) = Some v) ∧
  ((Cache1.MaxSize c < 0)%Z → Cache1.Set_ o c v = Cache1.store v c).
Proof.
  rewrite Cache1_Set_cases. split.
  - destruct (Cache1_refuses c v); [reflexivity|].
    destruct (_ && _); rewrite Cache1_Get_store; case_decide; congruence.
  - intros Hneg. unfold Cache1_refuses.
    destruct (Cache1.MaxSize c =? 0)%Z eqn:E0; [lia|].
    destruct (0 <? Cache1.MaxSize c)%Z eqn:E1; [lia|]. reflexivity.
Qed.

(** X3. A [Set] costs the cache at most one of the other entries, and none
    while the cache is unbounded or below its capacity. *)
Theorem Cache1_Set_keeps_others o c v :
  (∃ evicted, ∀ k, k ≠ GetKey v → k ≠ evicted →
     Cache1.Get (Cache1.Set_ o c v) k = Cache1.Get c k) ∧
  ((Cache1.MaxSize c < 0)%Z ∨ (Cache1.Size c < Cache1.MaxSize c)%Z →
   ∀ k, k ≠ GetKey v → Cache1.Get (Cache1.Set_ o c v) k = Cache1.Get c k).
Proof.
  rewrite Cache1_Set_cases. split.
  - destruct (Cache1_refuses c v); [exists ""; reflexivity|].
    destruct (_ && _).
    + unfold Cache1.evict_one. destruct (range_first o (Cache1.Cache c)) as [k0|].
      * exists k0. intros k Hk Hk0. rewrite Cache1_Get_store.
        case_decide; [congruence|]. unfold Cache1.Get. simpl.
        apply lookup_delete_ne. congruence.
      * exists "". intros k Hk _. rewrite Cache1_Get_store. case_decide; congruence.
    + exists "". intros k Hk _. rewrite Cache1_Get_store. case_decide; congruence.
  - intros Hroom k Hk. destruct (Cache1_refuses c v); [reflexivity|].
    destruct (0 <? Cache1.MaxSize c)%Z eqn:E1, (Cache1.MaxSize c <=? Cache1.Size c)%Z eqn:E2;
      simpl; try (exfalso; lia);
      rewrite Cache1_Get_store; case_decide; congruence.
Qed.

Lemma Cache1_keyed_store v c : Cache1_keyed c → Cache1_keyed (Cache1.store v c).
Proof.
  intros Hc k x. rewrite Cache1_Get_store. case_decide; [congruence|apply Hc].
Qed.

Lemma Cache1_keyed_delete c k0 :
  Cache1_keyed c → Cache1_keyed (Cache1.with_Cache (delete k0) c).
Proof.
  intros Hc k x. unfold Cache1.Get. simpl. intros Hk.
  apply lookup_delete_Some in Hk as [_ Hk]. exact (Hc k x Hk).
Qed.

Lemma Cache1_keyed_apply_op c op :
  Cache1_op_keeps_key op → Cache1_keyed c → Cache1_keyed (Cache1_apply_op c op).
Proof.
  intros Hop Hc. destruct op as [o v|id|id updater]; simpl.
  - rewrite Cache1_Set_cases. destruct (Cache1_refuses c v); [exact Hc|].
    destruct (_ && _); apply Cache1_keyed_store; [|exact Hc].
    unfold Cache1.evict_one. destruct (range_first o (Cache1.Cache c)); [|exact Hc].
    apply Cache1_keyed_delete, Hc.
  - apply Cache1_keyed_delete, Hc.
  - unfold Cache1.PartiallyUpdate.
    destruct (Cache1.Cache c !! id) as [x|] eqn:Hx; [|exact Hc]. simpl.
    intros k y. unfold Cache1.Get. simpl. rewrite lookup_insert.
    case_decide as Hk; [|apply Hc].
    intros [= <-]. rewrite (Hop x). subst k. exact (Hc id x Hx).
Qed.
End Cache1_more.

Section Cache2_more.
Context {T : Type} `{Cacheable T}.
Implicit Types (c : Cache2.t T) (rt : Cache2.Ranges) (v : T).

Lemma Cache2_Get_ins c parent v p k :
  Cache2.Get (Cache2.ins c parent v) p k =
    if decide (parent = p ∧ GetKey v = k) then Some v else Cache2.Get c p k.
Proof.
  unfold Cache2.Get, Cache2.ins.
  destruct (Cache2.Cache c !! parent) as [m|] eqn:Hm.
  - assert (Hcache : ∀ c', Cache2.Cache
              (if negb (bool_decide (is_Some (m !! GetKey v)))
               then Cache2.with_total Z.succ c' else c') = Cache2.Cache c').
    { intros c'. destruct (negb _); reflexivity. }
    rewrite Hcache. simpl. destruct (decide (parent = p)) as [->|Hp].
    + rewrite lookup_insert_eq, lookup_insert, Hm.
      repeat case_decide; try reflexivity; intuition congruence.
    + rewrite lookup_insert_ne by exact Hp.
      case_decide; [intuition congruence|reflexivity].
  - simpl. destruct (decide (parent = p)) as [->|Hp].
    + rewrite lookup_insert_eq, Hm. rewrite lookup_singleton.
      repeat case_decide; try reflexivity; intuition congruence.
    + rewrite lookup_insert_ne by exact Hp.
      case_decide; [intuition congruence|reflexivity].
Qed.

Lemma Cache2_resize_refuses rt c parent v :
  Cache2.resize rt c parent v =
    if Cache2_refuses c parent v then (false, c)
    else (true, (Cache2.resize rt c parent v).2).
Proof.
  unfold Cache2.resize, Cache2_refuses.
  destruct (_ && _ && (Cache2.TotalMaxSize c =? 0)%Z); [reflexivity|]. simpl.
  destruct ((Cache2.TotalMaxSize c <? 0)%Z || (0 <? Cache2.MaxSize1 c)%Z);
    [|reflexivity]. simpl.
  destruct (Cache2.vetoed c parent v); [reflexivity|]. simpl.
  destruct (_ && _ && (Cache2.total c =? Cache2.TotalMaxSize c)%Z); simpl;
    [destruct (Cache2.DontInsertIfOverflow c); simpl; [reflexivity|]|];
    repeat case_match; reflexivity.
Qed.

Lemma Cache2_Set_cases rt c parent v :
  if Cache2_refuses c parent v then Cache2.Set_ rt c parent v = c
  else Cache2.Get (Cache2.Set_ rt c parent v) parent (GetKey v) = Some v.
Proof.
  unfold Cache2.Set_. rewrite Cache2_resize_refuses.
  destruct (Cache2_refuses c parent v); [reflexivity|].
  rewrite Cache2_Get_ins. case_decide; [reflexivity|intuition congruence].
Qed.

(** X5. [Set] on a parent-scoped cache is all or nothing as well: either
    the cache is left as it is (no limit configured, a veto of the checker,
    or the count at a negative total cap under [DontInsertIfOverflow]), or
    the entity can be read back under its parent and key at once. *)
Theorem Cache2_Set_then_Get rt c parent v :
  if Cache2_refuses c parent v then Cache2.Set_ rt c parent v = c
  else Cache2.Get (Cache2.Set_ rt c parent v) parent (GetKey v) = Some v.
Proof. apply Cache2_Set_cases. Qed.

Lemma Cache2_keeps_config_del c parent id :
  Cache2.MaxSize1 (Cache2.del c parent id) = Cache2.MaxSize1 c ∧
  Cache2.MaxSize2 (Cache2.del c parent id) = Cache2.MaxSize2 c ∧
  Cache2.TotalMaxSize (Cache2.del c parent id) = Cache2.TotalMaxSize c.
Proof.
  unfold Cache2.del. destruct (Cache2.Cache c !! parent); [|auto].
  destruct (bool_decide _); auto.
Qed.

Lemma Cache2_Cache_del c parent id :
  Cache2.Cache (Cache2.del c parent id) =
    match Cache2.Cache c !! parent with
    | Some p => <[parent := delete id p]> (Cache2.Cache c)
    | None => Cache2.Cache c
    end.
Proof.
  unfold Cache2.del. destruct (Cache2.Cache c !! parent); [|reflexivity].
  destruct (bool_decide _); reflexivity.
Qed.

Lemma Cache2_Cache_ins c parent v :
  Cache2.Cache (Cache2.ins c parent v) =
    <[parent := <[GetKey v := v]> (default ∅ (Cache2.Cache c !! parent))]> (Cache2.Cache c).
Proof.
  unfold Cache2.ins. destruct (Cache2.Cache c !! parent) as [m|]; simpl.
  - destruct (negb _); reflexivity.
  - rewrite insert_empty. reflexivity.
Qed.

Lemma Cache2_keeps_config_ins c parent v :
  Cache2.MaxSize1 (Cache2.ins c parent v) = Cache2.MaxSize1 c ∧
  Cache2.MaxSize2 (Cache2.ins c parent v) = Cache2.MaxSize2 c ∧
  Cache2.TotalMaxSize (Cache2.ins c parent v) = Cache2.TotalMaxSize c.
Proof.
  unfold Cache2.ins. destruct (Cache2.Cache c !! parent); [|auto].
  destruct (negb _); auto.
Qed.

(** What [Set] does when a limit on groups is configured, or a limit per
    group together with a negative total cap: the total cap plays no part,
    an entry of the parent's group goes if that group is at its limit, a
    group goes if the parent is new and the groups are at their limit, and
    the entity is inserted. *)
Lemma Cache2_Set_limited rt c parent v :
  (0 < Cache2.MaxSize1 c)%Z ∨ ((Cache2.TotalMaxSize c < 0)%Z ∧ Cache2.MaxSize2 c ≠ 0%Z) →
  Cache2_refuses c parent v = false →
  let o := default ∅ (Cache2.Cache c !! parent) in
  let k := bool_decide (is_Some (Cache2.Cache c !! parent)) in
  Cache2.Set_ rt c parent v =
    Cache2.ins
      (match (if k && negb (Cache2.MaxSize2 c =? 0)%Z && (Cache2.MaxSize2 c <=? len o)%Z
              then range_first (Cache2.first_entry rt parent) o else None) with
       | Some k2 => Cache2.del c parent k2
       | None =>
           match (if negb (Cache2.MaxSize1 c =? 0)%Z
                     && (Cache2.MaxSize1 c <=? len (Cache2.Cache c))%Z && negb k
                  then range_first (Cache2.first_group rt) (Cache2.Cache c) else None) with
           | Some k1 => Cache2.drop_group c k1
           | None => c
           end
       end) parent v.
Proof.
  intros Hlim Href o k. unfold Cache2.Set_. rewrite Cache2_resize_refuses, Href.
  unfold Cache2.resize, Cache2_refuses in *.
  assert (Hat : (Cache2.MaxSize1 c =? 0)%Z && (Cache2.MaxSize2 c =? 0)%Z = false).
  { destruct Hlim as [H1|[_ H2]].
    - destruct (Cache2.MaxSize1 c =? 0)%Z eqn:E; [lia|reflexivity].
    - destruct (Cache2.MaxSize2 c =? 0)%Z eqn:E; [lia|]. apply andb_false_r. }
  assert (Hcase : (Cache2.TotalMaxSize c <? 0)%Z || (0 <? Cache2.MaxSize1 c)%Z = true).
  { apply orb_true_iff. destruct Hlim as [H1|[H2 _]]; [right|left]; lia. }
  rewrite Hat, Hcase in *. simpl in *.
  destruct (Cache2.vetoed c parent v); [discriminate|]. simpl.
  fold o k. repeat case_match; reflexivity.
Qed.
End Cache2_more.

Section Cache2_bounds.
Context {T : Type} `{Cacheable T}.
Implicit Types (c : Cache2.t T) (rt : Cache2.Ranges) (v : T).

Lemma Cache2_same_limits_refl c : Cache2_same_limits c c.
Proof. repeat split. Qed.

Lemma Cache2_same_limits_trans c c' c'' :
  Cache2_same_limits c c' → Cache2_same_limits c' c'' → Cache2_same_limits c c''.
Proof. unfold Cache2_same_limits. intuition congruence. Qed.

Lemma Cache2_same_limits_del c parent id : Cache2_same_limits c (Cache2.del c parent id).
Proof. apply Cache2_keeps_config_del. Qed.

Lemma Cache2_same_limits_ins c parent v : Cache2_same_limits c (Cache2.ins c parent v).
Proof. apply Cache2_keeps_config_ins. Qed.

Lemma Cache2_same_limits_evict rt c :
  Cache2_same_limits c (Cache2.evict_in_each_group rt c).
Proof.
  unfold Cache2.evict_in_each_group. generalize (Cache2.groups_order rt).
  intros order. revert c. induction order as [|k1 order IH]; intros c; simpl.
  - apply Cache2_same_limits_refl.
  - eapply Cache2_same_limits_trans; [|apply IH].
    destruct (Cache2.Cache c !! k1) as [v1|]; [|apply Cache2_same_limits_refl].
    destruct (range_first _ v1);
      [apply Cache2_same_limits_del|apply Cache2_same_limits_refl].
Qed.

Lemma Cache2_same_limits_drop_group c k : Cache2_same_limits c (Cache2.drop_group c k).
Proof. repeat split. Qed.

Lemma Cache2_same_limits_resize rt c parent v :
  Cache2_same_limits c (Cache2.resize rt c parent v).2.
Proof.
  unfold Cache2.resize.
  repeat (case_match; simpl);
    first
      [ apply Cache2_same_limits_refl
      | apply Cache2_same_limits_evict
      | apply Cache2_same_limits_del
      | apply Cache2_same_limits_drop_group
      | eapply Cache2_same_limits_trans;
        [apply Cache2_same_limits_evict
        |first [apply Cache2_same_limits_del|apply Cache2_same_limits_drop_group]] ].
Qed.

Lemma Cache2_same_limits_apply_op c op : Cache2_same_limits c (Cache2.apply_op c op).
Proof.
  destruct op as [rt parent v|parent id|parent|parent id updater]; simpl.
  - unfold Cache2.Set_.
    pose proof (Cache2_same_limits_resize rt c parent v) as Hr.
    destruct (Cache2.resize rt c parent v) as [[] c']; simpl in *; [|exact Hr].
    eapply Cache2_same_limits_trans; [exact Hr|apply Cache2_same_limits_ins].
  - apply Cache2_same_limits_del.
  - unfold Cache2.DelGroup. destruct (Cache2.Cache c !! parent); repeat split.
  - unfold Cache2.PartiallyUpdate. destruct (Cache2.Cache c !! parent) as [x|];
      [|repeat split]. destruct (x !! id); repeat split.
Qed.

Lemma Cache2_same_limits_run_ops ops : ∀ c, Cache2_same_limits c (Cache2.run_ops c ops).
Proof.
  induction ops as [|op ops IH]; intros c; simpl; [apply Cache2_same_limits_refl|].
  eapply Cache2_same_limits_trans; [apply Cache2_same_limits_apply_op|apply IH].
Qed.

Lemma Cache2_Set_refused rt c parent v :
  Cache2_refuses c parent v = true → Cache2.Set_ rt c parent v = c.
Proof.
  intros Href. pose proof (Cache2_Set_cases rt c parent v) as Hs.
  rewrite Href in Hs. exact Hs.
Qed.

Lemma len_Cache_ins c parent v :
  len (Cache2.Cache (Cache2.ins c parent v)) =
    if bool_decide (is_Some (Cache2.Cache c !! parent)) then len (Cache2.Cache c)
    else (len (Cache2.Cache c) + 1)%Z.
Proof.
  rewrite Cache2_Cache_ins. case_bool_decide as Hp.
  - apply len_insert_Some, Hp.
  - apply len_insert_None. destruct (Cache2.Cache c !! parent) eqn:E; [|reflexivity].
    exfalso. apply Hp. eauto.
Qed.

(** The number of groups after one call. *)
Lemma Cache2_groups_apply_op c op :
  (0 < Cache2.MaxSize1 c)%Z →
  (Cache2.GroupsCount c ≤ Cache2.MaxSize1 c)%Z →
  (Cache2.GroupsCount (Cache2.apply_op c op) ≤ Cache2.MaxSize1 c)%Z.
Proof.
  intros Hmax Hc. unfold Cache2.GroupsCount in *.
  destruct op as [rt parent v|parent id|parent|parent id updater]; simpl.
  - destruct (Cache2_refuses c parent v) eqn:Href;
      [rewrite Cache2_Set_refused by exact Href; exact Hc|].
    rewrite Cache2_Set_limited; [|left; exact Hmax|exact Href].
    rewrite len_Cache_ins.
    destruct (Cache2.Cache c !! parent) as [p|] eqn:Hp.
    + rewrite (bool_decide_eq_true_2 (is_Some (Some p))) by (eexists; reflexivity).
      cbn [negb andb default from_option Datatypes.id]. rewrite andb_false_r.
      match goal with
      | |- context [match ?x with Some _ => _ | None => _ end] => destruct x as [k2|]
      end.
      * rewrite Cache2_Cache_del, Hp. rewrite lookup_insert_eq.
        rewrite bool_decide_eq_true_2 by (eexists; reflexivity).
        rewrite len_insert_Some by (eexists; exact Hp). exact Hc.
      * rewrite Hp. rewrite bool_decide_eq_true_2 by (eexists; reflexivity). exact Hc.
    + rewrite (bool_decide_eq_false_2 (is_Some None)) by (intros [? ?]; discriminate).
      cbn [negb andb default from_option Datatypes.id]. rewrite andb_true_r.
      destruct (Cache2.MaxSize1 c =? 0)%Z eqn:E0; [lia|]. cbn [negb andb].
      destruct (Cache2.MaxSize1 c <=? len (Cache2.Cache c))%Z eqn:Efull.
      * destruct (range_first (Cache2.first_group rt) (Cache2.Cache c)) as [k1|] eqn:Hk1.
        -- pose proof (range_first_lookup _ _ _ Hk1) as Hin.
           assert (k1 ≠ parent) by (intros ->; rewrite Hp in Hin; destruct Hin; discriminate).
           unfold Cache2.drop_group. cbn [Cache2.Cache Cache2.with_Cache Cache2.with_total].
           rewrite lookup_delete_ne, Hp by assumption.
           rewrite (bool_decide_eq_false_2 (is_Some None)) by (intros [? ?]; discriminate).
           rewrite len_delete_Some by exact Hin. lia.
        -- apply first_key_none, dom_empty_inv_L in Hk1. rewrite Hk1 in Efull.
           rewrite len_empty in Efull. lia.
      * rewrite Hp.
        rewrite (bool_decide_eq_false_2 (is_Some None)) by (intros [? ?]; discriminate).
        lia.
  - unfold Cache2.Del. rewrite Cache2_Cache_del.
    destruct (Cache2.Cache c !! parent) as [p|] eqn:Hp; [|exact Hc].
    rewrite len_insert_Some by (eexists; exact Hp). exact Hc.
  - unfold Cache2.DelGroup. destruct (Cache2.Cache c !! parent) as [p|] eqn:Hp;
      [|exact Hc]. simpl. rewrite len_delete_Some by (eexists; eassumption). lia.
  - unfold Cache2.PartiallyUpdate.
    destruct (Cache2.Cache c !! parent) as [x|] eqn:Hp; [|exact Hc].
    destruct (x !! id); [|exact Hc]. simpl.
    rewrite len_insert_Some by (eexists; exact Hp). exact Hc.
Qed.

(** X6. With a limit on groups configured ([MaxSize1 > 0]), the number of
    groups never exceeds it, in any state the cache reaches from its empty
    start; a group that has lost all its entries through [Del] still
    counts. *)
Theorem Cache2_groups_bound
    (checker : option (Cache2.CheckContext T → bool))
    (maxSize1 maxSize2 totalMaxSize : Z) (dont : bool) (ops : list (Cache2.op T)) :
  (0 < maxSize1)%Z →
  (Cache2.GroupsCount
     (Cache2.run_ops (Cache2.init checker maxSize1 maxSize2 totalMaxSize dont) ops)
   ≤ maxSize1)%Z.
Proof.
  intros Hmax.
  set (c0 := Cache2.init checker maxSize1 maxSize2 totalMaxSize dont).
  assert (Hgen : ∀ ops c, Cache2.MaxSize1 c = maxSize1 →
            (Cache2.GroupsCount c ≤ maxSize1)%Z →
            (Cache2.GroupsCount (Cache2.run_ops c ops) ≤ maxSize1)%Z).
  { clear ops. induction ops as [|op ops IH]; intros c Hm Hc; simpl; [exact Hc|].
    apply IH.
    - destruct (Cache2_same_limits_apply_op c op) as (-> & _). exact Hm.
    - rewrite <- Hm. apply Cache2_groups_apply_op; rewrite Hm; assumption. }
  apply Hgen; [reflexivity|].
  unfold Cache2.GroupsCount, c0. simpl. rewrite len_empty. lia.
Qed.

Lemma Cache2_Cache_PartiallyUpdate c parent id (updater : T → T) :
  Cache2.Cache (Cache2.apply_op c (Cache2.OpPartiallyUpdate parent id updater)) =
    match Cache2.Cache c !! parent with
    | Some x =>
        match x !! id with
        | Some y => <[parent := <[id := updater y]> x]> (Cache2.Cache c)
        | None => Cache2.Cache c
        end
    | None => Cache2.Cache c
    end.
Proof.
  simpl. unfold Cache2.PartiallyUpdate.
  destruct (Cache2.Cache c !! parent) as [x|]; [|reflexivity].
  destruct (x !! id); reflexivity.
Qed.

Lemma Cache2_groups_within_ins n c parent v :
  (∀ q g, q ≠ parent → Cache2.Cache c !! q = Some g → (len g ≤ n)%Z) →
  (len (<[GetKey v := v]> (default ∅ (Cache2.Cache c !! parent))) ≤ n)%Z →
  Cache2_groups_within n (Cache2.ins c parent v).
Proof.
  intros Hothers Hparent q g. rewrite Cache2_Cache_ins.
  destruct (decide (parent = q)) as [<-|Hq].
  - rewrite lookup_insert_eq. intros [= <-]. exact Hparent.
  - rewrite lookup_insert_ne by exact Hq. apply Hothers. congruence.
Qed.

(** The entries per group after one call. *)
Lemma Cache2_groups_within_apply_op c op :
  Cache2.MaxSize2 c ≠ 0%Z →
  (0 < Cache2.MaxSize1 c)%Z ∨ (Cache2.TotalMaxSize c < 0)%Z →
  Cache2_groups_within (Z.max 1 (Cache2.MaxSize2 c)) c →
  Cache2_groups_within (Z.max 1 (Cache2.MaxSize2 c)) (Cache2.apply_op c op).
Proof.
  intros Hm2 Hlim Hc.
  destruct op as [rt parent v|parent id|parent|parent id updater]; cbn [Cache2.apply_op].
  - destruct (Cache2_refuses c parent v) eqn:Href;
      [rewrite Cache2_Set_refused by exact Href; exact Hc|].
    rewrite Cache2_Set_limited; [|tauto|exact Href].
    destruct (Cache2.Cache c !! parent) as [p|] eqn:Hp.
    + rewrite (bool_decide_eq_true_2 (is_Some (Some p))) by (eexists; reflexivity).
      cbn [negb andb default from_option Datatypes.id]. rewrite andb_false_r.
      destruct (Cache2.MaxSize2 c =? 0)%Z eqn:E0; [lia|]. cbn [negb andb].
      pose proof (Hc parent p Hp) as Hlen.
      destruct (Cache2.MaxSize2 c <=? len p)%Z eqn:Efull.
      * destruct (range_first (Cache2.first_entry rt parent) p) as [k2|] eqn:Hk2;
          cbv iota beta.
        -- apply Cache2_groups_within_ins.
           ++ intros q g Hq. rewrite Cache2_Cache_del, Hp.
              rewrite lookup_insert_ne by congruence. apply Hc.
           ++ rewrite Cache2_Cache_del, Hp, lookup_insert_eq. simpl.
              pose proof (len_insert_le (delete k2 p) (GetKey v) v).
              rewrite len_delete_Some in * by exact (range_first_lookup _ _ _ Hk2). lia.
        -- apply first_key_none, dom_empty_inv_L in Hk2. subst p.
           apply Cache2_groups_within_ins.
           ++ intros q g _. apply Hc.
           ++ rewrite Hp. simpl. pose proof (len_insert_le (∅ : gmap ULID T) (GetKey v) v).
              rewrite len_empty in *. lia.
      * cbv iota beta. apply Cache2_groups_within_ins.
        -- intros q g _. apply Hc.
        -- rewrite Hp. simpl. pose proof (len_insert_le p (GetKey v) v). lia.
    + rewrite (bool_decide_eq_false_2 (is_Some None)) by (intros [? ?]; discriminate).
      cbn [negb andb default from_option Datatypes.id]. rewrite andb_true_r.
      assert (Hnew : ∀ c', Cache2.Cache c' !! parent = None →
                (∀ q g, Cache2.Cache c' !! q = Some g → Cache2.Cache c !! q = Some g) →
                Cache2_groups_within (Z.max 1 (Cache2.MaxSize2 c)) (Cache2.ins c' parent v)).
      { intros c' Hnone Hsub. apply Cache2_groups_within_ins.
        - intros q g _ Hq. apply (Hc q g), Hsub, Hq.
        - rewrite Hnone. simpl. pose proof (len_insert_le (∅ : gmap ULID T) (GetKey v) v).
          rewrite len_empty in *. lia. }
      match goal with
      | |- context [match ?x with Some _ => _ | None => _ end] => destruct x as [k1|]
      end.
      * apply Hnew.
        -- unfold Cache2.drop_group. simpl. apply lookup_delete_None. right. exact Hp.
        -- intros q g. unfold Cache2.drop_group. simpl.
           intros Hq. apply lookup_delete_Some in Hq as [_ Hq]. exact Hq.
      * apply Hnew; [exact Hp|auto].
  - unfold Cache2.Del. intros q g. rewrite Cache2_Cache_del.
    destruct (Cache2.Cache c !! parent) as [p|] eqn:Hp; [|apply Hc].
    destruct (decide (parent = q)) as [<-|Hq].
    + rewrite lookup_insert_eq. intros [= <-]. pose proof (Hc parent p Hp).
      destruct (p !! id) eqn:Hid.
      * rewrite len_delete_Some by eauto. lia.
      * rewrite len_delete_None by exact Hid. lia.
    + rewrite lookup_insert_ne by exact Hq. apply Hc.
  - unfold Cache2.DelGroup. destruct (Cache2.Cache c !! parent) as [p|] eqn:Hp;
      [|exact Hc]. intros q g. simpl. intros Hq.
    apply lookup_delete_Some in Hq as [_ Hq]. exact (Hc q g Hq).
  - intros q g. pose proof (Cache2_Cache_PartiallyUpdate c parent id updater) as Hpu.
    cbn [Cache2.apply_op] in Hpu. rewrite Hpu.
    destruct (Cache2.Cache c !! parent) as [x|] eqn:Hp; [|apply Hc].
    destruct (x !! id) eqn:Hid; [|apply Hc].
    destruct (decide (parent = q)) as [<-|Hq].
    + rewrite lookup_insert_eq. intros [= <-].
      rewrite len_insert_Some by eauto. exact (Hc parent x Hp).
    + rewrite lookup_insert_ne by exact Hq. apply Hc.
Qed.

(** X7. With a limit per group configured ([MaxSize2] not zero) next to a
    limit on groups or a negative total cap, no group ever holds more than
    [MaxSize2] entries; a negative [MaxSize2] keeps every group at one
    entry at most. *)
Theorem Cache2_group_size_bound
    (checker : option (Cache2.CheckContext T → bool))
    (maxSize1 maxSize2 totalMaxSize : Z) (dont : bool) (ops : list (Cache2.op T)) :
  maxSize2 ≠ 0%Z →
  (0 < maxSize1)%Z ∨ (totalMaxSize < 0)%Z →
  Cache2_groups_within (Z.max 1 maxSize2)
    (Cache2.run_ops (Cache2.init checker maxSize1 maxSize2 totalMaxSize dont) ops).
Proof.
  intros Hm2 Hlim.
  assert (Hgen : ∀ ops c,
            Cache2_same_limits (Cache2.init checker maxSize1 maxSize2 totalMaxSize dont) c →
            Cache2_groups_within (Z.max 1 maxSize2) c →
            Cache2_groups_within (Z.max 1 maxSize2) (Cache2.run_ops c ops)).
  { clear ops. induction ops as [|op ops IH]; intros c Hcfg Hc; simpl; [exact Hc|].
    apply IH.
    - eapply Cache2_same_limits_trans; [exact Hcfg|apply Cache2_same_limits_apply_op].
    - destruct Hcfg as (H1 & H2 & H3). simpl in H1, H2, H3.
      rewrite <- H2. apply Cache2_groups_within_apply_op; rewrite ?H1, ?H2, ?H3; assumption. }
  apply Hgen; [apply Cache2_same_limits_refl|].
  intros q g Hq. simpl in Hq. rewrite lookup_empty in Hq. discriminate.
Qed.
End Cache2_bounds.

Section Caches_keyed.
Context {T : Type} `{Cacheable T}.
Implicit Types (c : Cache2.t T) (rt : Cache2.Ranges) (v : T).

(** X1. A cache without a configured capacity accepts nothing: whatever is
    called on it, it stays the empty cache it started as, so every [Get]
    misses. *)
Theorem unconfigured_caches_stay_empty
    (checker1 : option (Cache1.CheckContext T → bool)) (dont1 : bool)
    (ops1 : list (Cache1_op T))
    (checker2 : option (Cache2.CheckContext T → bool)) (dont2 : bool)
    (ops2 : list (Cache2.op T)) :
  Cache1_run_ops (Cache1.init checker1 dont1 0) ops1 = Cache1.init checker1 dont1 0 ∧
  Cache2.run_ops (Cache2.init checker2 0 0 0 dont2) ops2 = Cache2.init checker2 0 0 0 dont2.
Proof.
  split.
  - induction ops1 as [|op ops IH]; [reflexivity|]. simpl.
    replace (Cache1_apply_op (Cache1.init checker1 dont1 0) op)
      with (Cache1.init checker1 dont1 0); [exact IH|].
    destruct op as [o v|id|id updater]; try reflexivity.
  - induction ops2 as [|op ops IH]; [reflexivity|]. simpl.
    replace (Cache2.apply_op (Cache2.init checker2 0 0 0 dont2) op)
      with (Cache2.init checker2 0 0 0 dont2); [exact IH|].
    destruct op as [rt parent v|parent id|parent|parent id updater]; reflexivity.
Qed.

Lemma Cache2_Del_cases c parent id :
  (∀ p k, Cache2.Get (Cache2.Del c parent id) p k =
            if decide (parent = p ∧ id = k) then None else Cache2.Get c p k) ∧
  Cache2.GroupsCount (Cache2.Del c parent id) = Cache2.GroupsCount c.
Proof.
  unfold Cache2.Del, Cache2.GroupsCount, Cache2.Get. rewrite Cache2_Cache_del. split.
  - intros p k. destruct (Cache2.Cache c !! parent) as [g|] eqn:Hg.
    + destruct (decide (parent = p)) as [<-|Hp].
      * rewrite lookup_insert_eq, Hg, lookup_delete.
        repeat case_decide; try reflexivity; intuition congruence.
      * rewrite lookup_insert_ne by exact Hp.
        case_decide; [intuition congruence|reflexivity].
    + case_decide as Hd; [|reflexivity]. destruct Hd as [<- _]. rewrite Hg. reflexivity.
  - destruct (Cache2.Cache c !! parent) as [g|] eqn:Hg; [|reflexivity].
    apply len_insert_Some. eauto.
Qed.

(** X8. [Del] on a parent-scoped cache removes the entry named and no
    other; the group stays, also when it has become empty, so the number
    of groups is as before. *)
Theorem Cache2_Del_removes_one c parent id :
  (∀ p k, Cache2.Get (Cache2.Del c parent id) p k =
            if decide (parent = p ∧ id = k) then None else Cache2.Get c p k) ∧
  Cache2.GroupsCount (Cache2.Del c parent id) = Cache2.GroupsCount c.
Proof. apply Cache2_Del_cases. Qed.

Lemma Cache2_within_del c parent id : Cache2_within (Cache2.del c parent id) c.
Proof.
  intros p k v. destruct (Cache2_Del_cases c parent id) as [Hget _].
  unfold Cache2.Del in Hget. rewrite Hget. case_decide; [discriminate|auto].
Qed.

Lemma Cache2_within_drop_group c k1 : Cache2_within (Cache2.drop_group c k1) c.
Proof.
  intros p k v. unfold Cache2.Get, Cache2.drop_group. simpl.
  destruct (decide (k1 = p)) as [->|Hp].
  - rewrite lookup_delete_eq. discriminate.
  - rewrite lookup_delete_ne by exact Hp. auto.
Qed.

Lemma Cache2_within_evict rt c : Cache2_within (Cache2.evict_in_each_group rt c) c.
Proof.
  unfold Cache2.evict_in_each_group. generalize (Cache2.groups_order rt).
  intros order. revert c. induction order as [|k1 order IH]; intros c; simpl.
  - intros p k v Hv. exact Hv.
  - intros p k v Hv. apply IH in Hv.
    destruct (Cache2.Cache c !! k1) as [v1|]; [|exact Hv].
    destruct (range_first _ v1); [|exact Hv].
    exact (Cache2_within_del c k1 _ p k v Hv).
Qed.

Lemma Cache2_within_resize rt c parent v :
  Cache2_within (Cache2.resize rt c parent v).2 c.
Proof.
  unfold Cache2.resize. intros p k x.
  repeat (case_match; simpl); intros Hx; try exact Hx;
    repeat first
      [ exact Hx
      | apply Cache2_within_evict in Hx
      | apply Cache2_within_del in Hx
      | apply Cache2_within_drop_group in Hx ].
Qed.

Lemma Cache2_keyed_apply_op c op :
  Cache2_op_keeps_key op → Cache2_keyed c → Cache2_keyed (Cache2.apply_op c op).
Proof.
  intros Hop Hc. destruct op as [rt parent v|parent id|parent|parent id updater];
    cbn [Cache2.apply_op].
  - unfold Cache2.Set_.
    pose proof (Cache2_within_resize rt c parent v) as Hr.
    destruct (Cache2.resize rt c parent v) as [[] c']; simpl in Hr.
    + intros p k x. rewrite Cache2_Get_ins. case_decide as Hd.
      * intros [= <-]. apply Hd.
      * intros Hx. exact (Hc p k x (Hr p k x Hx)).
    + intros p k x Hx. exact (Hc p k x (Hr p k x Hx)).
  - intros p k x Hx. exact (Hc p k x (Cache2_within_del c parent id p k x Hx)).
  - unfold Cache2.DelGroup. destruct (Cache2.Cache c !! parent) as [g|] eqn:Hg;
      [|exact Hc]. intros p k x. unfold Cache2.Get. simpl.
    destruct (decide (parent = p)) as [->|Hp].
    + rewrite lookup_delete_eq. discriminate.
    + rewrite lookup_delete_ne by exact Hp. apply Hc.
  - intros p k x. unfold Cache2.Get.
    pose proof (Cache2_Cache_PartiallyUpdate c parent id updater) as Hpu.
    cbn [Cache2.apply_op] in Hpu. rewrite Hpu.
    destruct (Cache2.Cache c !! parent) as [g|] eqn:Hg; [|apply Hc].
    destruct (g !! id) as [y|] eqn:Hy; [|apply Hc].
    destruct (decide (parent = p)) as [<-|Hp].
    + rewrite lookup_insert_eq, lookup_insert. case_decide as Hk.
      * intros [= <-]. subst k. simpl in Hop. rewrite Hop.
        apply (Hc parent id y). unfold Cache2.Get. rewrite Hg. exact Hy.
      * intros Hx. apply (Hc parent k x). unfold Cache2.Get. rewrite Hg. exact Hx.
    + rewrite lookup_insert_ne by exact Hp. apply Hc.
Qed.

(** X4. As long as updaters leave the key of the entity they are given
    alone, every entity a cache returns carries the key it was asked for:
    the caches store each entity under its own [GetKey], through every
    [Set], eviction, [Del], [DelGroup] and [PartiallyUpdate]. *)
Theorem caches_return_the_key_asked_for
    (c1 : Cache1.t T) (ops1 : list (Cache1_op T))
    (c2 : Cache2.t T) (ops2 : list (Cache2.op T)) :
  Cache1.Cache c1 = ∅ → Cache2.Cache c2 = ∅ →
  Forall Cache1_op_keeps_key ops1 → Forall Cache2_op_keeps_key ops2 →
  (∀ k v, Cache1.Get (Cache1_run_ops c1 ops1) k = Some v → GetKey v = k) ∧
  (∀ parent k v, Cache2.Get (Cache2.run_ops c2 ops2) parent k = Some v → GetKey v = k).
Proof.
  intros He1 He2 Hops1 Hops2. split.
  - assert (Hc : Cache1_keyed c1).
    { intros k v. unfold Cache1.Get. rewrite He1, lookup_empty. discriminate. }
    clear He1. revert c1 Hc. induction Hops1 as [|op ops Hop _ IH]; intros c1 Hc.
    + exact Hc.
    + simpl. apply IH, Cache1_keyed_apply_op; assumption.
  - assert (Hc : Cache2_keyed c2).
    { intros p k v. unfold Cache2.Get. rewrite He2, lookup_empty. discriminate. }
    clear He2. revert c2 Hc. induction Hops2 as [|op ops Hop _ IH]; intros c2 Hc.
    + exact Hc.
    + simpl. apply IH, Cache2_keyed_apply_op; assumption.
Qed.
End Caches_keyed.

(** * The caches of a socket *)
Section GenericCache_facts.
Context {Channel CustomEmoji Message Member Role Server User Webhook : Type}.
#[local] Abbreviation GC :=
  (GenericCache Channel CustomEmoji Message Member Role Server User Webhook).

(** X9. [init] creates each of the seven caches it names when it is
    missing, keeps each of them that was configured, and neither creates
    nor touches [Webhooks]; a second [init] changes nothing.  So after
    [init] the follow-ups of "ChannelDelete", "EmojiDelete",
    "MessageDelete", "BulkDeleteMessage", "ServerRoleDelete" and
    "ServerDelete" find their caches, and the follow-up of "WebhookDelete"
    dereferences nil unless the user supplied a webhook cache. *)
Theorem GenericCache_init_skips_Webhooks (gc : GC) :
  let gc' := GenericCache_init gc in
  (Channels gc' = Some (default Cache1_zero (Channels gc)) ∧
   Emojis gc' = Some (default Cache1_zero (Emojis gc)) ∧
   Messages gc' = Some (default Cache2_zero (Messages gc)) ∧
   Members gc' = Some (default Cache2_zero (Members gc)) ∧
   Roles gc' = Some (default Cache2_zero (Roles gc)) ∧
   Servers gc' = Some (default Cache1_zero (Servers gc)) ∧
   Users gc' = Some (default Cache1_zero (Users gc)) ∧
   Webhooks gc' = Webhooks gc) ∧
  GenericCache_init gc' = gc' ∧
  (∀ parent id ids,
     is_Some (ChannelDelete_followUp id gc') ∧ is_Some (EmojiDelete_followUp id gc') ∧
     is_Some (MessageDelete_followUp parent id gc') ∧
     is_Some (BulkDeleteMessage_followUp parent ids gc') ∧
     is_Some (ServerRoleDelete_followUp parent id gc') ∧
     is_Some (ServerDelete_followUp id gc')) ∧
  (∀ id, WebhookDelete_followUp id gc' = None ↔ Webhooks gc = None).
Proof.
  intros gc'. split; [repeat split|]. split; [reflexivity|]. split.
  - intros parent id ids. repeat split; try (eexists; reflexivity).
    destruct ids; eexists; reflexivity.
  - intros id. unfold WebhookDelete_followUp, gc'. simpl.
    destruct (Webhooks gc); split; intros Hw; try reflexivity; discriminate.
Qed.

(** X10. The follow-up of "ServerDelete" removes the server and all the
    roles cached under it, and nothing else: the roles of other servers
    and the other servers read as before. *)
Theorem ServerDelete_cascades (ServerID : ULID) (gc gc' : GC) roles servers :
  Roles gc = Some roles → Servers gc = Some servers →
  ServerDelete_followUp ServerID gc = Some gc' →
  ∃ roles' servers',
    Roles gc' = Some roles' ∧ Servers gc' = Some servers' ∧
    (∀ p k, Cache2.Get roles' p k = if decide (p = ServerID) then None
                                     else Cache2.Get roles p k) ∧
    Cache2.Cache roles' !! ServerID = None ∧
    (∀ k, Cache1.Get servers' k = if decide (k = ServerID) then None
                                  else Cache1.Get servers k) ∧
    Channels gc' = Channels gc ∧ Messages gc' = Messages gc ∧
    Members gc' = Members gc ∧ Users gc' = Users gc.
Proof.
  intros Hr Hs Hf. unfold ServerDelete_followUp in Hf. rewrite Hr, Hs in Hf.
  injection Hf as <-. eexists _, _. simpl.
  split; [reflexivity|]. split; [reflexivity|]. split; [|split; [|split]].
  - intros p k. unfold Cache2.Get, Cache2.DelGroup.
    destruct (Cache2.Cache roles !! ServerID) as [g|] eqn:Hg; simpl.
    + case_decide as Hp.
      * subst p. rewrite lookup_delete_eq. reflexivity.
      * rewrite lookup_delete_ne by congruence. reflexivity.
    + case_decide as Hp; [|reflexivity]. subst p. rewrite Hg. reflexivity.
  - unfold Cache2.DelGroup.
    destruct (Cache2.Cache roles !! ServerID) as [g|] eqn:Hg; simpl;
      [apply lookup_delete_eq|exact Hg].
  - intros k. unfold Cache1.Get, Cache1.Del. simpl. case_decide as Hk.
    + subst k. apply lookup_delete_eq.
    + apply lookup_delete_ne. congruence.
  - repeat split.
Qed.
End GenericCache_facts.

Section BulkDelete_facts.
Context {T : Type} `{Cacheable T}.

Lemma Cache2_Get_Dels (ids : list ULID) : ∀ (c : Cache2.t T) parent p k,
  Cache2.Get (foldl (λ c' i, Cache2.Del c' parent i) c ids) p k =
    if decide (p = parent ∧ k ∈ ids) then None else Cache2.Get c p k.
Proof.
  induction ids as [|i ids IH]; intros c parent p k; simpl.
  - case_decide as Hd; [|reflexivity]. destruct Hd as [_ Hk].
    apply elem_of_nil in Hk. contradiction.
  - rewrite IH. destruct (Cache2_Del_cases c parent i) as [Hget _].
    rewrite Hget. repeat case_decide; try reflexivity; exfalso;
      rewrite elem_of_cons in *; intuition (subst; eauto).
Qed.

Lemma Cache2_GroupsCount_Dels (ids : list ULID) : ∀ (c : Cache2.t T) parent,
  Cache2.GroupsCount (foldl (λ c' i, Cache2.Del c' parent i) c ids)
    = Cache2.GroupsCount c.
Proof.
  induction ids as [|i ids IH]; intros c parent; simpl; [reflexivity|].
  rewrite IH. apply Cache2_Del_cases.
Qed.

Lemma Cache2_counted_Dels (ids : list ULID) : ∀ (c : Cache2.t T) parent,
  Cache2.counted c → Cache2.counted (foldl (λ c' i, Cache2.Del c' parent i) c ids).
Proof.
  induction ids as [|i ids IH]; intros c parent Hc; simpl; [exact Hc|].
  apply IH, counted_del, Hc.
Qed.
End BulkDelete_facts.

Section BulkDelete_followUp_facts.
Context {Channel CustomEmoji Message Member Role Server User Webhook : Type}.
Context `{Cacheable Message}.
#[local] Abbreviation GC :=
  (GenericCache Channel CustomEmoji Message Member Role Server User Webhook).

(** X11. The follow-up of "BulkDeleteMessage" removes from the message
    cache the listed messages of the named channel and no other entry; the
    channel's group stays, and a count that was right stays right. *)
Theorem BulkDeleteMessage_removes_listed (ChannelID : ULID) (IDs : list ULID)
    (gc gc' : GC) (messages : Cache2.t Message) :
  Messages gc = Some messages →
  BulkDeleteMessage_followUp ChannelID IDs gc = Some gc' →
  ∃ messages',
    Messages gc' = Some messages' ∧
    (∀ p k, Cache2.Get messages' p k =
              if decide (p = ChannelID ∧ k ∈ IDs) then None else Cache2.Get messages p k) ∧
    Cache2.GroupsCount messages' = Cache2.GroupsCount messages ∧
    (Cache2.counted messages → Cache2.counted messages').
Proof.
  intros Hm Hf. unfold BulkDeleteMessage_followUp in Hf.
  destruct IDs as [|i ids].
  - injection Hf as <-. exists messages. split; [exact Hm|]. split; [|auto].
    intros p k. case_decide as Hd; [|reflexivity]. destruct Hd as [_ Hk].
    apply elem_of_nil in Hk. contradiction.
  - rewrite Hm in Hf. injection Hf as <-. eexists. split; [reflexivity|].
    split; [|split].
    + intros p k. apply (Cache2_Get_Dels (i :: ids)).
    + apply (Cache2_GroupsCount_Dels (i :: ids)).
    + apply (Cache2_counted_Dels (i :: ids)).
Qed.
End BulkDelete_followUp_facts.

(** * Subscriptions *)
Section Subscription_facts.
Context {F : Type}.
Implicit Types (ec : EventController F).

Lemma int_wrap_small z : (- 2 ^ 63 ≤ z < 2 ^ 63)%Z → int_wrap z = z.
Proof. intros Hz. unfold int_wrap. rewrite Z.mod_small by lia. lia. Qed.

Lemma issued_Listen f ec n :
  (n < 2 ^ 63 - 1)%Z → counted_to n ec →
  ID (Listen f ec).1 = (id ec + 1)%Z ∧
  ls (Listen f ec).2 = <[(id ec + 1)%Z := f]> (ls ec) ∧
  ls ec !! (id ec + 1)%Z = None ∧
  counted_to (n + 1) (Listen f ec).2.
Proof.
  intros Hn [[H0 Hkeys] Hle]. unfold Listen, inc. simpl.
  rewrite int_wrap_small by lia. split; [reflexivity|]. split; [reflexivity|].
  assert (Hfresh : ls ec !! (id ec + 1)%Z = None).
  { destruct (ls ec !! (id ec + 1)%Z) eqn:E; [|reflexivity].
    exfalso. specialize (Hkeys (id ec + 1)%Z ltac:(eauto)). lia. }
  split; [exact Hfresh|]. split; [split|]; simpl; try lia.
  intros k [g Hk]. apply lookup_insert_Some in Hk as [[<- _]|[_ Hk]]; [lia|].
  specialize (Hkeys k ltac:(eauto)). lia.
Qed.

Lemma issued_Delete s ec n : counted_to n ec → counted_to n (Delete s ec).
Proof.
  intros [[H0 Hkeys] Hle]. split; [split|]; simpl; try assumption.
  intros k [g Hk]. apply lookup_delete_Some in Hk as [_ Hk]. apply Hkeys. eauto.
Qed.

Lemma issued_apply ec o n :
  (n < 2 ^ 63 - 1)%Z → counted_to n ec → counted_to (n + 1) (EC_apply ec o).
Proof.
  intros Hn Hec. destruct o as [f|s|f]; cbn [EC_apply].
  - apply (issued_Listen f ec n Hn Hec).
  - destruct (issued_Delete s ec n Hec) as [Hi Hle]. split; [exact Hi|].
    simpl in *. lia.
  - unfold Override.
    refine (proj2 (proj2 (proj2 (issued_Listen f _ n Hn _)))).
    destruct Hec as [[H0 _] Hle].
    split; [split|]; simpl; try assumption.
    intros k [g Hk]. rewrite lookup_empty in Hk. discriminate.
Qed.

Lemma issued_run ops : ∀ ec n,
  (n + Z.of_nat (length ops) ≤ 2 ^ 63 - 1)%Z → counted_to n ec →
  counted_to (n + Z.of_nat (length ops)) (EC_run ec ops).
Proof.
  induction ops as [|o ops IH]; intros ec n Hn Hec; simpl.
  - rewrite Z.add_0_r. exact Hec.
  - simpl length in Hn. rewrite Nat2Z.inj_succ in *.
    replace (n + Z.succ (Z.of_nat (length ops)))%Z
      with ((n + 1) + Z.of_nat (length ops))%Z by lia.
    apply IH; [lia|]. apply issued_apply; [lia|exact Hec].
Qed.

(** X12. On a controller that has seen fewer than [2^63 - 1] calls since
    it was made, [Listen] hands out a number no live subscription holds: it
    adds the callback and leaves every other registration alone, and
    [Delete] on the handle it returned restores the registrations as they
    were. *)
Theorem Listen_hands_out_a_fresh_handle (ops : list (EC_op F)) (f : F) :
  (Z.of_nat (length ops) < 2 ^ 63 - 1)%Z →
  let ec := EC_run NewEventController ops in
  let s := (Listen f ec).1 in
  let ec' := (Listen f ec).2 in
  ls ec !! ID s = None ∧
  ls ec' = <[ID s := f]> (ls ec) ∧
  ls (Delete s ec') = ls ec.
Proof.
  intros Hlen ec s ec'.
  assert (Hec : counted_to (0 + Z.of_nat (length ops)) ec).
  { apply issued_run; [lia|]. split; [split|]; simpl; try lia.
    intros k [g Hk]. rewrite lookup_empty in Hk. discriminate. }
  destruct (issued_Listen f ec (0 + Z.of_nat (length ops)) ltac:(lia) Hec)
    as (Hid & Hls & Hfresh & _).
  subst s ec'. split; [rewrite Hid; exact Hfresh|]. split; [rewrite Hid; exact Hls|].
  unfold Delete. cbn [ls]. rewrite Hls, Hid, delete_insert_eq. apply delete_id, Hfresh.
Qed.

Lemma filter_registered_singleton (x : Z) (f : F) (l : list Z) :
  NoDup l → x ∈ l →
  filter (λ k, is_Some (({[x := f]} : gmap Z F) !! k)) l = [x].
Proof.
  induction l as [|a l IH]; intros Hnd Hx.
  - apply elem_of_nil in Hx. contradiction.
  - apply NoDup_cons in Hnd as [Ha Hnd]. destruct (decide (a = x)) as [->|Hne].
    + rewrite filter_cons_True by (rewrite lookup_singleton_eq; eauto).
      f_equal. clear IH Hx. induction l as [|b l IHl]; [reflexivity|].
      rewrite filter_cons_False.
      * apply IHl; [set_solver|]. apply NoDup_cons in Hnd. tauto.
      * rewrite lookup_singleton_ne by set_solver. intros [? ?]. discriminate.
    + rewrite filter_cons_False
        by (rewrite lookup_singleton_ne by congruence; intros [? ?]; discriminate).
      apply IH; [exact Hnd|]. apply elem_of_cons in Hx as [->|Hx]; [contradiction|exact Hx].
Qed.
End Subscription_facts.

Section Override_facts.
Context {T F W : Type}.
Variable call : F → T → W → W.
Variable controller : W → EventController F.

(** X13. After [Override], the callback given is the only registration:
    the next [Emit] calls it, once, and calls nothing else, whatever was
    registered before (the callback itself not subscribing anything). *)
Theorem Override_leaves_one_callback
    (f : F) (ec : EventController F) (order : list Z) (t : T) (w : W) :
  controller w = (Override f ec).2 →
  iteration_order controller order w →
  removes_at_most_itself call controller (ls (controller w)) t →
  ls (controller w) = {[ID (Override f ec).1 := f]} ∧
  (Emit_calls call controller order t w).*1 = [ID (Override f ec).1].
Proof.
  intros Hw [Hnd Hall] Htame.
  assert (Hls : ls (controller w) = {[ID (Override f ec).1 := f]}).
  { rewrite Hw. unfold Override, Listen, inc. simpl. apply insert_empty. }
  split; [exact Hls|]. unfold Emit_calls.
  rewrite (Emit_from_called call controller (ls (controller w)) t order w Htame Hnd)
    by reflexivity.
  rewrite Hls. apply filter_registered_singleton; [exact Hnd|].
  apply Hall. rewrite Hls, lookup_singleton_eq. eauto.
Qed.
End Override_facts.

Section Open_facts.
Context {error UserClosure : Type}.
Implicit Types (run : OpenRun error UserClosure).
Implicit Types (ec : EventController (OpenClosure UserClosure)).

Lemma only_at_Listen run g ec :
  silent run ec → only_at run (ID (Listen g ec).1) (Listen g ec).2.
Proof.
  intros Hs k h Hk Hh. unfold Listen, inc in *. simpl in *.
  apply lookup_insert_Some in Hk as [[<- _]|[_ Hk]]; [reflexivity|].
  rewrite (Hs _ _ Hk) in Hh. discriminate.
Qed.

Lemma only_at_apply run i ec o :
  foreign run o → only_at run i ec → only_at run i (EC_apply ec o).
Proof.
  intros Hf Hi k h Hk Hh. destruct o as [f|s|f]; unfold EC_apply in Hk.
  - unfold Listen, inc in Hk. simpl in Hk.
    apply lookup_insert_Some in Hk as [[_ <-]|[_ Hk]]; [|exact (Hi _ _ Hk Hh)].
    rewrite (Hf f eq_refl) in Hh. discriminate.
  - unfold Delete in Hk. simpl in Hk.
    apply lookup_delete_Some in Hk as [_ Hk]. exact (Hi _ _ Hk Hh).
  - unfold Override, Listen, inc in Hk. simpl in Hk.
    apply lookup_insert_Some in Hk as [[_ <-]|[_ Hk]].
    + rewrite (Hf f eq_refl) in Hh. discriminate.
    + rewrite lookup_empty in Hk. discriminate.
Qed.

Lemma only_at_run run i ops : ∀ ec,
  Forall (foreign run) ops → only_at run i ec → only_at run i (EC_run ec ops).
Proof.
  induction ops as [|o ops IH]; intros ec Hf Hi; [exact Hi|].
  apply Forall_cons in Hf as [Ho Hf]. simpl. apply IH; [exact Hf|].
  apply only_at_apply; assumption.
Qed.

Lemma silent_apply run ec o : foreign run o → silent run ec → silent run (EC_apply ec o).
Proof.
  intros Hf Hs k h Hk. destruct o as [f|s|f]; unfold EC_apply in Hk.
  - unfold Listen, inc in Hk. simpl in Hk.
    apply lookup_insert_Some in Hk as [[_ <-]|[_ Hk]]; [exact (Hf f eq_refl)|exact (Hs _ _ Hk)].
  - unfold Delete in Hk. simpl in Hk.
    apply lookup_delete_Some in Hk as [_ Hk]. exact (Hs _ _ Hk).
  - unfold Override, Listen, inc in Hk. simpl in Hk.
    apply lookup_insert_Some in Hk as [[_ <-]|[_ Hk]]; [exact (Hf f eq_refl)|].
    rewrite lookup_empty in Hk. discriminate.
Qed.

Lemma silent_run run ops :
  Forall (foreign run) ops → silent run (EC_run NewEventController ops).
Proof.
  intros Hf. assert (Hs : silent run (@NewEventController (OpenClosure UserClosure))).
  { intros k g Hk. simpl in Hk. rewrite lookup_empty in Hk. discriminate. }
  revert Hs. generalize (@NewEventController (OpenClosure UserClosure)).
  induction Hf as [|o ops Ho _ IH]; intros ec Hs; [exact Hs|].
  simpl. apply IH, silent_apply; assumption.
Qed.

Lemma silent_after run g ec ops :
  silent run ec → Forall (foreign run) ops →
  silent run (Delete (Listen g ec).1 (EC_run (Listen g ec).2 ops)).
Proof.
  intros Hs Hf k h Hk. destruct (sends_on run h) eqn:Hh; [|reflexivity].
  unfold Delete in Hk. simpl in Hk. apply lookup_delete_Some in Hk as [Hne Hk].
  exfalso. apply Hne. symmetry.
  exact (only_at_run run _ ops _ Hf (only_at_Listen run g ec Hs) k h Hk Hh).
Qed.

(** X14. [Open] leaves none of its callbacks behind.  The callbacks it
    registers send on the two channels it makes, on which nobody receives
    once it has returned.  Whatever [Connect] and [Authenticate] answer,
    whichever signal wins the race and whatever the other goroutines
    subscribe, remove or override meanwhile (callbacks of their own), no
    callback over these channels is registered when [Open] returns; and the
    error returned is the first of: the one of [Connect], the one of
    [Authenticate], the one received. *)
Theorem Open_unsubscribes_its_callbacks run (e : OpenEvents UserClosure) :
  silent run (Events_Ready e) →
  silent run (Events_RevoltError e) →
  silent run (Events_Error e) →
  Forall (foreign run) (meanwhile_Ready run) →
  Forall (foreign run) (meanwhile_RevoltError run) →
  Forall (foreign run) (meanwhile_Error run) →
  let e' := (Open run e).2 in
  silent run (Events_Ready e') ∧
  silent run (Events_RevoltError e') ∧
  silent run (Events_Error e') ∧
  (Open run e).1 =
    match connect_err run with
    | Some err => Some err
    | None => match authenticate_err run with
              | Some err => Some err
              | None => raced run
              end
    end.
Proof.
  intros S1 S2 S3 F1 F2 F3 e'.
  pose proof (silent_after run (SignalReady (readyEvent run)) _ _ S1 F1) as R1.
  pose proof (silent_after run (SignalRevoltError (errorEvent run)) _ _ S2 F2) as R2.
  pose proof (silent_after run (SignalError (errorEvent run)) _ _ S3 F3) as R3.
  subst e'. unfold Open. destruct (connect_err run); [repeat split; assumption|].
  destruct (Listen (SignalReady _) _) as [s1 r1].
  destruct (Listen (SignalRevoltError _) _) as [s2 r2].
  destruct (Listen (SignalError _) _) as [s3 r3].
  cbn [fst snd] in R1, R2, R3.
  destruct (authenticate_err run); cbn [fst snd Events_Ready Events_RevoltError Events_Error];
    repeat split; assumption.
Qed.
End Open_facts.

(** * Update frames and the caches *)

Section Update_facts.
Context {Embed OptimizedEmbed F U : Type}.
Variable Embed_ToOptimized : Embed → OptimizedEmbed.
Implicit Types (r : MessageUpdate.t Embed) (s : Client OptimizedEmbed F U).

Lemma MessageUpdate_patch_ID r m m' :
  MessageUpdate_patch Embed_ToOptimized r m = Some m' →
  OptimizedMessage.ID m' = OptimizedMessage.ID m.
Proof.
  unfold MessageUpdate_patch. destruct (MessageUpdate.Data r) as [d|]; [|discriminate].
  intros [= <-]. destruct (PartialMessage.Content d), (PartialMessage.Embeds d); reflexivity.
Qed.

Lemma MessageUpdate_followUp_Cache r s :
  Cache2.Cache (Cache_Messages (MessageUpdate_followUp Embed_ToOptimized r s)) =
    match Cache2.Cache (Cache_Messages s) !! MessageUpdate.Channel r with
    | Some x =>
        match x !! MessageUpdate.MessageID r with
        | Some y =>
            <[MessageUpdate.Channel r :=
                <[MessageUpdate.MessageID r :=
                    default y (MessageUpdate_patch Embed_ToOptimized r y)]> x]>
              (Cache2.Cache (Cache_Messages s))
        | None => Cache2.Cache (Cache_Messages s)
        end
    | None => Cache2.Cache (Cache_Messages s)
    end.
Proof.
  unfold MessageUpdate_followUp, Cache2.PartiallyUpdate.
  destruct (Cache2.Cache (Cache_Messages s) !! MessageUpdate.Channel r) as [x|];
    [|reflexivity].
  destruct (x !! MessageUpdate.MessageID r) as [y|]; [|reflexivity].
  destruct (MessageUpdate_patch Embed_ToOptimized r y); reflexivity.
Qed.

(** X15. The follow-up of "MessageUpdate" touches the message the frame
    names and nothing else: every other entry reads as before, the message
    stays under its key (the patch never changes an id), no entry appears
    or disappears, the count stays right, and the subscriptions are left
    alone.  The goroutine panics exactly when the frame carries no data and
    the message is cached. *)
Theorem MessageUpdate_touches_one_message r s :
  Cache2_keyed (Cache_Messages s) →
  Cache2.counted (Cache_Messages s) →
  let s' := MessageUpdate_followUp Embed_ToOptimized r s in
  let cached := Cache2.Get (Cache_Messages s) (MessageUpdate.Channel r) (MessageUpdate.MessageID r) in
  Cache2_keyed (Cache_Messages s') ∧
  Cache2.counted (Cache_Messages s') ∧
  Cache2.Size (Cache_Messages s') = Cache2.Size (Cache_Messages s) ∧
  (∀ p k, (p, k) ≠ (MessageUpdate.Channel r, MessageUpdate.MessageID r) →
          Cache2.Get (Cache_Messages s') p k = Cache2.Get (Cache_Messages s) p k) ∧
  Cache2.Get (Cache_Messages s') (MessageUpdate.Channel r) (MessageUpdate.MessageID r)
    = (λ m, default m (MessageUpdate_patch Embed_ToOptimized r m)) <$> cached ∧
  (panicked s' = true ↔
     panicked s = true ∨ (MessageUpdate.Data r = None ∧ is_Some cached)) ∧
  Events_MessageUpdate s' = Events_MessageUpdate s.
Proof.
  intros Hkeyed Hcounted s' cached.
  assert (Hget : ∀ p k, Cache2.Get (Cache_Messages s') p k =
            if decide (p = MessageUpdate.Channel r ∧ k = MessageUpdate.MessageID r)
            then (λ m, default m (MessageUpdate_patch Embed_ToOptimized r m)) <$> cached
            else Cache2.Get (Cache_Messages s) p k).
  { intros p k. subst s' cached. unfold Cache2.Get. rewrite MessageUpdate_followUp_Cache.
    destruct (Cache2.Cache (Cache_Messages s) !! MessageUpdate.Channel r) as [x|] eqn:Hx.
    - destruct (x !! MessageUpdate.MessageID r) as [y|] eqn:Hy.
      + destruct (decide (MessageUpdate.Channel r = p)) as [<-|Hp].
        * rewrite lookup_insert_eq, Hx, lookup_insert. cbn [fmap option_fmap option_map].
          repeat case_decide; try reflexivity; intuition congruence.
        * rewrite lookup_insert_ne by exact Hp.
          case_decide as Hd; [destruct Hd; congruence|reflexivity].
      + case_decide as Hd; [|reflexivity]. destruct Hd as [-> ->].
        rewrite Hx, Hy. reflexivity.
    - case_decide as Hd; [|reflexivity]. destruct Hd as [-> ->]. rewrite Hx. reflexivity. }
  split; [|split; [|split; [|split; [|split; [|split]]]]].
  - intros p k v. rewrite Hget. case_decide as Hd; [|apply Hkeyed].
    destruct Hd as [-> ->]. subst cached.
    destruct (Cache2.Get _ _ _) as [m|] eqn:Hm; [|discriminate].
    cbn [fmap option_fmap option_map]. intros [= <-].
    pose proof (Hkeyed _ _ _ Hm) as Hk.
    destruct (MessageUpdate_patch Embed_ToOptimized r m) as [m'|] eqn:Hp; [|exact Hk].
    cbn [default from_option]. rewrite <- Hk. apply (MessageUpdate_patch_ID r m m' Hp).
  - subst s'. unfold MessageUpdate_followUp.
    pose proof (counted_PartiallyUpdate (Cache_Messages s) (MessageUpdate.Channel r)
                  (MessageUpdate.MessageID r)
                  (λ m crashed, match MessageUpdate_patch Embed_ToOptimized r m with
                                | Some m' => (m', crashed)
                                | None => (m, true)
                                end) (panicked s) Hcounted) as Hc.
    destruct (Cache2.PartiallyUpdate _ _ _ _ _) as [cache crashed]. exact Hc.
  - subst s'. unfold MessageUpdate_followUp, Cache2.PartiallyUpdate, Cache2.Size.
    destruct (Cache2.Cache (Cache_Messages s) !! MessageUpdate.Channel r) as [x|];
      [|reflexivity].
    destruct (x !! MessageUpdate.MessageID r) as [y|]; [|reflexivity].
    destruct (MessageUpdate_patch Embed_ToOptimized r y); reflexivity.
  - intros p k Hne. rewrite Hget. case_decide as Hd; [|reflexivity].
    destruct Hd as [-> ->]. contradiction.
  - rewrite Hget. case_decide as Hd; [reflexivity|]. exfalso. apply Hd. split; reflexivity.
  - subst s' cached. unfold MessageUpdate_followUp, Cache2.PartiallyUpdate, Cache2.Get,
      MessageUpdate_patch.
    destruct (Cache2.Cache (Cache_Messages s) !! MessageUpdate.Channel r) as [x|].
    + destruct (x !! MessageUpdate.MessageID r) as [y|].
      * destruct (MessageUpdate.Data r) as [d|]; cbn [panicked].
        -- split; [intros Hp; left; exact Hp|]. intros [Hp|[Hd _]]; [exact Hp|discriminate].
        -- split; [intros _; right; split; [reflexivity|eexists; reflexivity]|reflexivity].
      * cbn [panicked]. split; [intros Hp; left; exact Hp|].
        intros [Hp|[_ [? Hn]]]; [exact Hp|discriminate].
    + cbn [panicked]. split; [intros Hp; left; exact Hp|].
      intros [Hp|[_ [? Hn]]]; [exact Hp|discriminate].
  - subst s'. unfold MessageUpdate_followUp. destruct (Cache2.PartiallyUpdate _ _ _ _ _).
    reflexivity.
Qed.
End Update_facts.

(** * The pinger *)

Section Pinger_facts.
Context {error : Type}.
Implicit Types (s : Pinger.t error) (e : Pinger.Event error).

Lemma timed_weaken (events : list (Pinger.Event error)) : ∀ a b,
  (a ≤ b)%Z → Pinger.timed b events → Pinger.timed a events.
Proof.
  induction events as [|e rest IH]; intros a b Hab Ht; [exact I|].
  simpl in *. destruct (Pinger.stamp e) as [now|].
  - destruct Ht as [Hb Hr]. split; [lia|exact Hr].
  - exact (IH a b Hab Ht).
Qed.

Lemma pinger_step_allowance s e clock :
  (Pinger.lastPingReq s ≤ clock)%Z → (Pinger.lastPingRes s ≤ clock)%Z →
  (∀ now, Pinger.stamp e = Some now → (clock < now)%Z) →
  let s' := Pinger.step s e in
  let clock' := default clock (Pinger.stamp e) in
  (Pinger.lastPingReq s' ≤ clock')%Z ∧ (Pinger.lastPingRes s' ≤ clock')%Z ∧
  (Pinger.pings s' + Pinger.allowance s'
     ≤ Pinger.pings s + Pinger.allowance s
       + match e with Pinger.PongFrame _ => 1 | _ => 0 end)%nat.
Proof.
  intros Hreq Hres Hnow. destruct e as [d now write|now|]; simpl.
  - specialize (Hnow now eq_refl). destruct (Pinger.pinging s); [|lia].
    unfold Pinger.pinger_tick, Pinger.allowance.
    destruct d; simpl; [|lia].
    destruct (Pinger.lastPingRes s <? Pinger.lastPingReq s)%Z eqn:E; simpl.
    + rewrite E. lia.
    + destruct write as [err|]; simpl;
        destruct (Pinger.lastPingRes s <? now)%Z eqn:E'; lia.
  - specialize (Hnow now eq_refl). unfold Pinger.allowance. simpl.
    destruct (now <? Pinger.lastPingReq s)%Z eqn:E; [lia|].
    destruct (Pinger.lastPingRes s <? Pinger.lastPingReq s)%Z; lia.
  - unfold Pinger.allowance. simpl. lia.
Qed.

Lemma pinger_run_allowance (events : list (Pinger.Event error)) : ∀ s clock,
  (Pinger.lastPingReq s ≤ clock)%Z → (Pinger.lastPingRes s ≤ clock)%Z →
  Pinger.timed clock events →
  (Pinger.pings (Pinger.run s events) + Pinger.allowance (Pinger.run s events)
     ≤ Pinger.pings s + Pinger.allowance s + Pinger.pongs events)%nat.
Proof.
  induction events as [|e rest IH]; intros s clock Hreq Hres Ht; [simpl; lia|].
  assert (Hnow : ∀ now, Pinger.stamp e = Some now → (clock < now)%Z).
  { intros now Hs. simpl in Ht. rewrite Hs in Ht. apply Ht. }
  destruct (pinger_step_allowance s e clock Hreq Hres Hnow) as (Hreq' & Hres' & Hstep).
  assert (Ht' : Pinger.timed (default clock (Pinger.stamp e)) rest).
  { simpl in Ht. destruct (Pinger.stamp e); [apply Ht|exact Ht]. }
  specialize (IH (Pinger.step s e) _ Hreq' Hres' Ht').
  change (Pinger.run s (e :: rest)) with (Pinger.run (Pinger.step s e) rest).
  assert (Hp : Pinger.pongs (e :: rest)
               = (match e with Pinger.PongFrame _ => 1 | _ => 0 end + Pinger.pongs rest)%nat).
  { unfold Pinger.pongs. destruct e; reflexivity. }
  rewrite Hp. lia.
Qed.

(** X16. The pinger never has two pings in flight.  With a clock that
    moves on between the events that read it, the "Ping" frames written
    during the life of a pinger exceed the "Pong" frames processed by one
    at most, and by none when the pinger started on an unanswered ping:
    at every tick the pinger first looks whether the last ping was
    answered, and returns when it was not. *)
Theorem pinger_waits_for_Pong s (events : list (Pinger.Event error)) :
  Pinger.timed (Z.max (Pinger.lastPingReq s) (Pinger.lastPingRes s)) events →
  (Pinger.pings (Pinger.run s events)
     ≤ Pinger.pings s + Pinger.pongs events
       + (if (Pinger.lastPingRes s <? Pinger.lastPingReq s)%Z then 0 else 1))%nat.
Proof.
  intros Ht.
  pose proof (pinger_run_allowance events s _ ltac:(apply Z.le_max_l)
                ltac:(apply Z.le_max_r) Ht) as H.
  unfold Pinger.allowance in H at 2. lia.
Qed.

Lemma pinger_gone_step s e :
  Pinger.pinging s = false →
  Pinger.pinging (Pinger.step s e) = false ∧
  Pinger.pings (Pinger.step s e) = Pinger.pings s ∧
  Pinger.reported (Pinger.step s e) = Pinger.reported s ∧
  Pinger.close_blocked (Pinger.step s e)
    = Pinger.close_blocked s
      || match e with Pinger.CloseCalled => true | _ => false end.
Proof.
  intros Hp. destruct e as [d now write|now|]; simpl; rewrite ?Hp; simpl;
    rewrite ?orb_false_r; auto.
Qed.

Lemma pinger_gone_run (events : list (Pinger.Event error)) : ∀ s,
  Pinger.pinging s = false →
  Pinger.pinging (Pinger.run s events) = false ∧
  Pinger.pings (Pinger.run s events) = Pinger.pings s ∧
  Pinger.reported (Pinger.run s events) = Pinger.reported s ∧
  (Pinger.close_blocked s = true ∨ Pinger.CloseCalled ∈ events →
   Pinger.close_blocked (Pinger.run s events) = true).
Proof.
  induction events as [|e rest IH]; intros s Hp.
  - simpl. repeat split; try assumption. intros [Hb|Hin]; [exact Hb|].
    apply elem_of_nil in Hin. contradiction.
  - destruct (pinger_gone_step s e Hp) as (Hp' & Hn & Hr & Hb).
    destruct (IH _ Hp') as (IH1 & IH2 & IH3 & IH4).
    change (Pinger.run s (e :: rest)) with (Pinger.run (Pinger.step s e) rest).
    split; [exact IH1|]. split; [congruence|]. split; [congruence|].
    intros Hor. apply IH4. rewrite Hb.
    destruct Hor as [->|Hin]; [left; reflexivity|].
    apply elem_of_cons in Hin as [<-|Hin]; [left; apply orb_true_r|right; exact Hin].
Qed.

(** X17. Once the pinger has returned, nothing replaces it until the next
    [Listen], and [close] needs it.  A tick that finds the last ping
    unanswered, that finds the ticker's channel closed, or whose "Ping"
    cannot be written ends the pinger without closing the socket: from then
    on no "Ping" frame is written whatever happens, the pinger reports no
    further error, and a [close] that is called (by [Close], or by the close
    handler) waits at its send on [closeEvent] with nobody to receive it. *)
Theorem close_waits_for_a_pinger_that_is_gone
    s (d : bool) (now : Z) (write : option error) (rest : list (Pinger.Event error)) :
  Pinger.pinging s = false ∨ d = false ∨ is_Some write ∨
    (Pinger.lastPingRes s < Pinger.lastPingReq s)%Z →
  let s1 := Pinger.step s (Pinger.Tick d now write) in
  let s' := Pinger.run s1 rest in
  Pinger.closed s1 = Pinger.closed s ∧
  Pinger.pinging s' = false ∧
  Pinger.pings s' = Pinger.pings s ∧
  Pinger.reported s' = Pinger.reported s1 ∧
  (Pinger.CloseCalled ∈ rest → Pinger.close_blocked s' = true).
Proof.
  intros Hwhy s1 s'.
  assert (H1 : Pinger.closed s1 = Pinger.closed s ∧ Pinger.pinging s1 = false ∧
               Pinger.pings s1 = Pinger.pings s).
  { subst s1. simpl. destruct (Pinger.pinging s) eqn:Hp; [|auto].
    unfold Pinger.pinger_tick. destruct d; simpl; [|auto].
    destruct (Pinger.lastPingRes s <? Pinger.lastPingReq s)%Z eqn:E; simpl; [auto|].
    destruct write as [err|]; simpl; [auto|].
    destruct Hwhy as [Hw|[Hw|[[? Hw]|Hw]]]; try discriminate. lia. }
  destruct H1 as (Hc & Hp & Hn).
  destruct (pinger_gone_run rest s1 Hp) as (R1 & R2 & R3 & R4).
  split; [exact Hc|]. split; [exact R1|]. split; [subst s'; rewrite R2; exact Hn|].
  split; [exact R3|].
  intros Hin. apply R4. right. exact Hin.
Qed.
End Pinger_facts.

(** * The [commands] package *)

Section Scanner_facts.
Import commands.
Implicit Types (s : Scanner) (r w : list Ascii.ascii).

Lemma GetByte_at_end s :
  in_range s → rest s = [] → GetByte s = Some ((Ascii.zero, false), s).
Proof.
  intros [H0 Hle] Hrest. unfold rest in Hrest. apply drop_nil_inv in Hrest.
  unfold GetByte. replace (Z.of_nat (length (Target s)) =? Position s)%Z with true;
    [reflexivity|]. symmetry. apply Z.eqb_eq. lia.
Qed.

Lemma GetByte_next s b tl :
  in_range s → rest s = b :: tl →
  ∃ s', GetByte s = Some ((b, true), s') ∧ Target s' = Target s ∧
        Position s' = (Position s + 1)%Z ∧ in_range s' ∧ rest s' = tl.
Proof.
  intros [H0 Hle] Hrest. unfold rest in Hrest.
  assert (Hlook : Target s !! Z.to_nat (Position s) = Some b).
  { rewrite <- (Nat.add_0_r (Z.to_nat (Position s))), <- lookup_drop, Hrest. reflexivity. }
  pose proof (lookup_lt_Some _ _ _ Hlook) as Hlt.
  eexists. unfold GetByte, byte_at.
  replace (Z.of_nat (length (Target s)) =? Position s)%Z with false
    by (symmetry; apply Z.eqb_neq; lia).
  replace (0 <=? Position s)%Z with true by (symmetry; apply Z.leb_le; lia).
  rewrite Hlook. split; [reflexivity|]. simpl. split; [reflexivity|]. split; [reflexivity|].
  split; [unfold in_range; simpl; lia|].
  unfold rest. simpl. replace (Z.to_nat (Position s + 1)) with (S (Z.to_nat (Position s))) by lia.
  rewrite (drop_S _ _ _ Hlook) in Hrest. congruence.
Qed.
End Scanner_facts.

Section Parse_facts.
Import commands.
Context {NumError : Type}.
Variable strconv_ParseInt strconv_ParseUint : list Ascii.ascii → Z → Z → Z * option NumError.
Implicit Types (s : Scanner) (r w : list Ascii.ascii) (so : StringOption).

Lemma read_word_spec fuel : ∀ s r,
  in_range s → (length (rest s) < fuel)%nat →
  ∃ w s', read_word fuel s r = Value (r ++ w, s') ∧ (space ∉ w) ∧
          (rest s = w ∧ rest s' = [] ∨ rest s = w ++ space :: rest s') ∧
          Target s' = Target s ∧ in_range s'.
Proof.
  induction fuel as [|fuel IH]; intros s r Hs Hlen; [lia|].
  destruct (rest s) as [|b tl] eqn:Hrest.
  - exists [], s. simpl. rewrite (GetByte_at_end s Hs Hrest). simpl.
    rewrite app_nil_r. split; [reflexivity|]. split; [apply not_elem_of_nil|].
    split; [left; split; [reflexivity|exact Hrest]|]. split; [reflexivity|exact Hs].
  - destruct (GetByte_next s b tl Hs Hrest) as (s1 & Hget & Ht1 & _ & Hs1 & Hr1).
    simpl. rewrite Hget. simpl. case_bool_decide as Hb.
    + exists [], s1. rewrite app_nil_r. split; [reflexivity|].
      split; [apply not_elem_of_nil|]. split; [right; simpl; congruence|].
      split; [exact Ht1|exact Hs1].
    + simpl in Hlen. destruct (IH s1 (r ++ [b]) Hs1 ltac:(rewrite Hr1; lia))
        as (w & s' & Hread & Hw & Hsplit & Ht & Hs').
      exists (b :: w), s'. rewrite Hread, <- app_assoc. split; [reflexivity|].
      split; [rewrite not_elem_of_cons; split; [congruence|exact Hw]|].
      split; [|split; [congruence|exact Hs']].
      rewrite Hr1 in Hsplit. destruct Hsplit as [[-> Hend]| ->];
        [left; split; [reflexivity|exact Hend]|right; reflexivity].
Qed.

(** X18. The integer options read one word.  On a scanner inside its
    target, [SignedIntOption.Parse] and [UnsignedIntOption.Parse] hand to
    [strconv] the bytes up to the next space or the end, and leave the
    scanner behind that one space (at the end when there was none), inside
    the target, which they do not change.  With nothing to read a
    [Required] option answers [OptionRequired] without asking [strconv];
    one that is not required asks [strconv] to parse the empty string. *)
Theorem integer_options_read_one_word
    fuel (sio : SignedIntOption) (uio : UnsignedIntOption) s :
  in_range s → (length (rest s) < fuel)%nat →
  ∃ w s',
    (space ∉ w) ∧
    (rest s = w ∧ rest s' = [] ∨ rest s = w ++ space :: rest s') ∧
    Target s' = Target s ∧ in_range s' ∧
    SignedIntOption_Parse strconv_ParseInt fuel sio s =
      Value (if bool_decide (w = []) && sio_Required sio
             then (OfString [], Some (OptionRequired (sio_Name sio)))
             else
               let parsed :=
                 strconv_ParseInt w (if (sio_Base sio =? 0)%Z then 10%Z else sio_Base sio)
                   (if (sio_BitSize sio =? 0)%Z then 64%Z else sio_BitSize sio) in
               (OfInteger Kint64 parsed.1, OfStrconv <$> parsed.2), s') ∧
    UnsignedIntOption_Parse strconv_ParseUint fuel uio s =
      Value (if bool_decide (w = []) && uio_Required uio
             then (OfString [], Some (OptionRequired (uio_Name uio)))
             else
               let parsed :=
                 strconv_ParseUint w (if (uio_Base uio =? 0)%Z then 10%Z else uio_Base uio)
                   (if (uio_BitSize uio =? 0)%Z then 64%Z else uio_BitSize uio) in
               (OfInteger Kuint64 parsed.1, OfStrconv <$> parsed.2), s').
Proof.
  intros Hs Hlen.
  destruct (read_word_spec fuel s [] Hs Hlen) as (w & s' & Hread & Hw & Hsplit & Ht & Hs').
  simpl in Hread. exists w, s'.
  split; [exact Hw|]. split; [exact Hsplit|]. split; [exact Ht|]. split; [exact Hs'|].
  unfold SignedIntOption_Parse, UnsignedIntOption_Parse. rewrite Hread. split.
  - destruct (bool_decide (w = []) && sio_Required sio); [reflexivity|].
    cbv zeta. destruct (strconv_ParseInt _ _ _). reflexivity.
  - destruct (bool_decide (w = []) && uio_Required uio); [reflexivity|].
    cbv zeta. destruct (strconv_ParseUint _ _ _). reflexivity.
Qed.

Lemma read_raw_spec fuel : ∀ s r,
  in_range s → (length (rest s) < fuel)%nat →
  ∃ s', read_raw fuel s r = Value (r ++ rest s, s') ∧ rest s' = [] ∧
        Target s' = Target s ∧ in_range s'.
Proof.
  induction fuel as [|fuel IH]; intros s r Hs Hlen; [lia|].
  destruct (rest s) as [|b tl] eqn:Hrest.
  - exists s. simpl. rewrite (GetByte_at_end s Hs Hrest). simpl. rewrite app_nil_r.
    repeat split; try assumption; apply Hs.
  - destruct (GetByte_next s b tl Hs Hrest) as (s1 & Hget & Ht1 & _ & Hs1 & Hr1).
    simpl. rewrite Hget. simpl. simpl in Hlen.
    destruct (IH s1 (r ++ [b]) Hs1 ltac:(rewrite Hr1; lia)) as (s' & Hread & Hend & Ht & Hs').
    exists s'. rewrite Hread, Hr1, <- app_assoc. repeat split; try assumption; try apply Hs'.
    congruence.
Qed.

Lemma read_quoted_plain fuel so : ∀ s r,
  in_range s → (length (rest s) < fuel)%nat →
  double_quote ∉ rest s → single_quote ∉ rest s →
  read_quoted (NumError := NumError) fuel so s false r =
    match read_word fuel s r with
    | Value (w, s') => Value (inl w, s')
    | Panics => Panics
    | NoFuel => NoFuel
    end.
Proof.
  induction fuel as [|fuel IH]; intros s r Hs Hlen Hd Hq; [lia|].
  destruct (rest s) as [|b tl] eqn:Hrest.
  - simpl. rewrite (GetByte_at_end s Hs Hrest). reflexivity.
  - destruct (GetByte_next s b tl Hs Hrest) as (s1 & Hget & Ht1 & _ & Hs1 & Hr1).
    simpl. rewrite Hget. cbn [negb]. cbv iota beta. rewrite andb_false_r.
    apply not_elem_of_cons in Hd as [Hd Hd'], Hq as [Hq Hq'].
    case_bool_decide as Hsp; cbn [andb orb negb]; [reflexivity|].
    rewrite (bool_decide_eq_false_2 _ (not_eq_sym Hd)),
            (bool_decide_eq_false_2 _ (not_eq_sym Hq)).
    cbn [orb]. simpl in Hlen. apply IH; [exact Hs1|rewrite Hr1; lia|congruence|congruence].
Qed.

(** X19. [StringOption.Parse] on plain input.  On a scanner inside its
    target: a [Raw] option takes everything that is left and leaves the
    scanner at the end; an option that is not raw, when no quotation mark
    is left to read, takes the same word as the integer options do and
    leaves the scanner where they do, a backslash being an ordinary byte
    outside quotation marks.  Either answers [OptionRequired] when it took
    nothing and is [Required]. *)
Theorem StringOption_Parse_plain fuel so s :
  in_range s → (length (rest s) < fuel)%nat →
  let answer (w : list Ascii.ascii) :=
    if bool_decide (w = []) && so_Required so
    then (OfString [], Some (OptionRequired (NumError := NumError) (so_Name so)))
    else (OfString w, None) in
  (Raw so = true →
   ∃ s', StringOption_Parse fuel so s = Value (answer (rest s), s') ∧
         rest s' = [] ∧ Target s' = Target s ∧ in_range s') ∧
  (Raw so = false → double_quote ∉ rest s → single_quote ∉ rest s →
   ∃ w s', read_word fuel s [] = Value (w, s') ∧
           StringOption_Parse fuel so s = Value (answer w, s')).
Proof.
  intros Hs Hlen answer. split.
  - intros Hraw. destruct (read_raw_spec fuel s [] Hs Hlen) as (s' & Hread & Hend & Ht & Hs').
    exists s'. unfold StringOption_Parse. rewrite Hraw, Hread. subst answer.
    cbn [app]. split; [|repeat split; try assumption; apply Hs'].
    destruct (bool_decide (rest s = []) && so_Required so); reflexivity.
  - intros Hraw Hd Hq.
    destruct (read_word_spec fuel s [] Hs Hlen) as (w & s' & Hread & _).
    cbn [app] in Hread. exists w, s'. split; [exact Hread|].
    unfold StringOption_Parse. rewrite Hraw, (read_quoted_plain fuel so s [] Hs Hlen Hd Hq), Hread.
    subst answer. cbv beta. destruct (bool_decide (w = []) && so_Required so); reflexivity.
Qed.
End Parse_facts.

Section Greedy_facts.
Import commands.
Context {NumError : Type}.
Variable strconv_ParseInt strconv_ParseUint : list Ascii.ascii → Z → Z → Z * option NumError.
Implicit Types (s : Scanner) (r w : list Ascii.ascii) (so : StringOption).

Lemma read_raw_safe fuel : ∀ s r,
  in_range s →
  read_raw fuel s r = NoFuel ∨ ∃ w s', read_raw fuel s r = Value (w, s') ∧ in_range s'.
Proof.
  induction fuel as [|fuel IH]; intros s r Hs; [left; reflexivity|].
  destruct (rest s) as [|b tl] eqn:Hrest.
  - right. exists r, s. simpl. rewrite (GetByte_at_end s Hs Hrest). split; [reflexivity|exact Hs].
  - destruct (GetByte_next s b tl Hs Hrest) as (s1 & Hget & _ & _ & Hs1 & _).
    simpl. rewrite Hget. simpl. apply IH, Hs1.
Qed.

Lemma read_quoted_safe fuel so :
  DisallowNewlines so = false → ∀ s q r,
  in_range s →
  read_quoted (NumError := NumError) fuel so s q r = NoFuel ∨
  ∃ w s', read_quoted (NumError := NumError) fuel so s q r = Value (inl w, s') ∧ in_range s'.
Proof.
  intros Hdis. induction fuel as [|fuel IH]; intros s q r Hs; [left; reflexivity|].
  destruct (rest s) as [|b tl] eqn:Hrest.
  - right. exists r, s. simpl. rewrite (GetByte_at_end s Hs Hrest). split; [reflexivity|exact Hs].
  - destruct (GetByte_next s b tl Hs Hrest) as (s1 & Hget & _ & _ & Hs1 & Hr1).
    simpl. rewrite Hget. cbn [negb]. cbv iota beta.
    destruct (bool_decide (b = backslash) && q).
    + destruct (rest s1) as [|b' tl'] eqn:Hrest1.
      * right. exists r, s1. rewrite (GetByte_at_end s1 Hs1 Hrest1).
        split; [reflexivity|exact Hs1].
      * destruct (GetByte_next s1 b' tl' Hs1 Hrest1) as (s2 & Hget2 & _ & _ & Hs2 & _).
        rewrite Hget2, Hdis, andb_false_r. cbn [negb]. cbv iota beta. apply IH, Hs2.
    + destruct (bool_decide (b = space) && negb q).
      * right. exists r, s1. split; [reflexivity|exact Hs1].
      * destruct (bool_decide (b = double_quote) || bool_decide (b = single_quote));
          apply IH, Hs1.
Qed.

Lemma StringOption_Parse_never_fails fuel so s :
  so_Required so = false → Raw so = true ∨ DisallowNewlines so = false →
  in_range s →
  StringOption_Parse (NumError := NumError) fuel so s = NoFuel ∨
  ∃ v s', StringOption_Parse (NumError := NumError) fuel so s = Value ((v, None), s') ∧
          in_range s'.
Proof.
  intros Hreq Hcfg Hs. unfold StringOption_Parse. rewrite Hreq.
  destruct (Raw so) eqn:Hraw.
  - destruct (read_raw_safe fuel s [] Hs) as [->|(w & s' & -> & Hs')]; [left; reflexivity|].
    right. rewrite andb_false_r. eexists _, s'. split; [reflexivity|exact Hs'].
  - destruct Hcfg as [Hc|Hdis]; [discriminate|].
    destruct (read_quoted_safe fuel so Hdis s false [] Hs) as [->|(w & s' & -> & Hs')];
      [left; reflexivity|].
    right. rewrite andb_false_r. eexists _, s'. split; [reflexivity|exact Hs'].
Qed.

(** X20. [Greedy] around a string option that is not [Required] never
    returns.  Such an option answers without an error also when nothing is
    left to read, and the loop of [Greedy.Parse] ends on an error only: on
    a scanner inside its target, whatever the input and however long it
    runs, the call has not returned (the option being raw, or allowing
    escaped newlines, so that no escape error can end the loop). *)
Theorem Greedy_of_optional_string_never_returns so s :
  in_range s → so_Required so = false →
  Raw so = true ∨ DisallowNewlines so = false →
  ∀ fuel, Parse strconv_ParseInt strconv_ParseUint fuel (OfGreedy (OfStringOption so)) s
          = NoFuel.
Proof.
  intros Hs Hreq Hcfg fuel. cbn [Parse].
  generalize fuel at 2. intros n. generalize (@nil any). revert s Hs.
  induction n as [|n IH]; intros s Hs a; [reflexivity|].
  cbn [Greedy_loop].
  destruct (StringOption_Parse_never_fails fuel so s Hreq Hcfg Hs) as [->|(v & s' & -> & Hs')];
    [reflexivity|]. apply IH, Hs'.
Qed.

Lemma read_quoted_progress fuel so : ∀ s q r,
  in_range s → (length (rest s) < fuel)%nat →
  ∃ res s', read_quoted (NumError := NumError) fuel so s q r = Value (res, s') ∧
            in_range s' ∧ Target s' = Target s ∧
            (length (rest s') ≤ length (rest s))%nat ∧
            (∀ w, res = inl w → w = r ∨ (length (rest s') < length (rest s))%nat).
Proof.
  induction fuel as [|fuel IH]; intros s q r Hs Hlen; [lia|].
  destruct (rest s) as [|b tl] eqn:Hrest.
  - exists (inl r), s. simpl. rewrite (GetByte_at_end s Hs Hrest).
    split; [reflexivity|]. split; [exact Hs|]. split; [reflexivity|].
    split; [rewrite Hrest; reflexivity|]. intros w [= <-]. left; reflexivity.
  - destruct (GetByte_next s b tl Hs Hrest) as (s1 & Hget & Ht1 & _ & Hs1 & Hr1).
    simpl in Hlen. simpl. rewrite Hget. cbn [negb]. cbv iota beta.
    destruct (bool_decide (b = backslash) && q).
    + destruct (rest s1) as [|b' tl'] eqn:Hrest1.
      * exists (inl r), s1. rewrite (GetByte_at_end s1 Hs1 Hrest1).
        split; [reflexivity|]. split; [exact Hs1|]. split; [exact Ht1|].
        rewrite Hrest1. simpl. split; [lia|]. intros w _. right. lia.
      * destruct (GetByte_next s1 b' tl' Hs1 Hrest1) as (s2 & Hget2 & Ht2 & _ & Hs2 & Hr2).
        rewrite Hget2. cbn [negb]. cbv iota beta.
        assert (Htl : tl = b' :: tl') by congruence.
        destruct (bool_decide (b' = newline) && DisallowNewlines so).
        -- eexists _, s2. split; [reflexivity|]. split; [exact Hs2|].
           split; [congruence|]. rewrite Hr2, Htl. simpl. split; [lia|]. discriminate.
        -- destruct (IH s2 q (r ++ [b']) Hs2 ltac:(rewrite Hr2; subst tl; simpl in Hlen; lia))
             as (res & s' & -> & Hs' & Ht & Hle & Hres).
           exists res, s'. split; [reflexivity|]. split; [exact Hs'|].
           split; [congruence|]. rewrite Hr2 in Hle. subst tl. simpl.
           split; [lia|]. intros w _. right. lia.
    + destruct (bool_decide (b = space) && negb q).
      * exists (inl r), s1. split; [reflexivity|]. split; [exact Hs1|]. split; [exact Ht1|].
        rewrite Hr1. simpl. split; [lia|]. intros w _. right. lia.
      * destruct (bool_decide (b = double_quote) || bool_decide (b = single_quote)).
        -- destruct (IH s1 (negb q) r Hs1 ltac:(rewrite Hr1; lia))
             as (res & s' & -> & Hs' & Ht & Hle & Hres).
           exists res, s'. split; [reflexivity|]. split; [exact Hs'|].
           split; [congruence|]. rewrite Hr1 in Hle. simpl.
           split; [lia|]. intros w _. right. lia.
        -- destruct (IH s1 q (r ++ [b]) Hs1 ltac:(rewrite Hr1; lia))
             as (res & s' & -> & Hs' & Ht & Hle & Hres).
           exists res, s'. split; [reflexivity|]. split; [exact Hs'|].
           split; [congruence|]. rewrite Hr1 in Hle. simpl.
           split; [lia|]. intros w _. right. lia.
Qed.

Lemma StringOption_Parse_progress fuel so s :
  so_Required so = true → in_range s → (length (rest s) < fuel)%nat →
  ∃ v e s', StringOption_Parse (NumError := NumError) fuel so s = Value ((v, e), s') ∧
            in_range s' ∧ Target s' = Target s ∧
            (e = None → (length (rest s') < length (rest s))%nat ∧
                        ∃ w, v = OfString w ∧ w ≠ []).
Proof.
  intros Hreq Hs Hlen. unfold StringOption_Parse. rewrite Hreq.
  destruct (Raw so).
  - destruct (read_raw_spec fuel s [] Hs Hlen) as (s' & -> & Hend & Ht & Hs').
    cbn [app]. rewrite andb_true_r. case_bool_decide as Hr.
    + eexists _, _, s'. split; [reflexivity|]. split; [exact Hs'|]. split; [exact Ht|].
      discriminate.
    + eexists _, _, s'. split; [reflexivity|]. split; [exact Hs'|]. split; [exact Ht|].
      intros _. rewrite Hend. split; [|eexists; split; [reflexivity|exact Hr]].
      destruct (rest s); [contradiction|simpl; lia].
  - destruct (read_quoted_progress fuel so s false [] Hs Hlen)
      as (res & s' & -> & Hs' & Ht & Hle & Hres).
    destruct res as [w|err].
    + rewrite andb_true_r. case_bool_decide as Hr.
      * eexists _, _, s'. split; [reflexivity|]. split; [exact Hs'|]. split; [exact Ht|].
        discriminate.
      * eexists _, _, s'. split; [reflexivity|]. split; [exact Hs'|]. split; [exact Ht|].
        intros _. split; [|eexists; split; [reflexivity|exact Hr]].
        destruct (Hres w eq_refl) as [->|Hlt]; [contradiction|exact Hlt].
    + eexists _, _, s'. split; [reflexivity|]. split; [exact Hs'|]. split; [exact Ht|].
      discriminate.
Qed.

(** X21. [Greedy] around a [Required] string option returns, with the
    arguments it could read: on a scanner inside its target it ends with no
    error and a list of strings none of which is empty, and leaves the
    scanner inside the target. *)
Theorem Greedy_of_required_string_returns fuel so s :
  in_range s → (length (rest s) < fuel)%nat → so_Required so = true →
  ∃ a s',
    Parse strconv_ParseInt strconv_ParseUint fuel (OfGreedy (OfStringOption so)) s
      = Value ((OfSlice a, None), s') ∧
    Forall (λ v, ∃ w, v = OfString w ∧ w ≠ []) a ∧
    in_range s' ∧ Target s' = Target s.
Proof.
  intros Hs Hlen Hreq. cbn [Parse].
  assert (Hgen : ∀ n s a0, in_range s → (length (rest s) < n)%nat →
            (length (rest s) < fuel)%nat →
            ∃ a s', Greedy_loop (StringOption_Parse (NumError := NumError) fuel so) n s a0
                      = Value ((OfSlice (a0 ++ a), None), s') ∧
                    Forall (λ v, ∃ w, v = OfString w ∧ w ≠ []) a ∧
                    in_range s' ∧ Target s' = Target s).
  { clear s Hs Hlen. induction n as [|n IH]; intros s a0 Hs Hn Hlen; [lia|].
    cbn [Greedy_loop].
    destruct (StringOption_Parse_progress fuel so s Hreq Hs Hlen)
      as (v & e & s1 & -> & Hs1 & Ht1 & He).
    destruct e as [err|].
    - exists [], s1. rewrite app_nil_r. split; [reflexivity|].
      split; [constructor|]. split; assumption.
    - destruct (He eq_refl) as (Hlt & w & -> & Hw).
      destruct (IH s1 (a0 ++ [OfString w]) Hs1 ltac:(lia) ltac:(lia))
        as (a & s' & -> & Ha & Hs' & Ht).
      exists (OfString w :: a), s'. rewrite <- app_assoc. split; [reflexivity|].
      split; [constructor; [eexists; split; [reflexivity|exact Hw]|exact Ha]|].
      split; [exact Hs'|congruence]. }
  destruct (Hgen fuel s [] Hs Hlen Hlen) as (a & s' & Hloop & Ha & Hs' & Ht).
  exists a, s'. split; [exact Hloop|]. split; [exact Ha|]. split; assumption.
Qed.
End Greedy_facts.

Section Handle_facts.
Import commands.
Context {NumError F : Type}.
Variable strconv_ParseInt strconv_ParseUint : list Ascii.ascii → Z → Z → Z * option NumError.
Implicit Types (d : Command F) (cs : list (Command F)) (Label : list Ascii.ascii).

Lemma by_alias_spec d aliases Label co :
  by_alias d aliases Label co = if bool_decide (Label ∈ aliases) then Some d else co.
Proof.
  induction aliases as [|a aliases IH]; cbn [by_alias].
  - rewrite bool_decide_eq_false_2 by apply not_elem_of_nil. reflexivity.
  - destruct (decide (a = Label)) as [Ha|Ha].
    + rewrite (bool_decide_eq_true_2 _ Ha). subst a.
      rewrite bool_decide_eq_true_2 by (apply elem_of_cons; left; reflexivity). reflexivity.
    + rewrite (bool_decide_eq_false_2 _ Ha), IH.
      apply (f_equal (λ b : bool, if b then Some d else co)).
      apply bool_decide_ext. rewrite elem_of_cons. intuition congruence.
Qed.

Lemma find_command_spec cs Label : ∀ co,
  find_command cs Label co =
    match list_find (λ d, Name d = Label) cs with
    | Some (_, d) => Some d
    | None =>
        match last (filter (λ d, Label ∈ Aliases d) cs) with
        | Some d => Some d
        | None => co
        end
    end.
Proof.
  induction cs as [|d cs IH]; intros co; [reflexivity|].
  cbn [find_command list_find]. destruct (decide (Name d = Label)) as [Hn|Hn].
  - rewrite (bool_decide_eq_true_2 _ Hn). reflexivity.
  - rewrite (bool_decide_eq_false_2 _ Hn), IH, by_alias_spec.
    destruct (list_find (λ d0, Name d0 = Label) cs) as [[i d']|]; [reflexivity|].
    cbn [fmap option_fmap option_map]. rewrite filter_cons.
    destruct (decide (Label ∈ Aliases d)) as [Ha|Ha].
    + rewrite (bool_decide_eq_true_2 _ Ha), last_cons.
      destruct (last (filter (λ d0, Label ∈ Aliases d0) cs)); reflexivity.
    + rewrite (bool_decide_eq_false_2 _ Ha). reflexivity.
Qed.

(** X22. Which command [Handle] picks.  A command whose name is the label
    wins over every alias, also over the alias of a command declared
    earlier, and among commands of that name the first declared wins; when
    no command has that name, the last declared among the commands with the
    label as an alias wins. *)
Theorem Handle_prefers_names_to_aliases cs Label :
  find_command cs Label None =
    match list_find (λ d, Name d = Label) cs with
    | Some (_, d) => Some d
    | None => last (filter (λ d, Label ∈ Aliases d) cs)
    end.
Proof.
  rewrite find_command_spec.
  destruct (list_find _ cs) as [[i d]|]; [reflexivity|].
  destruct (last _); reflexivity.
Qed.

Lemma parse_options_spec fuel (os : list Option_) : ∀ (ctx ctx' : Context F),
  parse_options strconv_ParseInt strconv_ParseUint fuel os ctx = Value (Some ctx') ↔
  ctx_Command ctx' = ctx_Command ctx ∧ Prefix ctx' = Prefix ctx ∧ Label ctx' = Label ctx ∧
  parsed_in_turn strconv_ParseInt strconv_ParseUint fuel os
    (ctx_Scanner ctx) (ctx_Options ctx) (ctx_Scanner ctx') (ctx_Options ctx').
Proof.
  induction os as [|o os IH]; intros ctx ctx'; cbn [parse_options parsed_in_turn].
  - split.
    + intros [= <-]. repeat split.
    + intros (Hc & Hx & Hl & Hs & Hm). destruct ctx, ctx'. cbn in *. congruence.
  - destruct (Parse strconv_ParseInt strconv_ParseUint fuel o (ctx_Scanner ctx))
      as [[[r err] s1]| |].
    + destruct err as [err|].
      * split; [discriminate|]. intros (_ & _ & _ & r' & s' & Hp & _). discriminate.
      * rewrite IH. cbn [ctx_Command Prefix Label ctx_Scanner ctx_Options]. split.
        -- intros (Hc & Hx & Hl & Hrest). split; [exact Hc|]. split; [exact Hx|].
           split; [exact Hl|]. exists r, s1. split; [reflexivity|exact Hrest].
        -- intros (Hc & Hx & Hl & r' & s' & Hp & Hrest). injection Hp as <- <-.
           split; [exact Hc|]. split; [exact Hx|]. split; [exact Hl|exact Hrest].
    + split; [discriminate|]. intros (_ & _ & _ & r' & s' & Hp & _). discriminate.
    + split; [discriminate|]. intros (_ & _ & _ & r' & s' & Hp & _). discriminate.
Qed.

Lemma parsed_in_turn_values fuel (os : list Option_) : ∀ s m s' m',
  parsed_in_turn strconv_ParseInt strconv_ParseUint fuel os s m s' m' →
  (∀ k, k ∉ GetName <$> os → m' !! k = m !! k) ∧
  (∀ k, is_Some (m !! k) → is_Some (m' !! k)) ∧
  Forall (λ o, is_Some (m' !! GetName o)) os.
Proof.
  induction os as [|o os IH]; intros s m s' m'; cbn [parsed_in_turn].
  - intros [_ ->]. split; [reflexivity|]. split; [auto|constructor].
  - intros (r & s1 & _ & Hrest). apply IH in Hrest as (Hother & Hkeep & Hall).
    split; [|split].
    + intros k Hk. rewrite fmap_cons, not_elem_of_cons in Hk. destruct Hk as [Hne Hk].
      rewrite (Hother k Hk). apply lookup_insert_ne. congruence.
    + intros k Hk. apply Hkeep. rewrite lookup_insert_is_Some'. right. exact Hk.
    + constructor; [|exact Hall]. apply Hkeep. rewrite lookup_insert_eq. eexists; reflexivity.
Qed.

(** X23. When [Handle] calls a callback.  A callback is called exactly
    when a command is picked for the label and its options parse one after
    the other without an error, each from where the one before left the
    scanner; it is the callback of that command, and the context it is
    given holds the value each option parsed under the name of the option
    (a later option of the same name replacing an earlier one), the scanner
    as the last option left it, and label and prefix as [handle] set them.
    So every option has a value, and what the context held under other
    names it still holds. *)
Theorem Handle_calls_back_with_every_option
    fuel cs (ctx ctx' : Context F) (co : Command F) :
  (Handle strconv_ParseInt strconv_ParseUint fuel cs ctx = Value (Some (co, ctx')) ↔
   find_command cs (Label ctx) None = Some co ∧
   ctx_Command ctx' = Some co ∧ Prefix ctx' = Prefix ctx ∧ Label ctx' = Label ctx ∧
   parsed_in_turn strconv_ParseInt strconv_ParseUint fuel (Options co)
     (ctx_Scanner ctx) (ctx_Options ctx) (ctx_Scanner ctx') (ctx_Options ctx')) ∧
  (Handle strconv_ParseInt strconv_ParseUint fuel cs ctx = Value (Some (co, ctx')) →
   (∀ k, k ∉ GetName <$> Options co → ctx_Options ctx' !! k = ctx_Options ctx !! k) ∧
   (∀ k, is_Some (ctx_Options ctx !! k) → is_Some (ctx_Options ctx' !! k)) ∧
   Forall (λ o, is_Some (ctx_Options ctx' !! GetName o)) (Options co)).
Proof.
  assert (Hiff :
    Handle strconv_ParseInt strconv_ParseUint fuel cs ctx = Value (Some (co, ctx')) ↔
    find_command cs (Label ctx) None = Some co ∧
    ctx_Command ctx' = Some co ∧ Prefix ctx' = Prefix ctx ∧ Label ctx' = Label ctx ∧
    parsed_in_turn strconv_ParseInt strconv_ParseUint fuel (Options co)
      (ctx_Scanner ctx) (ctx_Options ctx) (ctx_Scanner ctx') (ctx_Options ctx')).
  { unfold Handle.
    destruct (find_command cs (commands.Label ctx) None) as [co0|];
      [|split; [discriminate|intros [Hf _]; discriminate]].
    destruct (parse_options _ _ _ _ _) as [[ctx0|]| |] eqn:Hp.
    - apply parse_options_spec in Hp. cbn in Hp. split.
      + intros [= <- <-]. split; [reflexivity|]. exact Hp.
      + intros ([= <-] & Hc & Hx & Hl & Hrest).
        assert (Hp' : parse_options strconv_ParseInt strconv_ParseUint fuel (Options co0)
                        {| ctx_Command := Some co0; Prefix := Prefix ctx;
                           ctx_Scanner := ctx_Scanner ctx; Label := Label ctx;
                           ctx_Options := ctx_Options ctx |} = Value (Some ctx0))
          by (apply parse_options_spec; exact Hp).
        assert (Hp'' : parse_options strconv_ParseInt strconv_ParseUint fuel (Options co0)
                         {| ctx_Command := Some co0; Prefix := Prefix ctx;
                            ctx_Scanner := ctx_Scanner ctx; Label := Label ctx;
                            ctx_Options := ctx_Options ctx |} = Value (Some ctx'))
          by (apply parse_options_spec; cbn; auto).
        rewrite Hp' in Hp''. injection Hp'' as ->. reflexivity.
    - split; [discriminate|]. intros ([= <-] & Hc & Hx & Hl & Hrest).
      assert (Hp' : parse_options strconv_ParseInt strconv_ParseUint fuel (Options co0)
                      {| ctx_Command := Some co0; Prefix := Prefix ctx;
                         ctx_Scanner := ctx_Scanner ctx; Label := Label ctx;
                         ctx_Options := ctx_Options ctx |} = Value (Some ctx'))
        by (apply parse_options_spec; cbn; auto).
      rewrite Hp in Hp'. discriminate.
    - split; [discriminate|]. intros ([= <-] & Hc & Hx & Hl & Hrest).
      assert (Hp' : parse_options strconv_ParseInt strconv_ParseUint fuel (Options co0)
                      {| ctx_Command := Some co0; Prefix := Prefix ctx;
                         ctx_Scanner := ctx_Scanner ctx; Label := Label ctx;
                         ctx_Options := ctx_Options ctx |} = Value (Some ctx'))
        by (apply parse_options_spec; cbn; auto).
      rewrite Hp in Hp'. discriminate.
    - split; [discriminate|]. intros ([= <-] & Hc & Hx & Hl & Hrest).
      assert (Hp' : parse_options strconv_ParseInt strconv_ParseUint fuel (Options co0)
                      {| ctx_Command := Some co0; Prefix := Prefix ctx;
                         ctx_Scanner := ctx_Scanner ctx; Label := Label ctx;
                         ctx_Options := ctx_Options ctx |} = Value (Some ctx'))
        by (apply parse_options_spec; cbn; auto).
      rewrite Hp in Hp'. discriminate. }
  split; [exact Hiff|]. intros Hh. apply Hiff in Hh as (_ & _ & _ & _ & Hrest).
  exact (parsed_in_turn_values fuel _ _ _ _ _ Hrest).
Qed.

Lemma strings_IndexRune_spec (s : list Ascii.ascii) (r : Ascii.ascii) :
  (strings_IndexRune s r = -1 ∧ r ∉ s)%Z ∨
  (0 ≤ strings_IndexRune s r)%Z ∧
  (r ∉ take (Z.to_nat (strings_IndexRune s r)) s) ∧
  s = take (Z.to_nat (strings_IndexRune s r)) s
        ++ r :: drop (Z.to_nat (strings_IndexRune s r + 1)) s.
Proof.
  induction s as [|b s IH]; [left; split; [reflexivity|apply not_elem_of_nil]|].
  cbn [strings_IndexRune]. case_bool_decide as Hb.
  - right. subst b. split; [lia|]. split; [apply not_elem_of_nil|reflexivity].
  - destruct IH as [[-> Hnot]|(H0 & Hnot & Heq)].
    + left. split; [reflexivity|]. rewrite not_elem_of_cons. split; [congruence|exact Hnot].
    + right. destruct (strings_IndexRune s r =? -1)%Z eqn:E; [lia|].
      split; [lia|].
      replace (Z.to_nat (strings_IndexRune s r + 1)) with (S (Z.to_nat (strings_IndexRune s r)))
        by lia.
      replace (Z.to_nat (strings_IndexRune s r + 1 + 1))
        with (S (Z.to_nat (strings_IndexRune s r + 1))) by lia.
      cbn [take drop]. split.
      * rewrite not_elem_of_cons. split; [congruence|exact Hnot].
      * cbn [app]. f_equal. exact Heq.
Qed.

Lemma split_content_spec (prefixes : list (list Ascii.ascii)) (Content : list Ascii.ascii) :
  let '(name, args, prefix) := split_content prefixes Content in
  name ≠ [] →
  (space ∉ name) ∧
  (Content = prefix ++ name ∧ args = [] ∨ Content = prefix ++ name ++ space :: args) ∧
  ∃ before after, prefixes = before ++ prefix :: after ∧
                  Forall (λ p, ¬ p `prefix_of` Content) before.
Proof.
  induction prefixes as [|p prefixes IH]; [intros Hn; contradiction|].
  cbn [split_content]. unfold strings_HasPrefix. case_bool_decide as Hp.
  - destruct Hp as [tl ->]. rewrite drop_app_length.
    destruct (strings_IndexRune_spec tl space) as [[-> Hnot]|(H0 & Hnot & Heq)].
    + cbn [Z.eqb negb]. intros _. split; [exact Hnot|].
      split; [left; split; reflexivity|]. exists [], prefixes. split; [reflexivity|constructor].
    + destruct (strings_IndexRune tl space =? -1)%Z eqn:E; [lia|]. cbn [negb].
      intros _. split; [exact Hnot|]. split; [right; rewrite <- Heq; reflexivity|].
      exists [], prefixes. split; [reflexivity|constructor].
  - destruct (split_content prefixes Content) as [[name args] prefix].
    intros Hn. destruct (IH Hn) as (Hsp & Hc & before & after & -> & Hb).
    split; [exact Hsp|]. split; [exact Hc|].
    exists (p :: before), after. split; [reflexivity|]. constructor; assumption.
Qed.

(** X24. What [handle] dispatches.  When a message is handed on, the
    prefix is the first of the configured prefixes the content starts with
    (a longer prefix listed later is not considered), the label is what
    follows it up to the first space and is not empty, the scanner starts
    at the beginning of what follows that space, and prefix, label and
    arguments put together give back the content.  A message is let go when
    there is no prefix getter, when the global check refuses it, or when
    the label is empty. *)
Theorem handle_splits_the_content
    (Prefix_ : option (list (list Ascii.ascii))) (GlobalCheck : option bool)
    (Content : list Ascii.ascii) (ctx : Context F) :
  handle Prefix_ GlobalCheck Content = Some ctx →
  GlobalCheck ≠ Some false ∧
  Label ctx ≠ [] ∧ (space ∉ Label ctx) ∧
  (Content = Prefix ctx ++ Label ctx ∧ Target (ctx_Scanner ctx) = [] ∨
   Content = Prefix ctx ++ Label ctx ++ space :: Target (ctx_Scanner ctx)) ∧
  (∃ prefixes before after,
     Prefix_ = Some prefixes ∧ prefixes = before ++ Prefix ctx :: after ∧
     Forall (λ p, ¬ p `prefix_of` Content) before) ∧
  Position (ctx_Scanner ctx) = 0%Z ∧ in_range (ctx_Scanner ctx) ∧
  ctx_Options ctx = ∅ ∧ ctx_Command ctx = None.
Proof.
  unfold handle. destruct Prefix_ as [prefixes|]; [|discriminate].
  case_bool_decide as Hg; [discriminate|].
  pose proof (split_content_spec prefixes Content) as Hsplit.
  destruct (split_content prefixes Content) as [[name args] prefix].
  destruct (Z.of_nat (length name) =? 0)%Z eqn:E; [discriminate|].
  intros [= <-]. cbn.
  assert (Hn : name ≠ []) by (intros ->; simpl in E; discriminate).
  destruct (Hsplit Hn) as (Hsp & Hc & before & after & Hpre & Hb).
  split; [exact Hg|]. split; [exact Hn|]. split; [exact Hsp|]. split; [exact Hc|].
  split; [exists prefixes, before, after; auto|].
  split; [reflexivity|]. split; [unfold in_range; simpl; lia|]. split; reflexivity.
Qed.
End Handle_facts.

Section Emoji_facts.

Lemma strings_Contains_length (s substr : list Ascii.ascii) :
  strings_Contains s substr = true → (length substr ≤ length s)%nat.
Proof.
  induction s as [|b s IH]; cbn [strings_Contains]; unfold strings_HasPrefix;
    intros Hc; apply orb_true_iff in Hc as [Hp|Hc].
  - apply bool_decide_eq_true_1 in Hp. apply prefix_length in Hp. exact Hp.
  - discriminate.
  - apply bool_decide_eq_true_1 in Hp. apply prefix_length in Hp. exact Hp.
  - specialize (IH Hc). simpl. lia.
Qed.

Lemma Emoji_is_custom_spec (s : list Ascii.ascii) :
  Emoji.is_custom s = if bool_decide (s = []) then None else Some false.
Proof.
  unfold Emoji.is_custom, slice_to. destruct s as [|b s]; [reflexivity|].
  rewrite bool_decide_eq_false_2 by discriminate.
  replace (0 <=? 1)%Z with true by reflexivity.
  replace (1 <=? Z.of_nat (length (b :: s)))%Z with true
    by (symmetry; apply Z.leb_le; simpl; lia).
  cbn [andb]. f_equal.
  destruct (strings_Contains _ _) eqn:Hc; [|reflexivity].
  apply strings_Contains_length in Hc. vm_compute in Hc. lia.
Qed.

(** X25. An emoji given as a string is never taken for a custom one.
    [Emoji.UnmarshalJSON] and [LightContext.ReactWith] look for the whole
    alphabet of identifiers inside the first byte of the string, which it
    cannot hold: for every string that is not empty the string becomes the
    [Emoji] field and the [ID] field is left as it was (empty, in
    [ReactWith]), also when the string is an identifier; on the empty
    string both panic. *)
Theorem Emoji_is_never_custom {error : Type} (s : list Ascii.ascii) (e : Emoji.t) :
  Emoji.ReactWith s
    = (if bool_decide (s = []) then None else Some {| Emoji.ID := []; Emoji.Emoji := s |}) ∧
  Emoji.UnmarshalJSON (error := error) (inr s) e
    = (if bool_decide (s = []) then None
       else Some (None, {| Emoji.ID := Emoji.ID e; Emoji.Emoji := s |})).
Proof.
  unfold Emoji.ReactWith, Emoji.UnmarshalJSON. rewrite Emoji_is_custom_spec.
  case_bool_decide; split; reflexivity.
Qed.
End Emoji_facts.

(** ** The further properties at sample inputs *)

Lemma cache1_run_keeps_keys : Forall Cache1_op_keeps_key cache1_run.
Proof. repeat constructor. Qed.

Lemma cache2_run_keeps_keys : Forall Cache2_op_keeps_key cache2_run.
Proof. repeat constructor. Qed.

Lemma caches_return_the_key_asked_for_witness :
  (∀ k v, Cache1.Get (Cache1_run_ops (Cache1.init None false 2) cache1_run) k = Some v →
          GetKey v = k) ∧
  (∀ parent k v,
     Cache2.Get (Cache2.run_ops (Cache2.init None 2 1 0 false) cache2_run) parent k = Some v →
     GetKey v = k).
Proof.
  exact (caches_return_the_key_asked_for
           (Cache1.init None false 2) cache1_run (Cache2.init None 2 1 0 false) cache2_run
           eq_refl eq_refl cache1_run_keeps_keys cache2_run_keeps_keys).
Defined.

Lemma Cache2_groups_bound_witness :
  (Cache2.GroupsCount (Cache2.run_ops (Cache2.init None 2 1 0 false) cache2_run) ≤ 2)%Z.
Proof.
  apply Cache2_groups_bound. reflexivity.
Defined.

Lemma Cache2_group_size_bound_witness :
  Cache2_groups_within (Z.max 1 1)
    (Cache2.run_ops (Cache2.init None 2 1 0 false) cache2_run).
Proof.
  apply Cache2_group_size_bound; [discriminate|left; reflexivity].
Defined.

Lemma ServerDelete_cascades_witness :
  ∃ roles' servers',
    Roles after_ServerDelete = Some roles' ∧ Servers after_ServerDelete = Some servers' ∧
    Cache2.Get roles' "s1" "r1" = None ∧
    Cache2.Get roles' "s2" "r3" = Some "admin" ∧
    Cache1.Get servers' "s1" = None ∧
    Cache1.Get servers' "s2" = Some "two".
Proof.
  destruct (ServerDelete_cascades "s1" sample_GenericCache after_ServerDelete _ _
              eq_refl eq_refl eq_refl)
    as (roles' & servers' & Hr & Hs & Hroles & _ & Hservers & _).
  exists roles', servers'. split; [exact Hr|]. split; [exact Hs|].
  rewrite !Hroles, !Hservers. repeat split.
Defined.

Lemma BulkDeleteMessage_removes_listed_witness :
  ∃ messages',
    Messages after_BulkDeleteMessage = Some messages' ∧
    Cache2.Get messages' "c1" "m1" = None ∧
    Cache2.Get messages' "c1" "m2" = Some (message "m2" "there") ∧
    Cache2.GroupsCount messages' = 1%Z.
Proof.
  destruct (BulkDeleteMessage_removes_listed "c1" ["m1"; "m9"] sample_GenericCache
              after_BulkDeleteMessage _ eq_refl eq_refl)
    as (messages' & Hm & Hget & Hgroups & _).
  exists messages'. split; [exact Hm|]. rewrite !Hget, Hgroups. repeat split.
Defined.

Lemma Listen_hands_out_a_fresh_handle_witness :
  let ec := EC_run NewEventController controller_run in
  ls ec !! ID (Listen (Note "C") ec).1 = None ∧
  ls (Listen (Note "C") ec).2 = <[ID (Listen (Note "C") ec).1 := Note "C"]> (ls ec) ∧
  ls (Delete (Listen (Note "C") ec).1 (Listen (Note "C") ec).2) = ls ec.
Proof.
  exact (Listen_hands_out_a_fresh_handle controller_run (Note "C") ltac:(vm_compute; reflexivity)).
Defined.

Lemma overridden_ls : ls (Events_MessageUpdate overridden) = <[4%Z := Note "Z"]> ∅.
Proof. vm_compute. reflexivity. Qed.

Lemma overridden_tame :
  removes_at_most_itself (@Closure_call unit unit) Events_MessageUpdate
    (ls (Events_MessageUpdate overridden)) update_m1.
Proof.
  intros k g w Hk. rewrite overridden_ls in Hk.
  apply lookup_insert_Some in Hk as [[<- <-]|[_ Hk]]; [left; reflexivity|].
  rewrite lookup_empty in Hk. discriminate.
Qed.

Lemma overridden_order : iteration_order Events_MessageUpdate [4%Z] overridden.
Proof.
  split.
  - apply (bool_decide_unpack _). vm_compute. exact I.
  - intros k [g Hk]. rewrite overridden_ls in Hk.
    apply lookup_insert_Some in Hk as [[<- <-]|[_ Hk]]; [set_solver|].
    rewrite lookup_empty in Hk. discriminate.
Qed.

Lemma Override_leaves_one_callback_witness :
  (Emit_calls (@Closure_call unit unit) Events_MessageUpdate [4%Z] update_m1 overridden).*1
    = [ID (Override (Note "Z") (Events_MessageUpdate three_listeners)).1].
Proof.
  exact (proj2 (Override_leaves_one_callback (@Closure_call unit unit) Events_MessageUpdate
                  (Note "Z") (Events_MessageUpdate three_listeners) [4%Z] update_m1
                  overridden eq_refl overridden_order overridden_tame)).
Defined.

Lemma open_events_silent :
  silent open_run (Events_Ready open_events) ∧
  silent open_run (Events_RevoltError open_events) ∧
  silent open_run (Events_Error open_events).
Proof.
  repeat split; [apply silent_run|apply (silent_run open_run [])|apply silent_run];
    repeat constructor; intros g Hg; injection Hg as <-; reflexivity.
Qed.

Lemma open_run_foreign :
  Forall (foreign open_run) (meanwhile_Ready open_run) ∧
  Forall (foreign open_run) (meanwhile_RevoltError open_run) ∧
  Forall (foreign open_run) (meanwhile_Error open_run).
Proof.
  repeat split; repeat constructor; intros g Hg; simpl in Hg;
    try discriminate; injection Hg as <-; reflexivity.
Qed.

Lemma Open_unsubscribes_its_callbacks_witness :
  silent open_run (Events_Error (Open open_run open_events).2) ∧
  (Open open_run open_events).1 = Some "InvalidSession".
Proof.
  destruct (Open_unsubscribes_its_callbacks open_run open_events
              (proj1 open_events_silent) (proj1 (proj2 open_events_silent))
              (proj2 (proj2 open_events_silent))
              (proj1 open_run_foreign) (proj1 (proj2 open_run_foreign))
              (proj2 (proj2 open_run_foreign)))
    as (_ & _ & He & Herr).
  split; [exact He|exact Herr].
Defined.

Lemma one_reader_keyed : Cache2_keyed (Cache_Messages one_reader).
Proof.
  apply (Cache2_keyed_apply_op (Cache2.init None 16 0 0 false)
           (Cache2.OpSet (Cache2.listed []) "c1" message_m1) I).
  intros p k v Hget. unfold Cache2.Get in Hget. simpl in Hget.
  rewrite lookup_empty in Hget. discriminate.
Qed.

Lemma one_reader_counted : Cache2.counted (Cache_Messages one_reader).
Proof.
  apply (counted_apply_op (Cache2.init None 16 0 0 false)
           (Cache2.OpSet (Cache2.listed []) "c1" message_m1)).
  unfold Cache2.counted, Cache2.init. cbn [Cache2.total Cache2.Cache].
  symmetry. apply entries_empty.
Qed.

Lemma MessageUpdate_touches_one_message_witness :
  Cache2_keyed (Cache_Messages (MessageUpdate_followUp (λ e : unit, e) update_m1 one_reader)) ∧
  Cache2.Size (Cache_Messages (MessageUpdate_followUp (λ e : unit, e) update_m1 one_reader))
    = Cache2.Size (Cache_Messages one_reader).
Proof.
  destruct (MessageUpdate_touches_one_message (F := Closure) (U := list string)
              (λ e : unit, e) update_m1 one_reader one_reader_keyed one_reader_counted)
    as (Hkeyed & _ & Hsize & _).
  split; [exact Hkeyed|exact Hsize].
Defined.

Lemma ping_pong_silence_timed : Pinger.timed 0 ping_pong_silence.
Proof. cbn. repeat split. Qed.

Lemma pinger_waits_for_Pong_witness :
  (Pinger.pings (Pinger.run Pinger.started ping_pong_silence)
     ≤ 0 + Pinger.pongs ping_pong_silence + 1)%nat.
Proof.
  exact (pinger_waits_for_Pong Pinger.started ping_pong_silence ping_pong_silence_timed).
Defined.

Lemma after_the_silence_closes : Pinger.CloseCalled ∈ after_the_silence.
Proof.
  unfold after_the_silence. apply elem_of_cons; right. apply elem_of_cons; right.
  apply elem_of_cons; left. reflexivity.
Qed.

Lemma close_waits_for_a_pinger_that_is_gone_witness :
  Pinger.close_blocked
    (Pinger.run (Pinger.step pinged_once (Pinger.Tick true 40 None)) after_the_silence)
  = true.
Proof.
  destruct (close_waits_for_a_pinger_that_is_gone pinged_once true 40 None after_the_silence
              (or_intror (or_intror (or_intror eq_refl))))
    as (_ & _ & _ & _ & Hblocked).
  exact (Hblocked after_the_silence_closes).
Defined.

Lemma arguments_in_range : commands.in_range arguments.
Proof. unfold commands.in_range. simpl. lia. Qed.

Lemma integer_options_read_one_word_witness :
  ∃ w s',
    (space ∉ w) ∧
    (commands.rest arguments = w ∧ commands.rest s' = [] ∨
     commands.rest arguments = w ++ space :: commands.rest s') ∧
    commands.in_range s'.
Proof.
  destruct (integer_options_read_one_word sample_Parse sample_Parse 6 count_option size_option
              arguments arguments_in_range ltac:(simpl; lia))
    as (w & s' & Hw & Hsplit & _ & Hs' & _).
  exists w, s'. split; [exact Hw|]. split; [exact Hsplit|exact Hs'].
Defined.

Lemma StringOption_Parse_plain_witness :
  ∃ s', commands.StringOption_Parse (NumError := string) 6 raw_option arguments
          = commands.Value ((commands.OfString (text "12 ab"), None), s') ∧
        commands.rest s' = [].
Proof.
  destruct (proj1 (StringOption_Parse_plain (NumError := string) 6 raw_option arguments
                     arguments_in_range ltac:(simpl; lia)) eq_refl)
    as (s' & Hparse & Hend & _).
  exists s'. split; [exact Hparse|exact Hend].
Defined.

Lemma Greedy_of_optional_string_never_returns_witness :
  commands.Parse sample_Parse sample_Parse 1000
    (commands.OfGreedy (commands.OfStringOption (word_option false))) arguments
  = commands.NoFuel.
Proof.
  exact (Greedy_of_optional_string_never_returns sample_Parse sample_Parse
           (word_option false) arguments arguments_in_range eq_refl (or_intror eq_refl) 1000).
Defined.

Lemma Greedy_of_required_string_returns_witness :
  ∃ a s',
    commands.Parse sample_Parse sample_Parse 6
      (commands.OfGreedy (commands.OfStringOption (word_option true))) arguments
      = commands.Value ((commands.OfSlice a, None), s') ∧
    commands.in_range s'.
Proof.
  destruct (Greedy_of_required_string_returns sample_Parse sample_Parse 6 (word_option true)
              arguments arguments_in_range ltac:(simpl; lia) eq_refl)
    as (a & s' & Hparse & _ & Hs' & _).
  exists a, s'. split; [exact Hparse|exact Hs'].
Defined.

Lemma dispatched_handled :
  commands.handle (Some [text "!"; text "!!"]) None (text "!!roll 12 ab") = Some dispatched.
Proof. vm_compute. reflexivity. Qed.

Lemma Handle_calls_back_with_every_option_witness :
  commands.Handle sample_Parse sample_Parse 8 sample_commands dispatched
  = commands.Value (Some (roll_command, rolled)).
Proof.
  apply (proj2 (proj1 (Handle_calls_back_with_every_option sample_Parse sample_Parse 8
                          sample_commands dispatched rolled roll_command))).
  split; [vm_compute; reflexivity|]. split; [reflexivity|].
  split; [vm_compute; reflexivity|]. split; [vm_compute; reflexivity|].
  cbn [commands.parsed_in_turn commands.Options roll_command].
  eexists _, _. split; [vm_compute; reflexivity|].
  eexists _, _. split; [vm_compute; reflexivity|].
  split; reflexivity.
Defined.

Lemma handle_splits_the_content_witness :
  (space ∉ commands.Label dispatched) ∧
  (text "!!roll 12 ab" = commands.Prefix dispatched ++ commands.Label dispatched ∧
     commands.Target (commands.ctx_Scanner dispatched) = [] ∨
   text "!!roll 12 ab"
     = commands.Prefix dispatched ++ commands.Label dispatched
       ++ space :: commands.Target (commands.ctx_Scanner dispatched)).
Proof.
  destruct (handle_splits_the_content (F := string) (Some [text "!"; text "!!"]) None
              (text "!!roll 12 ab") dispatched dispatched_handled)
    as (_ & _ & Hsp & Hc & _).
  split; [exact Hsp|exact Hc].
Defined.

(** The message [!!roll 12 ab] under the prefixes [!] and [!!]: the first
    prefix is taken, so the label is [!roll]; the command of that name is
    called, not the one declared before it with that alias, with the count
    12 and the word [ab]. *)
Example roll_is_called :
  commands.Prefix dispatched = text "!" ∧ commands.Label dispatched = text "!roll" ∧
  commands.Callback called_back.1 = "roll" ∧
  commands.ctx_Options called_back.2 !! text "count"
    = Some (commands.OfInteger commands.Kint64 12) ∧
  commands.ctx_Options called_back.2 !! text "word" = Some (commands.OfString (text "ab")).
Proof. vm_compute. repeat split. Qed.
